(** * Style/palette code generator (codegen/style/generator.cpp)

    A shallow embedding of the parts of the style generator that fix the
    behaviour of the generated palette class, of the palette checksum, of the
    generated name matcher, of the unique-value collector and of the icon
    mask composition, followed by the properties proved about them.

    Conventions.
    - C++ [int]/[quint32] values are [Z]; wrap-around is written out where
      the source can overflow.
    - [uchar] is [Byte.byte]; a [QByteArray] is a [list byte]; a [QString]
      holding Latin-1 text is a [string].
    - A [QMap] is a key-sorted association list (QMap iterates in ascending
      key order, which the generator relies upon).
    - The generated C++ of the palette class is embedded as Rocq functions
      over an explicit palette state; the generated matcher is embedded as a
      list of statements with an interpreter for its control flow. *)

From Stdlib Require Import ZArith List Bool Lia String Ascii Strings.Byte.
From Stdlib Require Import Sorted DecimalString DecimalFacts DecimalN.
From stdpp Require Import base list.

Import ListNotations.
Local Open Scope Z_scope.

Abbreviation uchar := byte (only parsing).
Abbreviation QByteArray := (list byte) (only parsing).

(** ** QMap: key-sorted association lists *)

Module QMap.
Section Map.
Context {K V : Type}.
Variable cmp : K -> K -> comparison.

Definition t := list (K * V).

(** [QMap::insert(key, value)] / [operator[](key) = value]: the value of
    an existing key is replaced, a new key is put at its sorted place. *)
Fixpoint insert (k : K) (v : V) (m : t) : t :=
  match m with
  | [] => [(k, v)]
  | (k', v') :: m' =>
      match cmp k k' with
      | Lt => (k, v) :: (k', v') :: m'
      | Eq => (k, v) :: m'
      | Gt => (k', v') :: insert k v m'
      end
  end.

(** [QMap::value(key, defaultValue)]. *)
Fixpoint value (k : K) (d : V) (m : t) : V :=
  match m with
  | [] => d
  | (k', v') :: m' =>
      match cmp k k' with
      | Eq => v'
      | _ => value k d m'
      end
  end.

(** [QMap::contains(key)]. *)
Fixpoint contains (k : K) (m : t) : bool :=
  match m with
  | [] => false
  | (k', _) :: m' =>
      match cmp k k' with
      | Eq => true
      | _ => contains k m'
      end
  end.

Definition keys (m : t) : list K := map fst m.
End Map.
End QMap.

(** ** The generated palette class (runtime side)

    [writePaletteDefinition] and [writeSetPaletteColor] emit a class whose
    only generation-time parameters are the number of colours [count] and
    the sequence of [compute(index, fallbackIndex, {r, g, b, a})] calls that
    make up the body of [finalize]. *)

Module Palette.

(** [enum class Status]. *)
Inductive Status : Type := Initial | Created | Loaded.

Definition Status_eqb (x y : Status) : bool :=
  match x, y with
  | Initial, Initial | Created, Created | Loaded, Loaded => true
  | _, _ => false
  end.

(** Modelled from the spec: [internal::ColorData] (declared in the style
    core, not in the generator), as far as [save]/[load] observe it: four
    independent byte channels, those the constructor receives being those
    [c.red()], [c.green()], [c.blue()], [c.alpha()] give back. *)
Record ColorData : Type := mkColorData
  { c_red : uchar; c_green : uchar; c_blue : uchar; c_alpha : uchar }.

(** [struct TempColorData { uchar r, g, b, a; }]. *)
Record TempColorData : Type := mkTemp
  { t_r : uchar; t_g : uchar; t_b : uchar; t_a : uchar }.

(** One emitted line [compute(index, fallbackIndex, value);]. *)
Record ComputeCall : Type := mkCall
  { call_index : nat; call_fallbackIndex : Z; call_value : TempColorData }.

(** The object state.  [_data] is raw storage: [None] is a cell in which no
    [ColorData] object lives (never constructed, or destroyed), [Some c] a
    cell holding the object [c]. *)
Record palette : Type := mkPalette
  { _data : list (option ColorData);
    _status : list Status;
    _ready : bool }.

Definition status_at (p : palette) (i : nat) : Status :=
  default Initial (_status p !! i).

Definition data_at (p : palette) (i : nat) : option ColorData :=
  match _data p !! i with
  | Some cell => cell
  | None => None
  end.

Definition set_status (p : palette) (i : nat) (s : Status) : palette :=
  {| _data := _data p; _status := <[i := s]> (_status p); _ready := _ready p |}.

(** [new (data(i)) internal::ColorData(...)]: construct in place. *)
Definition construct_at (p : palette) (i : nat) (c : option ColorData) : palette :=
  {| _data := <[i := c]> (_data p); _status := _status p; _ready := _ready p |}.

(** [*data(i) = ...]: assign to the object living in the cell. *)
Definition assign_at (p : palette) (i : nat) (c : option ColorData) : palette :=
  {| _data := <[i := c]> (_data p); _status := _status p; _ready := _ready p |}.

(** [data(i)->~ColorData()]. *)
Definition destroy_at (p : palette) (i : nat) : palette :=
  {| _data := <[i := None]> (_data p); _status := _status p; _ready := _ready p |}.

Definition set_ready (p : palette) (b : bool) : palette :=
  {| _data := _data p; _status := _status p; _ready := b |}.

Definition ColorData_of (v : TempColorData) : ColorData :=
  mkColorData (t_r v) (t_g v) (t_b v) (t_a v).

(** [void compute(int index, int fallbackIndex, TempColorData value)]. *)
Definition compute (p : palette) (index : nat) (fallbackIndex : Z)
    (value : TempColorData) : palette :=
  if Status_eqb (status_at p index) Initial then
    if (0 <=? fallbackIndex)
       && negb (Status_eqb (status_at p (Z.to_nat fallbackIndex)) Initial)
    then
      let p1 := set_status p index Loaded in
      construct_at p1 index (data_at p1 (Z.to_nat fallbackIndex))
    else
      let p1 := set_status p index Created in
      construct_at p1 index (Some (ColorData_of value))
  else p.

(** [void setData(int index, const internal::ColorData &value)]. *)
Definition setData (p : palette) (index : nat) (value : option ColorData) : palette :=
  let p1 :=
    if Status_eqb (status_at p index) Initial
    then construct_at p index value
    else assign_at p index value in
  set_status p1 index Loaded.

(** [p[i]] on the bytes of the cache. *)
Definition byte_at (cache : QByteArray) (i : nat) : uchar :=
  default Byte.x00 (cache !! i).

(** [{ p[i * 4 + 0], p[i * 4 + 1], p[i * 4 + 2], p[i * 4 + 3] }]. *)
Definition cached_color (cache : QByteArray) (i : nat) : ColorData :=
  mkColorData (byte_at cache (i * 4 + 0)) (byte_at cache (i * 4 + 1))
              (byte_at cache (i * 4 + 2)) (byte_at cache (i * 4 + 3)).

(** The loop of [load], [i] running over the list [l]. *)
Definition load_loop (cache : QByteArray) (l : list nat) (p : palette) : palette :=
  fold_left (fun q i => setData q i (Some (cached_color cache i))) l p.

(** The emitted [compute] calls, run one after the other. *)
Definition run_calls (computes : list ComputeCall) (p : palette) : palette :=
  fold_left (fun q c => compute q (call_index c) (call_fallbackIndex c) (call_value c))
            computes p.

Section Generated.
(** The two generation-time parameters of the emitted class. *)
Variable count : nat.
Variable computes : list ComputeCall.

(** [palette() = default]: no object constructed, every status
    [Status::Initial], [_ready = false]. *)
Definition fresh : palette :=
  mkPalette (replicate count None) (replicate count Initial) false.

(** [void palette::finalize()]. *)
Definition finalize (p : palette) : palette :=
  if _ready p then p
  else run_calls computes (set_ready p true).

(** One iteration of the loop of [operator=]. *)
Definition assign_step (other : palette) (p : palette) (i : nat) : palette :=
  if Status_eqb (status_at other i) Loaded then
    if Status_eqb (status_at p i) Initial
    then construct_at p i (data_at other i)
    else assign_at p i (data_at other i)
  else if negb (Status_eqb (status_at p i) Initial) then
    set_ready (set_status (destroy_at p i) i Initial) false
  else p.

(** The loop of [operator=], [i] running over the list [l]. *)
Definition steps (other : palette) (l : list nat) (p : palette) : palette :=
  fold_left (assign_step other) l p.

Definition assign_loop (p other : palette) : palette :=
  steps other (seq 0 count) p.

(** [palette &operator=(const palette &other)]. *)
Definition operator_assign (p other : palette) : palette :=
  let wasReady := _ready p in
  let p1 := assign_loop p other in
  if wasReady && negb (_ready p1) then finalize p1 else p1.

(** One iteration of the loop of [save]: four writes [result[index++]].
    Reading a cell that holds no object has no defined result ([None]). *)
Definition save_step (p : palette) (st : option (QByteArray * nat)) (i : nat)
    : option (QByteArray * nat) :=
  match st with
  | None => None
  | Some (result, index) =>
      match data_at p i with
      | None => None
      | Some c =>
          let result := <[index := c_red c]> result in
          let result := <[S index := c_green c]> result in
          let result := <[S (S index) := c_blue c]> result in
          let result := <[S (S (S index)) := c_alpha c]> result in
          Some (result, S (S (S (S index))))
      end
  end.

(** [QByteArray palette::save() const]; the [const_cast] finalisation is a
    state change, so the state is returned with the buffer. *)
Definition save (p : palette) : palette * option QByteArray :=
  let p1 := if negb (_ready p) then finalize p else p in
  let result := replicate (count * 4) Byte.x00 in
  (p1, option_map fst (fold_left (save_step p1) (seq 0 count) (Some (result, 0%nat)))).

(** [bool palette::load(const QByteArray &cache)]. *)
Definition load (p : palette) (cache : QByteArray) : palette * bool :=
  if negb (Nat.eqb (length cache) (count * 4)) then (p, false)
  else
    (load_loop cache (seq 0 count) p, true).
End Generated.

End Palette.

(** ** crc32 hash ([Crc32Table], [hashCrc32]) *)

Module Crc32.

(** Truncation to [quint32]. *)
Definition u32 (z : Z) : Z := z mod 2 ^ 32.

(** [static_cast<qint32>] of a [quint32]. *)
Definition to_qint32 (z : Z) : Z := if z <? 2 ^ 31 then z else z - 2 ^ 32.

(** [quint32 reflect(quint32 val, char ch)]: the loop
    [for (int i = 1; i < (ch + 1); ++i)], [n] iterations left. *)
Fixpoint reflect_loop (n : nat) (i ch val result : Z) : Z :=
  match n with
  | O => result
  | S n' =>
      let result :=
        if negb (Z.land val 1 =? 0)
        then Z.lor result (u32 (Z.shiftl 1 (ch - i)))
        else result in
      reflect_loop n' (i + 1) ch (Z.shiftr val 1) result
  end.

Definition reflect (val ch : Z) : Z :=
  reflect_loop (Z.to_nat ch) 1 ch val 0.

Definition poly : Z := 0x04c11db7.

(** Body of the inner loop of the constructor:
    [_data[i] = (_data[i] << 1) ^ (_data[i] & (1 << 31) ? poly : 0)]. *)
Definition table_shift (d : Z) : Z :=
  Z.lxor (u32 (Z.shiftl d 1))
         (if negb (Z.land d (u32 (Z.shiftl 1 31)) =? 0) then poly else 0).

(** Body of the outer loop of the constructor, for one [i]. *)
Definition table_entry (i : Z) : Z :=
  let d := u32 (Z.shiftl (reflect i 8) 24) in
  let d := Nat.iter 8 table_shift d in
  reflect d 32.

(** [Crc32Table::_data] after the constructor has run. *)
Definition Crc32Table : list Z :=
  map (fun i => table_entry (Z.of_nat i)) (seq 0 256).

(** [Crc32Table::operator[]]. *)
Definition table_at (index : Z) : Z := nth (Z.to_nat index) Crc32Table 0.

Definition byte_val (b : byte) : Z := Z.of_N (Byte.to_N b).

(** Body of the loop of [hashCrc32]. *)
Definition hash_step (crc : Z) (b : byte) : Z :=
  Z.lxor (Z.shiftr crc 8) (table_at (Z.lxor (Z.land crc 0xFF) (byte_val b))).

(** [qint32 hashCrc32(const void *data, int len)]. *)
Definition hashCrc32 (data : QByteArray) : Z :=
  to_qint32 (Z.lxor (fold_left hash_step data 0xffffffff) 0xffffffff).

(** *** The reference CRC-32, following the words of the specification

    IEEE 802.3 polynomial 0x04C11DB7 in reflected form, register
    initialised to 0xFFFFFFFF, result complemented with 0xFFFFFFFF. *)

(** Bit reversal of a 32-bit word. *)
Definition bitrev32 (z : Z) : Z :=
  fold_left (fun acc k => if Z.testbit z (Z.of_nat k)
                          then Z.lor acc (2 ^ (31 - Z.of_nat k)) else acc)
            (seq 0 32) 0.

Definition ieee_poly : Z := 0x04C11DB7.
Definition ieee_poly_reflected : Z := bitrev32 ieee_poly.

(** One bit of polynomial division in the reflected (LSB-first) domain. *)
Definition crc_bit (c : Z) : Z :=
  if Z.odd c then Z.lxor (Z.shiftr c 1) ieee_poly_reflected else Z.shiftr c 1.

(** The standard table: entry [i] is eight division steps applied to [i]. *)
Definition standard_table (i : Z) : Z := Nat.iter 8 crc_bit i.

(** Standard table-driven update of the register by one byte. *)
Definition table_update (c : Z) (b : byte) : Z :=
  Z.lxor (Z.shiftr c 8) (standard_table (Z.land (Z.lxor c (byte_val b)) 0xFF)).

Definition crc32_table_driven (data : QByteArray) : Z :=
  Z.lxor (fold_left table_update data 0xFFFFFFFF) 0xFFFFFFFF.

(** The same function, bit by bit, without any table. *)
Definition bitwise_update (c : Z) (b : byte) : Z :=
  Nat.iter 8 crc_bit (Z.lxor c (byte_val b)).

Definition crc32_ieee (data : QByteArray) : Z :=
  Z.lxor (fold_left bitwise_update data 0xFFFFFFFF) 0xFFFFFFFF.

End Crc32.

(** ** The parsed value model ([codegen::style::structure])

    The declarations live in [parsed_file.h]/[structure.h], which are not
    part of the generator's source file; the types below give the part of
    that interface the generator reads. *)

Module structure.

(** Modelled from the spec: the type tag enumeration ([structure::TypeTag]),
    the closed list Invalid, Int, Double, Pixels, String, Color, Point,
    Size, Cursor, Align, Margins, Font, Icon, Struct. *)
Inductive TypeTag : Type :=
  | Invalid | Int | Double | Pixels | String_ | Color | Point | Size
  | Cursor | Align | Margins | Font | Icon | Struct.

Definition TypeTag_eqb (x y : TypeTag) : bool :=
  match x, y with
  | Invalid, Invalid | Int, Int | Double, Double | Pixels, Pixels
  | String_, String_ | Color, Color | Point, Point | Size, Size
  | Cursor, Cursor | Align, Align | Margins, Margins | Font, Font
  | Icon, Icon | Struct, Struct => true
  | _, _ => false
  end.

(** [FullName] is a [QStringList] of scope segments. *)
Definition FullName := list string.

(** [QStringList::back()]. *)
Definition back (n : FullName) : string := List.last n EmptyString.

(** Modelled from the spec: the data records ([structure::data]): a colour
    is four byte channels (with the name of its fallback colour, which
    [colorFallbackName] reads), a point, a size and margins are pixel
    quantities, a font has a size, flags and a family. *)
Module data.
Record color : Type := mkColor
  { red : uchar; green : uchar; blue : uchar; alpha : uchar; fallback : string }.
Record point : Type := mkPoint { x : Z; y : Z }.
Record size : Type := mkSize { width : Z; height : Z }.
Record margins : Type := mkMargins { left : Z; top : Z; right : Z; bottom : Z }.
Record font : Type := mkFont { family : string; font_size : Z; flags : Z }.
End data.

(** Modelled from the spec: [structure::Value] and [structure::Variable].
    A value is either a literal of its tag or an alias ([copyOf] not empty)
    that still carries the data of the value it copies; an icon is a
    sequence of parts (file name, colour value, offset value); a struct
    value has an ordered list of named fields, or none when the field list
    cannot be obtained.  The payload of [Double] is left out: no modelled
    function reads it. *)
Inductive Value : Type :=
  | mkValue (copyOf : FullName) (payload : ValueData)
with ValueData : Type :=
  | DInvalid
  | DInt (v : Z)
  | DDouble
  | DPixels (v : Z)
  | DString (s : string)
  | DColor (c : data.color)
  | DPoint (p : data.point)
  | DSize (s : data.size)
  | DCursor (s : string)
  | DAlign (s : string)
  | DMargins (m : data.margins)
  | DFont (f : data.font)
  | DIcon (parts : list monoicon)
  | DStruct (name : FullName) (fields : option (list Variable_))
with monoicon : Type :=
  | mkMonoicon (filename : string) (color : Value) (offset : Value)
with Variable_ : Type :=
  | mkVariable (name : FullName) (value : Value).

Definition copyOf (v : Value) : FullName := let 'mkValue c _ := v in c.
Definition payload (v : Value) : ValueData := let 'mkValue _ d := v in d.
Definition name (v : Variable_) : FullName := let 'mkVariable n _ := v in n.
Definition value (v : Variable_) : Value := let 'mkVariable _ x := v in x.
Definition filename (p : monoicon) : string := let 'mkMonoicon f _ _ := p in f.
Definition part_color (p : monoicon) : Value := let 'mkMonoicon _ c _ := p in c.
Definition part_offset (p : monoicon) : Value := let 'mkMonoicon _ _ o := p in o.

(** [Value::type().tag]. *)
Definition tag (v : Value) : TypeTag :=
  match payload v with
  | DInvalid => Invalid | DInt _ => Int | DDouble => Double
  | DPixels _ => Pixels | DString _ => String_ | DColor _ => Color
  | DPoint _ => Point | DSize _ => Size | DCursor _ => Cursor
  | DAlign _ => Align | DMargins _ => Margins | DFont _ => Font
  | DIcon _ => Icon | DStruct _ _ => Struct
  end.

(** Modelled from the spec: the typed accessors [Value::Color()] and
    [Value::Point()]; on a value of another tag they give the
    default-constructed object. *)
Definition as_Color (v : Value) : data.color :=
  match payload v with
  | DColor c => c
  | _ => data.mkColor Byte.x00 Byte.x00 Byte.x00 Byte.x00 EmptyString
  end.

Definition as_Point (v : Value) : data.point :=
  match payload v with DPoint p => p | _ => data.mkPoint 0 0 end.

End structure.

(** ** Small helpers of the generator *)

Definition isEmpty {A : Type} (l : list A) : bool :=
  match l with [] => true | _ => false end.

(** [QString::number(int)] / [QString::arg(int)], base ten. *)
Definition QString_number (z : Z) : string :=
  if z <? 0
  then String "-" (NilZero.string_of_uint (N.to_uint (Z.to_N (- z))))
  else NilZero.string_of_uint (N.to_uint (Z.to_N z)).

(** Wrap-around of a C++ [int]. *)
Definition int32 (z : Z) : Z := (z + 2 ^ 31) mod 2 ^ 32 - 2 ^ 31.

(** The values of a C++ [int]. *)
Definition in_int_range (z : Z) : Prop := - 2 ^ 31 <= z < 2 ^ 31.

(** [QString pxValueName(int value)]. *)
Definition pxValueName (value : Z) : string :=
  let result := "px"%string in
  if value <? 0 then
    let value := int32 (- value) in
    let result := (result ++ "m")%string in
    (result ++ QString_number value)%string
  else (result ++ QString_number value)%string.

(** [QString colorFallbackName(structure::Value value)]. *)
Definition colorFallbackName (value : structure.Value) : string :=
  let copy := structure.copyOf value in
  if negb (isEmpty copy) then structure.back copy
  else structure.data.fallback (structure.as_Color value).

Definition uchar_number (c : uchar) : string :=
  QString_number (Z.of_N (Byte.to_N c)).

(** [Generator::valueAssignmentCode], on the values a palette holds: the
    alias branch and [case Tag::Color].  [None] stands for the other tags,
    which [writeSetPaletteColor] never passes in. *)
Definition valueAssignmentCode (value : structure.Value) : option string :=
  let copy := structure.copyOf value in
  if negb (isEmpty copy) then
    let result := ("st::" ++ structure.back copy)%string in
    if structure.TypeTag_eqb (structure.tag value) structure.Color
       || structure.TypeTag_eqb (structure.tag value) structure.Struct
    then Some (result ++ ".clone()")%string
    else Some result
  else
    match structure.payload value with
    | structure.DColor v =>
        Some ("{ " ++ uchar_number (structure.data.red v) ++ ", "
                   ++ uchar_number (structure.data.green v) ++ ", "
                   ++ uchar_number (structure.data.blue v) ++ ", "
                   ++ uchar_number (structure.data.alpha v) ++ " }")%string
    | _ => None
    end.

(** ** QString operations used by the matcher generator *)

Definition QString_size (s : string) : Z := Z.of_nat (String.length s).

(** [QString::mid(position, n)]; a negative [n] means "to the end". *)
Definition QString_mid (s : string) (position n : Z) : string :=
  if n <? 0
  then substring (Z.to_nat position) (String.length s - Z.to_nat position) s
  else substring (Z.to_nat position) (Z.to_nat n) s.

(** [QString::mid(position)]. *)
Definition QString_mid_end (s : string) (position : Z) : string :=
  QString_mid s position (-1).

(** [QString::operator[]] (read). *)
Definition QString_at (s : string) (i : Z) : ascii :=
  match String.get (Z.to_nat i) s with
  | Some c => c
  | None => Ascii.zero
  end.

(** [QString::chop(1)]. *)
Definition QString_chop1 (s : string) : string :=
  substring 0 (String.length s - 1) s.

(** [s[i] = c]. *)
Definition QString_set (s : string) (i : Z) (c : ascii) : string :=
  let k := Z.to_nat i in
  (substring 0 k s ++ String c (substring (S k) (String.length s - S k) s))%string.

Definition QString_isEmpty (s : string) : bool :=
  match s with EmptyString => true | _ => false end.

(** ** The generated matcher [getPaletteIndex]

    The text the generator writes is kept as the sequence of statements it
    is made of; every constructor is one piece of emitted text. *)

Module Matcher.

Inductive Stmt : Type :=
  | CloseSwitch                       (* [};] *)
  | CaseLabel (c : ascii)             (* [case 'c':] *)
  | IfSizeEq (n : Z)                  (* [if (size == n)] *)
  | IfSizeGtSwitch (k : Z)            (* [if (size > k) switch (data[k]) {] *)
  | Return (size_eq : option Z) (cmp : option (Z * string * Z)) (index : Z).
      (* [return (size == n && !memcmp(data + a, "s", len)) ? index : -1;]
         with either test possibly absent *)

Record GenState : Type := mkGen
  { already : Z; prefix : string; out : list Stmt }.

Definition emit (st : GenState) (s : Stmt) : GenState :=
  mkGen (already st) (prefix st) (out st ++ [s]).

(** The first [while] of the loop body: close the switches of the prefix
    that the current name does not share. *)
Fixpoint close_loop (fuel : nat) (name : string) (st : GenState) : GenState :=
  match fuel with
  | O => st
  | S fuel' =>
      if (QString_size name <? QString_size (prefix st))
         || (negb (QString_isEmpty (prefix st))
             && negb (String.eqb (QString_mid (prefix st) 0 (already st - 1))
                                 (QString_mid name 0 (already st - 1))))
      then
        let st := emit st CloseSwitch in
        close_loop fuel' name
          (mkGen (already st - 1) (QString_chop1 (prefix st)) (out st))
      else st
  end.

(** The [if] that follows: a new [case] label in the current switch. *)
Definition case_step (name : string) (st : GenState) : GenState :=
  if negb (QString_isEmpty (prefix st))
     && negb (Ascii.eqb (QString_at (prefix st) (already st - 1))
                        (QString_at name (already st - 1)))
  then
    let st := emit st (CaseLabel (QString_at name (already st - 1))) in
    mkGen (already st)
          (QString_set (prefix st) (already st - 1) (QString_at name (already st - 1)))
          (out st)
  else st.

(** The second [while]: open switches while the next name shares the
    prefix. *)
Fixpoint open_loop (fuel : nat) (name next : string) (st : GenState) : GenState :=
  match fuel with
  | O => st
  | S fuel' =>
      if already st <? QString_size name then
        if negb (String.eqb (QString_mid name 0 (already st))
                            (QString_mid next 0 (already st)))
        then st
        else if QString_size next <=? already st
        then emit st (IfSizeEq (QString_size name))
        else
          let st := emit st (IfSizeGtSwitch (already st)) in
          let st := mkGen (already st + 1)
                          (prefix st ++ String (QString_at name (already st)) EmptyString)
                          (out st) in
          let st := emit st (CaseLabel (QString_at name (already st - 1))) in
          open_loop fuel' name next st
      else st
  end.

(** The tail of the loop body: the [return] statement of the name. *)
Definition return_step (name next : string) (index : Z) (st : GenState) : GenState :=
  let size_eq :=
    if (QString_size name =? already st)
       || negb (String.eqb (QString_mid name 0 (already st))
                           (QString_mid next 0 (already st)))
    then Some (QString_size name)
    else None in
  let cmp :=
    if negb (already st =? QString_size name)
    then Some (already st, QString_mid_end name (already st),
               QString_size name - already st)
    else None in
  emit st (Return size_eq cmp index).

(** One iteration of the [for] loop over [paletteIndices_]. *)
Definition name_step (name : string) (index : Z) (next : string) (st : GenState)
    : GenState :=
  let st := close_loop (S (String.length (prefix st))) name st in
  let st := case_step name st in
  let st := open_loop (S (String.length name)) name next st in
  return_step name next index st.

(** The [for] loop, over the entries in the order the loop visits them
    (from the last key of the map to the first). *)
Fixpoint names_loop (entries : list (string * Z)) (st : GenState) : GenState :=
  match entries with
  | [] => st
  | (name, index) :: rest =>
      let next := match rest with
                  | [] => EmptyString
                  | (n, _) :: _ => n
                  end in
      names_loop rest (name_step name index next st)
  end.

(** The final [while (!prefix.isEmpty())]. *)
Fixpoint final_loop (fuel : nat) (st : GenState) : GenState :=
  match fuel with
  | O => st
  | S fuel' =>
      if negb (QString_isEmpty (prefix st)) then
        let st := emit st CloseSwitch in
        final_loop fuel' (mkGen (already st - 1) (QString_chop1 (prefix st)) (out st))
      else st
  end.

(** The body of the emitted [getPaletteIndex], up to the trailing
    [return -1;]. *)
Definition generate (paletteIndices_ : QMap.t (K:=string) (V:=Z)) : list Stmt :=
  let st := names_loop (rev paletteIndices_) (mkGen 0 EmptyString []) in
  out (final_loop (S (String.length (prefix st))) st).

(** *** Execution of the emitted statements (C++ control flow) *)

(** Code after the [};] that closes the switch we are [depth] levels into. *)
Fixpoint skip_switch (depth : nat) (code : list Stmt) : list Stmt :=
  match code with
  | [] => []
  | CloseSwitch :: rest =>
      match depth with O => rest | S d => skip_switch d rest end
  | IfSizeGtSwitch _ :: rest => skip_switch (S depth) rest
  | _ :: rest => skip_switch depth rest
  end.

(** Jump of a [switch]: the code after the first label of this switch that
    equals [c], or the code after the switch when it has no such label. *)
Fixpoint find_case (c : ascii) (depth : nat) (code : list Stmt) : list Stmt :=
  match code with
  | [] => []
  | CloseSwitch :: rest =>
      match depth with O => rest | S d => find_case c d rest end
  | IfSizeGtSwitch _ :: rest => find_case c (S depth) rest
  | CaseLabel c' :: rest =>
      match depth with
      | O => if Ascii.eqb c c' then rest else find_case c depth rest
      | S _ => find_case c depth rest
      end
  | _ :: rest => find_case c depth rest
  end.

(** [!memcmp(data + a, "s", len)]; reading past the end of the input is
    undefined ([None]). *)
Definition memcmp_eq (input : string) (a : Z) (s : string) (len : Z) : option bool :=
  if QString_size input <? a + len then None
  else Some (String.eqb (substring (Z.to_nat a) (Z.to_nat len) input)
                        (substring 0 (Z.to_nat len) s)).

(** Value of [(size == n && !memcmp(...)) ? index : -1]. *)
Definition eval_return (input : string) (size_eq : option Z)
    (cmp : option (Z * string * Z)) (index : Z) : option Z :=
  let pick (b : bool) := if b then index else -1 in
  match size_eq, cmp with
  | Some n, None => Some (pick (QString_size input =? n))
  | Some n, Some (a, s, len) =>
      if QString_size input =? n
      then option_map pick (memcmp_eq input a s len)
      else Some (-1)
  | None, Some (a, s, len) => option_map pick (memcmp_eq input a s len)
  | None, None => None
  end.

(** Runs the body of [getPaletteIndex] on [input]; running off the end of
    the emitted statements reaches the trailing [return -1;]. *)
Fixpoint exec (fuel : nat) (input : string) (code : list Stmt) : option Z :=
  match fuel with
  | O => None
  | S fuel' =>
      match code with
      | [] => Some (-1)
      | CloseSwitch :: rest => exec fuel' input rest
      | CaseLabel _ :: rest => exec fuel' input rest
      | IfSizeEq n :: Return size_eq cmp index :: rest =>
          if QString_size input =? n
          then eval_return input size_eq cmp index
          else exec fuel' input rest
      | IfSizeEq _ :: _ => None
      | IfSizeGtSwitch k :: rest =>
          if k <? QString_size input
          then exec fuel' input (find_case (QString_at input k) 0 rest)
          else exec fuel' input (skip_switch 0 rest)
      | Return size_eq cmp index :: _ => eval_return input size_eq cmp index
      end
  end.

(** [int getPaletteIndex(QLatin1String name)] as emitted for the given
    [paletteIndices_]. *)
Definition getPaletteIndex (paletteIndices_ : QMap.t (K:=string) (V:=Z))
    (name : string) : option Z :=
  let code := generate paletteIndices_ in
  exec (S (length code)) name code.

End Matcher.

(** ** [Module::enumVariables]

    Modelled from the spec: [Module::enumVariables] (declared with the
    parsed module) visits the ordered variables of the module in
    declaration order; as its callers use it, it stops at the first
    callback that returns [false] and reports whether all returned
    [true]. *)

Fixpoint enumVariables {S : Type}
    (callback : S -> structure.Variable_ -> bool * S)
    (variables : list structure.Variable_) (st : S) : bool * S :=
  match variables with
  | [] => (true, st)
  | v :: rest =>
      let '(ok, st') := callback st v in
      if ok then enumVariables callback rest st' else (false, st')
  end.

(** ** [Generator::writeSetPaletteColor]: the body of [finalize], the
    palette indices and the checksum *)

Module PaletteGen.

Record State : Type := mkState
  { indexInPalette : nat;
    paletteIndices_ : QMap.t (K:=string) (V:=Z);
    computes : list Palette.ComputeCall;
    checksumString : QByteArray }.

Definition init : State := mkState 0 [] [] [].

(** The lambda passed to [enumVariables]. *)
Definition callback (st : State) (variable : structure.Variable_) : bool * State :=
  let name := structure.back (structure.name variable) in
  let index := indexInPalette st in
  let indices := QMap.insert String.compare name (Z.of_nat index) (paletteIndices_ st) in
  let st := mkState (S index) indices (computes st) (checksumString st) in
  if negb (structure.TypeTag_eqb (structure.tag (structure.value variable)) structure.Color)
  then (false, st)
  else
    let color := structure.as_Color (structure.value variable) in
    let fallbackIndex :=
      QMap.value String.compare (colorFallbackName (structure.value variable)) (-1) indices in
    let call :=
      Palette.mkCall index fallbackIndex
        (Palette.mkTemp (structure.data.red color) (structure.data.green color)
                        (structure.data.blue color) (structure.data.alpha color)) in
    let code := default EmptyString (valueAssignmentCode (structure.value variable)) in
    let text := (String "&" name ++ String ":" code)%string in
    (true,
     mkState (S index) indices (computes st ++ [call])
             (checksumString st ++ list_byte_of_string text)).

Definition run (variables : list structure.Variable_) : bool * State :=
  enumVariables callback variables init.

(** [auto count = indexInPalette]. *)
Definition count (variables : list structure.Variable_) : nat :=
  indexInPalette (snd (run variables)).

(** The value [palette::Checksum()] is generated to return. *)
Definition Checksum (variables : list structure.Variable_) : Z :=
  Crc32.hashCrc32 (checksumString (snd (run variables))).

(** The concatenation the specification describes: for every variable, in
    declaration order, ["&" + name + ":" + assignmentLiteral(value)]. *)
Definition checksum_entry (v : structure.Variable_) : string :=
  (String "&" (structure.back (structure.name v)) ++
   String ":" (default EmptyString (valueAssignmentCode (structure.value v))))%string.

Definition checksum_text (variables : list structure.Variable_) : string :=
  fold_right (fun v rest => (checksum_entry v ++ rest)%string) EmptyString variables.

(** Every variable of a palette is a colour. *)
Definition all_colors (variables : list structure.Variable_) : bool :=
  forallb (fun v => structure.TypeTag_eqb (structure.tag (structure.value v)) structure.Color)
          variables.

(** The generated class for a list of palette variables. *)
Definition finalize (variables : list structure.Variable_) : Palette.palette -> Palette.palette :=
  Palette.finalize (computes (snd (run variables))).

Definition getPaletteIndex (variables : list structure.Variable_) : string -> option Z :=
  Matcher.getPaletteIndex (paletteIndices_ (snd (run variables))).

End PaletteGen.

(** ** [Generator::collectUniqueValues] and [writePxValuesInit] *)

Module Collector.

Record State : Type := mkState
  { pxValues_ : QMap.t (K:=Z) (V:=bool);
    fontFamilies_ : QMap.t (K:=string) (V:=Z);
    iconMasks_ : QMap.t (K:=string) (V:=Z);
    fontFamilyIndex : Z;
    iconMaskIndex : Z }.

Definition init : State := mkState [] [] [] 0 0.

Definition insert_px (v : Z) (st : State) : State :=
  mkState (QMap.insert Z.compare v true (pxValues_ st))
          (fontFamilies_ st) (iconMasks_ st) (fontFamilyIndex st) (iconMaskIndex st).

(** The body of the loop over the parts of an icon. *)
Definition collect_part (st : State) (part : structure.monoicon) : State :=
  let st := insert_px (structure.data.x (structure.as_Point (structure.part_offset part))) st in
  let st := insert_px (structure.data.y (structure.as_Point (structure.part_offset part))) st in
  if negb (QMap.contains String.compare (structure.filename part) (iconMasks_ st))
  then mkState (pxValues_ st) (fontFamilies_ st)
               (QMap.insert String.compare (structure.filename part)
                            (iconMaskIndex st + 1) (iconMasks_ st))
               (fontFamilyIndex st) (iconMaskIndex st + 1)
  else st.

(** The [collector] lambda. *)
Fixpoint collector (st : State) (variable : structure.Variable_) {struct variable}
    : bool * State :=
  let value := structure.value variable in
  if negb (isEmpty (structure.copyOf value)) then (true, st)
  else
    match variable with
    | structure.mkVariable _ (structure.mkValue _ d) =>
        match d with
        | structure.DInvalid | structure.DInt _ | structure.DDouble
        | structure.DString _ | structure.DColor _ | structure.DCursor _
        | structure.DAlign _ => (true, st)
        | structure.DPixels v => (true, insert_px v st)
        | structure.DPoint v =>
            (true, insert_px (structure.data.y v) (insert_px (structure.data.x v) st))
        | structure.DSize v =>
            (true, insert_px (structure.data.height v)
                     (insert_px (structure.data.width v) st))
        | structure.DMargins v =>
            (true, insert_px (structure.data.bottom v)
                     (insert_px (structure.data.right v)
                        (insert_px (structure.data.top v)
                           (insert_px (structure.data.left v) st))))
        | structure.DFont v =>
            let st := insert_px (structure.data.font_size v) st in
            if negb (QString_isEmpty (structure.data.family v))
               && negb (QMap.contains String.compare (structure.data.family v)
                                      (fontFamilies_ st))
            then (true,
                  mkState (pxValues_ st)
                          (QMap.insert String.compare (structure.data.family v)
                                       (fontFamilyIndex st + 1) (fontFamilies_ st))
                          (iconMasks_ st) (fontFamilyIndex st + 1) (iconMaskIndex st))
            else (true, st)
        | structure.DIcon parts => (true, fold_left collect_part parts st)
        | structure.DStruct _ fields =>
            match fields with
            | None => (false, st)
            | Some fs =>
                (fix each (fs : list structure.Variable_) (st : State) : bool * State :=
                   match fs with
                   | [] => (true, st)
                   | field :: rest =>
                       let '(ok, st') := collector st field in
                       if ok then each rest st' else (false, st')
                   end) fs st
            end
        end
    end.

(** [bool Generator::collectUniqueValues()]. *)
Definition collectUniqueValues (variables : list structure.Variable_) : bool * State :=
  enumVariables collector variables init.

(** The first loop of [writePxValuesInit]: one line
    [int <pxValueName(key)> = <key>;] per key of [pxValues_]. *)
Definition pxConstants (st : State) : list (string * Z) :=
  map (fun k => (pxValueName k, k)) (QMap.keys (pxValues_ st)).

(** *** Pixel quantities of a module, following the specification: the
    quantities found in Pixels, Point, Size, Margins, Font.size and Icon
    part offsets, recursing through Struct fields, aliases left out. *)

(** The walk over a value tree, given the quantities an icon part
    contributes. *)
Fixpoint pixels_with (part_px : structure.monoicon -> list Z)
    (variable : structure.Variable_) {struct variable} : list Z :=
  match variable with
  | structure.mkVariable _ (structure.mkValue copy d) =>
      if negb (isEmpty copy) then []
      else
        match d with
        | structure.DPixels v => [v]
        | structure.DPoint v => [structure.data.x v; structure.data.y v]
        | structure.DSize v => [structure.data.width v; structure.data.height v]
        | structure.DMargins v =>
            [structure.data.left v; structure.data.top v;
             structure.data.right v; structure.data.bottom v]
        | structure.DFont v => [structure.data.font_size v]
        | structure.DIcon parts => flat_map part_px parts
        | structure.DStruct _ (Some fs) =>
            (fix each (fs : list structure.Variable_) : list Z :=
               match fs with
               | [] => []
               | field :: rest => pixels_with part_px field ++ each rest
               end) fs
        | _ => []
        end
  end.

(** The offset of an icon part, unless the offset is an alias. *)
Definition part_pixels (part : structure.monoicon) : list Z :=
  if negb (isEmpty (structure.copyOf (structure.part_offset part))) then []
  else [structure.data.x (structure.as_Point (structure.part_offset part));
        structure.data.y (structure.as_Point (structure.part_offset part))].

Definition pixels_of : structure.Variable_ -> list Z := pixels_with part_pixels.

Definition module_pixels (variables : list structure.Variable_) : list Z :=
  flat_map pixels_of variables.

(** The same walk with what the collector reads of an icon part: the offset
    it carries, whether or not that offset is an alias. *)
Definition part_pixels_read (part : structure.monoicon) : list Z :=
  [structure.data.x (structure.as_Point (structure.part_offset part));
   structure.data.y (structure.as_Point (structure.part_offset part))].

Definition pixels_read : structure.Variable_ -> list Z := pixels_with part_pixels_read.

Definition module_pixels_read (variables : list structure.Variable_) : list Z :=
  flat_map pixels_read variables.

(** [r] is the outcome of a collection started in [st] over values whose
    pixel quantities are [px]: the keys stay sorted, no key is lost, every
    new key is one of [px], and a successful collection has recorded all of
    [px]. *)
Definition collects (st : State) (r : bool * State) (px : list Z) : Prop :=
  (StronglySorted Z.lt (QMap.keys (pxValues_ st)) ->
   StronglySorted Z.lt (QMap.keys (pxValues_ (snd r)))) /\
  (forall z, In z (QMap.keys (pxValues_ (snd r))) ->
             In z (QMap.keys (pxValues_ st)) \/ In z px) /\
  (forall z, In z (QMap.keys (pxValues_ st)) ->
             In z (QMap.keys (pxValues_ (snd r)))) /\
  (fst r = true -> forall z, In z px -> In z (QMap.keys (pxValues_ (snd r)))).

End Collector.

(** ** Icon mask composition ([iconMaskValuePng]) *)

Module Icon.

(** What the function reads of a [QImage]: whether it is null, its
    dimensions and its pixel format.  Dimensions of a loaded image stay far
    below the range of [int] (Qt refuses images whose byte count does not
    fit an [int]), so the arithmetic on them is exact. *)
Record QImage : Type := mkImage
  { isNull : bool; width : Z; height : Z; format : Z }.

(** [QImage()]. *)
Definition null_image : QImage := mkImage true 0 0 0.

(** [QImage(width, height, format)]: a null image unless both dimensions
    are positive. *)
Definition new_image (w h fmt : Z) : QImage :=
  if (0 <? w) && (0 <? h) then mkImage false w h fmt else null_image.

(** [QImage::scaled(w, h, Qt::IgnoreAspectRatio, Qt::SmoothTransformation)]:
    an image of the requested size; a null image when the source is null or
    the requested size is empty. *)
Definition scaled (img : QImage) (w h : Z) : QImage :=
  if isNull img || (w <=? 0) || (h <=? 0) then null_image
  else mkImage false w h (format img).

(** [QString::split(sep)]. *)
Fixpoint split_acc (sep : ascii) (cur : string) (s : string) : list string :=
  match s with
  | EmptyString => [cur]
  | String c s' =>
      if Ascii.eqb c sep then cur :: split_acc sep EmptyString s'
      else split_acc sep (cur ++ String c EmptyString)%string s'
  end.

Definition split (sep : ascii) (s : string) : list string :=
  split_acc sep EmptyString s.

(** A modifier rewrites the 100% and the 200% image in place. *)
Definition Modifier := QImage -> QImage -> QImage * QImage.

(** A modifier that repaints the two images without resizing them. *)
Definition keeps_size (m : Modifier) : Prop :=
  forall a b : QImage,
    isNull (fst (m a b)) = isNull a /\ width (fst (m a b)) = width a /\
    height (fst (m a b)) = height a /\
    isNull (snd (m a b)) = isNull b /\ width (snd (m a b)) = width b /\
    height (snd (m a b)) = height b.

Section Compose.
(** External collaborators: the pixel-scale function, the modifier
    registry, and the file system the images are read from. *)
Variable pxAdjust : Z -> Z -> Z.
Variable GetModifier : string -> option Modifier.
Variable loadImage : string -> QImage.

(** The loop over the modifier names. *)
Fixpoint apply_modifiers (modifiers : list string) (png100x png200x : QImage)
    : option (QImage * QImage) :=
  match modifiers with
  | [] => Some (png100x, png200x)
  | modifierName :: rest =>
      match GetModifier modifierName with
      | Some modifier =>
          let '(a, b) := modifier png100x png200x in
          apply_modifiers rest a b
      | None => None
      end
  end.

(** The composed canvas of [iconMaskValuePng]; [None] is the empty
    [QByteArray] the function returns on every failure.  The pixels drawn
    on the canvas and its PNG encoding are not modelled. *)
Definition iconMaskValuePng (filepath : string) : option QImage :=
  let pathAndModifiers := split "-"%char filepath in
  let filepath := hd EmptyString pathAndModifiers in
  let modifiers := tl pathAndModifiers in
  let png100x := loadImage (filepath ++ ".png")%string in
  let png200x := loadImage (filepath ++ "@2x.png")%string in
  if isNull png100x then None
  else if isNull png200x then None
  else if negb (format png100x =? format png200x) then None
  else if negb (width png100x * 2 =? width png200x)
          || negb (height png100x * 2 =? height png200x) then None
  else
    match apply_modifiers modifiers png100x png200x with
    | None => None
    | Some (png100x, png200x) =>
        let png125x := scaled png200x (pxAdjust (width png100x) 5)
                                      (pxAdjust (height png100x) 5) in
        let png150x := scaled png200x (pxAdjust (width png100x) 6)
                                      (pxAdjust (height png100x) 6) in
        let composed := new_image (width png200x + width png100x)
                                  (height png200x + height png150x)
                                  (format png100x) in
        if isNull composed then None else Some composed
    end.

(** The height of the 150% variant, as the function computes it. *)
Definition height_150 (png100x png200x : QImage) : Z :=
  height (scaled png200x (pxAdjust (width png100x) 6) (pxAdjust (height png100x) 6)).
End Compose.

End Icon.

(** ** Predicates used in the statements *)

Module PaletteSpec.
Import Palette.

(** The states a palette object can be in: both arrays have [count] cells,
    a slot whose status is not [Initial] holds an object, and a finalised
    palette has no [Initial] slot. *)
Definition wf (count : nat) (p : palette) : Prop :=
  length (_data p) = count /\
  length (_status p) = count /\
  (forall i, status_at p i <> Initial -> is_Some (data_at p i)) /\
  (_ready p = true -> forall i, (i < count)%nat -> status_at p i <> Initial).

(** The body of [finalize] holds one [compute] call per slot, in index
    order, as [writeSetPaletteColor] writes it. *)
Definition calls_ok (count : nat) (computes : list ComputeCall) : Prop :=
  map call_index computes = seq 0 count.

(** The four bytes of one colour in the cache, and the cache of a row of
    colours. *)
Definition channels (c : ColorData) : list byte :=
  [c_red c; c_green c; c_blue c; c_alpha c].

Definition serialize (cs : list ColorData) : QByteArray := flat_map channels cs.

End PaletteSpec.


(** ** Concrete inputs used in the statements below *)

Module Samples.
Import structure.

Definition color_variable (n : string) (r g b a : uchar) (fallback : string)
    : Variable_ :=
  mkVariable [n] (mkValue [] (DColor (data.mkColor r g b a fallback))).

(** [windowBg: #ffffff; windowBgOver: #f1f1f1 | windowBg;] *)
Definition two_colors : list Variable_ :=
  [color_variable "windowBg" Byte.xff Byte.xff Byte.xff Byte.xff "";
   color_variable "windowBgOver" Byte.xf1 Byte.xf1 Byte.xf1 Byte.xff "windowBg"].

(** [windowBg: #ffffff; windowFg: #000000; titleBg: #f3f3f3;] *)
Definition three_colors : list Variable_ :=
  [color_variable "windowBg" Byte.xff Byte.xff Byte.xff Byte.xff "";
   color_variable "windowFg" Byte.x00 Byte.x00 Byte.x00 Byte.xff "";
   color_variable "titleBg" Byte.xf3 Byte.xf3 Byte.xf3 Byte.xff ""].

(** [a: 12px; b: point(12px, -12px); c: a; d: margins(12px, 0px, 12px, 0px);
    o: point(3px, 4px); e: icon {{ "icons/ok", #ffffff, o }};] *)
Definition px_module : list Variable_ :=
  [mkVariable ["a"%string] (mkValue [] (DPixels 12));
   mkVariable ["b"%string] (mkValue [] (DPoint (data.mkPoint 12 (-12))));
   mkVariable ["c"%string] (mkValue ["a"%string] (DPixels 12));
   mkVariable ["d"%string] (mkValue [] (DMargins (data.mkMargins 12 0 12 0)));
   mkVariable ["o"%string] (mkValue [] (DPoint (data.mkPoint 3 4)));
   mkVariable ["e"%string]
     (mkValue []
        (DIcon [mkMonoicon "icons/ok"
                  (mkValue [] (DColor (data.mkColor Byte.xff Byte.xff Byte.xff Byte.xff "")))
                  (mkValue ["o"%string] (DPoint (data.mkPoint 3 4)))]))].

(** A pixel-scale function that rounds to the nearest integer (halves
    up) and keeps the sign: scale 5 is 125%, scale 6 is 150%, scale 7 is
    200%. *)
Definition sample_pxAdjust (value scale : Z) : Z :=
  let a := Z.abs value in
  let r := if scale =? 5 then (5 * a + 2) / 4
           else if scale =? 6 then (3 * a + 1) / 2
           else if scale =? 7 then 2 * a
           else a in
  Z.sgn value * r.

(** A modifier that mirrors both images. *)
Definition sample_flip (a b : Icon.QImage) : Icon.QImage * Icon.QImage := (a, b).

Definition sample_GetModifier (n : string) : option Icon.Modifier :=
  if String.eqb n "flip_horizontal" then Some sample_flip else None.

(** A file system holding a 10x10 icon with its 20x20 double, and a 10x10
    icon whose double is 19x20. *)
Definition sample_loadImage (path : string) : Icon.QImage :=
  if String.eqb path "icons/ok.png" then Icon.mkImage false 10 10 5
  else if String.eqb path "icons/ok@2x.png" then Icon.mkImage false 20 20 5
  else if String.eqb path "icons/bad.png" then Icon.mkImage false 10 10 5
  else if String.eqb path "icons/bad@2x.png" then Icon.mkImage false 19 20 5
  else Icon.null_image.

End Samples.

(** ** Further definitions: notions used in the statements of the second
    part of the properties *)

Module PaletteGenSpec.

(** The name under which a palette variable is registered. *)
Definition var_name (v : structure.Variable_) : string :=
  structure.back (structure.name v).

(** The literal colour handed to [compute] for a palette variable. *)
Definition var_temp (v : structure.Variable_) : Palette.TempColorData :=
  Palette.mkTemp
    (structure.data.red (structure.as_Color (structure.value v)))
    (structure.data.green (structure.as_Color (structure.value v)))
    (structure.data.blue (structure.as_Color (structure.value v)))
    (structure.data.alpha (structure.as_Color (structure.value v))).

(** What the enumeration of [writeSetPaletteColor] has established after
    the variables [vars]: the next index, the index of every name, the
    registered names, and for every variable its [compute] call, whose
    fallback index is the index of the colour the fallback names if that
    colour is declared at or before the variable, and -1 otherwise. *)
Definition resolved (vars : list structure.Variable_) (st : PaletteGen.State) : Prop :=
  PaletteGen.indexInPalette st = length vars /\
  (forall j v, vars !! j = Some v ->
     QMap.value String.compare (var_name v) (-1) (PaletteGen.paletteIndices_ st) =
     Z.of_nat j) /\
  (forall k, In k (QMap.keys (PaletteGen.paletteIndices_ st)) <->
             In k (map var_name vars)) /\
  (forall x, In x (map snd (PaletteGen.paletteIndices_ st)) ->
             0 <= x < Z.of_nat (length vars)) /\
  length (PaletteGen.computes st) = length vars /\
  (forall j v, vars !! j = Some v ->
     exists fb,
       PaletteGen.computes st !! j = Some (Palette.mkCall j fb (var_temp v)) /\
       -1 <= fb <= Z.of_nat j /\
       (forall i u, vars !! i = Some u -> (i <= j)%nat ->
          var_name u = colorFallbackName (structure.value v) -> fb = Z.of_nat i) /\
       ((forall i u, vars !! i = Some u -> (i <= j)%nat ->
           var_name u <> colorFallbackName (structure.value v)) -> fb = -1)).

End PaletteGenSpec.

Module MatcherSpec.
Import Matcher.

(** Well-formedness of emitted matcher code, read from left to right with
    the pending [if (size == n)] as state: a character is only read at a
    position [k >= 0] under [size > k]; every [return] tests the size, by
    itself or through the [if (size == n)] just before it, and its
    [memcmp] covers exactly the characters [a .. n-1] of a name of that
    size; an [if (size == n)] is always followed by such a [return]. *)
Definition step_guard (g : option Z) (s : Stmt) : option (option Z) :=
  match s, g with
  | IfSizeEq n, None => Some (Some n)
  | Return (Some n) None _, None => Some None
  | Return (Some n) (Some (a, _, len)) _, None =>
      if (0 <=? a) && (0 <=? len) && (a + len =? n) then Some None else None
  | Return None (Some (a, _, len)) _, Some n =>
      if (0 <=? a) && (0 <=? len) && (a + len =? n) then Some None else None
  | CloseSwitch, None => Some None
  | CaseLabel _, None => Some None
  | IfSizeGtSwitch k, None => if 0 <=? k then Some None else None
  | _, _ => None
  end.

Fixpoint run_guard (g : option Z) (code : list Stmt) : option (option Z) :=
  match code with
  | [] => Some g
  | s :: rest =>
      match step_guard g s with
      | Some g' => run_guard g' rest
      | None => None
      end
  end.

Definition well_formed (code : list Stmt) : Prop :=
  run_guard None code = Some None.

(** The indices the [return] statements of the code can give. *)
Definition return_indices (code : list Stmt) : list Z :=
  flat_map (fun s => match s with Return _ _ i => [i] | _ => [] end) code.

(** The loop invariant of the generator: [already] is the length of
    [prefix], and the statements written so far are well formed and return
    indices among [idxs] only. *)
Definition gen_inv (idxs : list Z) (st : GenState) : Prop :=
  QString_size (prefix st) = already st /\
  run_guard None (out st) = Some None /\
  incl (return_indices (out st)) idxs.

End MatcherSpec.

(** ** [palette::setColor], both overloads *)

Module PaletteApi.
Import Palette.

(** [bool palette::setColor(QLatin1String name, uchar r, uchar g, uchar b,
    uchar a)]; [None] when the matcher has no defined result. *)
Definition setColor (variables : list structure.Variable_) (p : palette)
    (name : string) (r g b a : uchar) : option (palette * bool) :=
  match PaletteGen.getPaletteIndex variables name with
  | None => None
  | Some index =>
      if 0 <=? index
      then Some (setData p (Z.to_nat index) (Some (mkColorData r g b a)), true)
      else Some (p, false)
  end.

(** [bool palette::setColor(QLatin1String name, QLatin1String from)]. *)
Definition setColor_from (variables : list structure.Variable_) (p : palette)
    (name from : string) : option (palette * bool) :=
  match PaletteGen.getPaletteIndex variables name,
        PaletteGen.getPaletteIndex variables from with
  | Some nameIndex, Some fromIndex =>
      if (0 <=? nameIndex) && (0 <=? fromIndex)
         && Status_eqb (status_at p (Z.to_nat fromIndex)) Loaded
      then Some (setData p (Z.to_nat nameIndex) (data_at p (Z.to_nat fromIndex)), true)
      else Some (p, false)
  | _, _ => None
  end.

End PaletteApi.

(** ** Hexadecimal text ([hexChar], [stringToBinaryArray],
    [paletteColorValue]) *)

Module HexText.

(** The code of a character, as the [uchar] the source reads. *)
Definition code (ch : ascii) : Z := Z.of_N (N_of_ascii ch).

(** The character with a given code ([char] arithmetic, ['0' + ch]). *)
Definition chr (z : Z) : ascii := ascii_of_N (Z.to_N (z mod 256)).

Definition newline : ascii := chr 10.

(** [char hexChar(uchar ch)]. *)
Definition hexChar (ch : Z) : ascii :=
  if ch <? 10 then chr (code "0" + ch)
  else if ch <? 16 then chr (code "a" + (ch - 10))
  else "0"%char.

(** [char hexSecondChar(char ch)]. *)
Definition hexSecondChar (ch : ascii) : ascii := hexChar (Z.land (code ch) 0x0F).

(** [char hexFirstChar(char ch)]. *)
Definition hexFirstChar (ch : ascii) : ascii := hexChar (Z.shiftr (code ch) 4).

(** [QStringList::join(separator)]. *)
Fixpoint join (sep : string) (l : list string) : string :=
  match l with
  | [] => EmptyString
  | [x] => x
  | x :: rest => (x ++ sep ++ join sep rest)%string
  end.

(** The entry written for one byte: ["0x"] and its two digits. *)
Definition byte_entry (ch : ascii) : string :=
  ("0x" ++ String (hexFirstChar ch) (String (hexSecondChar ch) EmptyString))%string.

(** The two lists [stringToBinaryArray] fills. *)
Record BinState : Type := mkBin { rows : list string; chars : list string }.

(** Body of the loop of [stringToBinaryArray]. *)
Definition binary_step (st : BinState) (ch : ascii) : BinState :=
  let st :=
    if (12 <? length (chars st))%nat
    then mkBin (rows st ++ [join ", " (chars st)]) []
    else st in
  mkBin (rows st) (chars st ++ [byte_entry ch]).

(** The rows after the loop and the final [if (!chars.isEmpty())]. *)
Definition binary_rows (str : string) : list string :=
  let st := fold_left binary_step (list_ascii_of_string str) (mkBin [] []) in
  if negb (isEmpty (chars st)) then rows st ++ [join ", " (chars st)] else rows st.

(** [QString stringToBinaryArray(const std::string &str)]. *)
Definition stringToBinaryArray (str : string) : string :=
  let rows := binary_rows str in
  ("{" ++ String (if (1 <? length rows)%nat then newline else " "%char)
                 (join (String "," (String newline EmptyString)) rows) ++ " }")%string.

(** [QChar paletteColorPart(uchar part)]. *)
Definition paletteColorPart (part : Z) : ascii :=
  let part := Z.land part 0x0F in
  if 10 <=? part then chr (code "a" + (part - 10)) else chr (code "0" + part).

Definition uchar_code (b : byte) : Z := Z.of_N (Byte.to_N b).

(** [QString paletteColorComponent(uchar value)]. *)
Definition paletteColorComponent (value : byte) : string :=
  String (paletteColorPart (Z.shiftr (uchar_code value) 4))
         (String (paletteColorPart (uchar_code value)) EmptyString).

(** [QString paletteColorValue(const structure::data::color &value)]. *)
Definition paletteColorValue (value : structure.data.color) : string :=
  let result :=
    (paletteColorComponent (structure.data.red value)
     ++ paletteColorComponent (structure.data.green value)
     ++ paletteColorComponent (structure.data.blue value))%string in
  if negb (uchar_code (structure.data.alpha value) =? 255)
  then (result ++ paletteColorComponent (structure.data.alpha value))%string
  else result.

(** The value of a lower-case hexadecimal digit. *)
Definition hex_digit_value (c : ascii) : option Z :=
  let n := code c in
  if (48 <=? n) && (n <=? 57) then Some (n - 48)
  else if (97 <=? n) && (n <=? 102) then Some (n - 97 + 10)
  else None.

(** The byte two hexadecimal digits denote. *)
Definition hex_pair_value (hi lo : ascii) : option Z :=
  match hex_digit_value hi, hex_digit_value lo with
  | Some h, Some l => Some (16 * h + l)
  | _, _ => None
  end.

End HexText.

(** ** The font family and icon mask tables of the collector *)

Module CollectorSpec.
Import structure.

(** The walk of the collector over a value tree, given the texts a font
    and an icon part contribute: aliases are skipped, struct fields are
    visited in order. *)
Fixpoint texts_with (of_font : data.font -> list string)
    (of_part : monoicon -> list string)
    (variable : Variable_) {struct variable} : list string :=
  match variable with
  | mkVariable _ (mkValue copy d) =>
      if negb (isEmpty copy) then []
      else
        match d with
        | DFont v => of_font v
        | DIcon parts => flat_map of_part parts
        | DStruct _ (Some fs) =>
            (fix each (fs : list Variable_) : list string :=
               match fs with
               | [] => []
               | field :: rest => texts_with of_font of_part field ++ each rest
               end) fs
        | _ => []
        end
  end.

Definition font_family (v : data.font) : list string :=
  if QString_isEmpty (data.family v) then [] else [data.family v].

(** The non-empty font families of a variable, in the order of the walk. *)
Definition families_read : Variable_ -> list string :=
  texts_with font_family (fun _ => []).

(** The icon part file names of a variable, in the order of the walk. *)
Definition masks_read : Variable_ -> list string :=
  texts_with (fun _ => []) (fun part => [filename part]).

(** The position of the first occurrence of [x] in [l] ([length l] when
    there is none). *)
Fixpoint first_index (x : string) (l : list string) : nat :=
  match l with
  | [] => 0%nat
  | y :: l' => if String.eqb x y then 0%nat else S (first_index x l')
  end.

(** A table together with its counter. *)
Definition Table : Type := QMap.t (K:=string) (V:=Z) * Z.

Definition font_table (st : Collector.State) : Table :=
  (Collector.fontFamilies_ st, Collector.fontFamilyIndex st).

Definition icon_table (st : Collector.State) : Table :=
  (Collector.iconMasks_ st, Collector.iconMaskIndex st).

(** [if (!table.contains(name)) table.insert(name, ++index);] *)
Definition register (tb : Table) (name : string) : Table :=
  if negb (QMap.contains String.compare name (fst tb))
  then (QMap.insert String.compare name (snd tb + 1) (fst tb), snd tb + 1)
  else tb.

(** The index a table gives to a name ([0] when it has none). *)
Definition index_of (tb : Table) (name : string) : Z :=
  QMap.value String.compare name 0 (fst tb).

(** [tb] numbers the names of [l] from one, without gaps, in the order of
    their first occurrence. *)
Definition first_seen (l : list string) (tb : Table) : Prop :=
  (forall f, In f (QMap.keys (fst tb)) <-> In f l) /\
  snd tb = Z.of_nat (length (fst tb)) /\
  (forall f, In f l -> 1 <= index_of tb f <= snd tb) /\
  (forall k, 1 <= k <= snd tb -> exists f, In f l /\ index_of tb f = k) /\
  (forall f g, In f l -> In g l ->
     (index_of tb f < index_of tb g <-> (first_index f l < first_index g l)%nat)).

End CollectorSpec.

Module TableSamples.
Import structure.

(** [normalFont: font(13px "Roboto"); boldFont: font(13px bold "Open Sans");
    bigFont: font(15px "Roboto"); defaultFont: font(12px);] *)
Definition two_fonts : list Variable_ :=
  [mkVariable ["normalFont"%string] (mkValue [] (DFont (data.mkFont "Roboto" 13 0)));
   mkVariable ["boldFont"%string] (mkValue [] (DFont (data.mkFont "Open Sans" 13 1)));
   mkVariable ["bigFont"%string] (mkValue [] (DFont (data.mkFont "Roboto" 15 0)));
   mkVariable ["defaultFont"%string] (mkValue [] (DFont (data.mkFont "" 12 0)))].

Definition white : Value :=
  mkValue [] (DColor (data.mkColor Byte.xff Byte.xff Byte.xff Byte.xff "")).

Definition origin : Value := mkValue [] (DPoint (data.mkPoint 0 0)).

(** [send: icon {{ "icons/send", #ffffff }, { "icons/arrow", #ffffff }};
    back: icon {{ "icons/arrow", #ffffff }};] *)
Definition two_icons : list Variable_ :=
  [mkVariable ["send"%string]
     (mkValue [] (DIcon [mkMonoicon "icons/send" white origin;
                         mkMonoicon "icons/arrow" white origin]));
   mkVariable ["back"%string]
     (mkValue [] (DIcon [mkMonoicon "icons/arrow" white origin]))].

End TableSamples.

(** ** [stringToEncodedString]: a text as a C++ string literal *)

Module Encoded.
Import HexText.

Definition quote : ascii := "034"%char.
Definition backslash : ascii := "092"%char.

(** [lineBreak]: a backslash and a line feed. *)
Definition lineBreak : string := String backslash (String newline EmptyString).

(** The locals of [stringToEncodedString]. *)
Record EncState : Type := mkEnc
  { result : string;
    writingHexEscapedCharacters : bool;
    startOnNewLine : bool;
    lastCutSize : Z }.

(** [if (result.size() - lastCutSize > 80) { ... }] *)
Definition cut (st : EncState) : EncState :=
  if 80 <? QString_size (result st) - lastCutSize st
  then mkEnc (result st ++ lineBreak) (writingHexEscapedCharacters st) true
             (QString_size (result st ++ lineBreak))
  else st.

(** [writingHexEscapedCharacters = hex; result.append(text);] *)
Definition put (st : EncState) (hex : bool) (text : string) : EncState :=
  mkEnc (result st ++ text) hex (startOnNewLine st) (lastCutSize st).

(** Body of the loop of [stringToEncodedString]. *)
Definition encode_step (st : EncState) (ch : ascii) : EncState :=
  let st := cut st in
  let c := code ch in
  if c =? 10 then put st false (String backslash "n")
  else if c =? 9 then put st false (String backslash "t")
  else if (c =? 34) || (c =? 92) then put st false (String backslash (String ch EmptyString))
  else if (c <? 32) || (127 <? c) then
    put st true (String backslash
                   (String "x" (String (hexFirstChar ch)
                                  (String (hexSecondChar ch) EmptyString))))
  else
    let st :=
      if writingHexEscapedCharacters st
      then put st false (String quote (String quote EmptyString))
      else st in
    put st (writingHexEscapedCharacters st) (String ch EmptyString).

Definition encode_loop (str : string) : EncState :=
  fold_left encode_step (list_ascii_of_string str) (mkEnc EmptyString false false 0).

(** [QString stringToEncodedString(const std::string &str)]. *)
Definition stringToEncodedString (str : string) : string :=
  let st := encode_loop str in
  String quote ((if startOnNewLine st then lineBreak else EmptyString)
                ++ result st ++ String quote EmptyString).

End Encoded.

(** *** How a C++ compiler reads a string literal

    The reference against which the encoder is checked: in a first pass
    every backslash directly followed by a line feed is deleted (line
    splicing); then the text is read as a sequence of adjacent string
    literals, whose contents are concatenated.  Inside a literal a
    backslash followed by n, t, a double quote or a backslash stands for
    one character, a backslash followed by x takes the longest run of
    hexadecimal digits that follows, which must not exceed 255, and a line
    feed is not allowed. *)

Module CLiteral.
Import HexText Encoded.

Fixpoint splice (s : string) : string :=
  match s with
  | EmptyString => EmptyString
  | String c tl =>
      match tl with
      | EmptyString => String c EmptyString
      | String d rest =>
          if Ascii.eqb c backslash && Ascii.eqb d newline
          then splice rest
          else String c (splice tl)
      end
  end.

Definition xdigit_value (c : ascii) : option Z :=
  let n := code c in
  if (48 <=? n) && (n <=? 57) then Some (n - 48)
  else if (97 <=? n) && (n <=? 102) then Some (n - 87)
  else if (65 <=? n) && (n <=? 70) then Some (n - 55)
  else None.

Inductive Mode : Type :=
  | Start                   (* before the first literal *)
  | Inside                  (* in a literal *)
  | Esc                     (* after a backslash *)
  | Hex (v : option Z)      (* in a [\x] escape, with the digits read so far *)
  | Between.                (* after a closing quote *)

(** A character read in a literal, outside of an escape sequence. *)
Definition inside_step (c : ascii) (acc : list Z) : option (Mode * list Z) :=
  if code c =? 34 then Some (Between, acc)
  else if code c =? 92 then Some (Esc, acc)
  else if code c =? 10 then None
  else Some (Inside, acc ++ [code c]).

Definition step (st : Mode * list Z) (c : ascii) : option (Mode * list Z) :=
  let '(m, acc) := st in
  match m with
  | Start | Between => if code c =? 34 then Some (Inside, acc) else None
  | Inside => inside_step c acc
  | Esc =>
      if code c =? 110 then Some (Inside, acc ++ [10])
      else if code c =? 116 then Some (Inside, acc ++ [9])
      else if code c =? 34 then Some (Inside, acc ++ [34])
      else if code c =? 92 then Some (Inside, acc ++ [92])
      else if code c =? 120 then Some (Hex None, acc)
      else None
  | Hex v =>
      match xdigit_value c with
      | Some d => Some (Hex (Some (16 * default 0 v + d)), acc)
      | None =>
          match v with
          | Some z => if z <=? 255 then inside_step c (acc ++ [z]) else None
          | None => None
          end
      end
  end.

Fixpoint run (st : Mode * list Z) (s : string) : option (Mode * list Z) :=
  match s with
  | EmptyString => Some st
  | String c rest =>
      match step st c with
      | Some st' => run st' rest
      | None => None
      end
  end.

(** The character codes a text denotes as a string literal, when it is
    one. *)
Definition read_literal (text : string) : option (list Z) :=
  match run (Start, []) (splice text) with
  | Some (Between, acc) => Some acc
  | _ => None
  end.

(** The next character, if any, is not a line feed. *)
Definition no_newline_head (s : string) : Prop :=
  match s with
  | EmptyString => True
  | String c _ => c <> newline
  end.

Definition no_newline (s : string) : Prop :=
  forall c, In c (list_ascii_of_string s) -> c <> newline.

(** The reader has consumed a text that denotes [codes] so far and is
    ready for the next token: in a literal, or at the end of a [\x]
    escape whose value is the last of [codes]. *)
Definition ready (hex : bool) (st : Mode * list Z) (codes : list Z) : Prop :=
  if hex
  then exists v, 0 <= v <= 255 /\ fst st = Hex (Some v) /\ snd st ++ [v] = codes
  else st = (Inside, codes).

(** The invariant of the encoder loop: without its line breaks the result
    is [clean], and the reader is ready after the opening quote and
    [clean], having read the input so far. *)
Definition enc_inv (input : list ascii) (st : EncState) : Prop :=
  exists clean rd,
    (forall X, no_newline_head X ->
       splice (result st ++ X) = (clean ++ splice X)%string) /\
    run (Start, []) (String quote clean) = Some rd /\
    ready (writingHexEscapedCharacters st) rd (map code input).

End CLiteral.

(** ** [Generator::writePxValuesInit] and the [initPxValues] it writes *)

Module PxInit.

(** One [case <label>: <name> = <value>; ... break;] of the switch. *)
Record Case : Type := mkCase { label : string; body : list (string * Z) }.

(** What is written: the definitions [int <name> = <value>;] and the
    cases of the switch of [initPxValues]. *)
Record Source : Type := mkSource
  { declarations : list (string * Z); cases : list Case }.

Section Scales.
(** [scales], [scaleNames] and [structure::data::pxAdjust] are defined
    outside of this file. *)
Variable scales : list Z.
Variable scaleNames : list string.
Variable pxAdjust : Z -> Z -> Z.

(** The inner loop: an assignment for every key whose adjusted value
    differs from the key. *)
Definition case_body (keys : list Z) (scale : Z) : list (string * Z) :=
  flat_map (fun value =>
              let adjusted := pxAdjust value scale in
              if negb (adjusted =? value)
              then [(pxValueName value, adjusted)]
              else []) keys.

(** The outer loop over the indices [idxs]; [None] when [scaleNames.at(i)]
    or [scales.at(i)] is out of range. *)
Fixpoint cases_from (keys : list Z) (idxs : list nat) : option (list Case) :=
  match idxs with
  | [] => Some []
  | i :: rest =>
      match scaleNames !! i, scales !! i with
      | Some n, Some scale =>
          match cases_from keys rest with
          | Some cs => Some (mkCase n (case_body keys scale) :: cs)
          | None => None
          end
      | _, _ => None
      end
  end.

(** [bool Generator::writePxValuesInit()]: [Some None] when nothing is
    written. *)
Definition writePxValuesInit (st : Collector.State) : option (option Source) :=
  if isEmpty (Collector.pxValues_ st) then Some None
  else
    match cases_from (QMap.keys (Collector.pxValues_ st))
                     (seq 1 (length scales - 1)) with
    | Some cs => Some (Some (mkSource (Collector.pxConstants st) cs))
    | None => None
    end.

End Scales.

(** The written program at run time: the global [int]s as a store. *)
Definition Store : Type := list (string * Z).

Fixpoint get (name : string) (s : Store) : option Z :=
  match s with
  | [] => None
  | (n, v) :: rest => if String.eqb n name then Some v else get name rest
  end.

Definition set (s : Store) (a : string * Z) : Store :=
  map (fun d => if String.eqb (fst d) (fst a) then (fst d, snd a) else d) s.

(** [void initPxValues()], with the answers of [cRetina()] and
    [cScale()]. *)
Definition initPxValues (src : Source) (cRetina : bool) (cScale : string)
    (s : Store) : Store :=
  if cRetina then s
  else
    match find (fun c => String.eqb (label c) cScale) (cases src) with
    | Some c => fold_left set (body c) s
    | None => s
    end.

End PxInit.

Module PxSamples.

Definition scales : list Z := [4; 5; 6; 7].

Definition scaleNames : list string :=
  ["dbisOne"; "dbisOneAndQuarter"; "dbisOneAndHalf"; "dbisTwo"]%string.

Definition collected : Collector.State :=
  snd (Collector.collectUniqueValues Samples.px_module).

(** What [writePxValuesInit] writes for the sample module. *)
Definition written : PxInit.Source :=
  match PxInit.writePxValuesInit scales scaleNames Samples.sample_pxAdjust collected with
  | Some (Some src) => src
  | _ => PxInit.mkSource [] []
  end.

End PxSamples.

(** ** [Generator::writeFontFamiliesInit] *)

Module FontInit.

(** The variable [font<index>index]. *)
Definition font_variable (familyIndex : Z) : string :=
  ("font" ++ QString_number familyIndex ++ "index")%string.

(** What is written: the variables defined ([int font<k>index;]) and, in
    [initFontFamilies], the assignments
    [font<k>index = style::internal::registerFontFamily(<literal>);]. *)
Record Source : Type := mkSource
  { variables_ : list string;
    registrations : list (string * string) }.

(** [bool Generator::writeFontFamiliesInit()]: [None] when nothing is
    written. *)
Definition writeFontFamiliesInit (st : Collector.State) : option Source :=
  if isEmpty (Collector.fontFamilies_ st) then None
  else
    Some (mkSource
            (map (fun e => font_variable (snd e)) (Collector.fontFamilies_ st))
            (map (fun e => (font_variable (snd e),
                            Encoded.stringToEncodedString (fst e)))
                 (Collector.fontFamilies_ st))).

End FontInit.

Module FontSamples.

(** What [writeFontFamiliesInit] writes for the sample fonts. *)
Definition written : FontInit.Source :=
  match FontInit.writeFontFamiliesInit
          (snd (Collector.collectUniqueValues TableSamples.two_fonts)) with
  | Some src => src
  | None => FontInit.mkSource [] []
  end.

End FontSamples.

(** ** [iconMaskValueSize]: the mask of a generated rectangle *)

Module IconSize.

(** The byte with the low eight bits of [z]. *)
Definition byte_of (z : Z) : byte :=
  default Byte.x00 (Byte.of_N (Z.to_N (z mod 256))).

(** [stream << qint32(v)] on a [QDataStream] in its default, big-endian
    byte order: four bytes, the most significant first. *)
Definition qint32_bytes (v : Z) : list byte :=
  let u := v mod 2 ^ 32 in
  [byte_of (Z.shiftr u 24); byte_of (Z.shiftr u 16); byte_of (Z.shiftr u 8); byte_of u].

(** [QByteArray iconMaskValueSize(int width, int height)]. *)
Definition iconMaskValueSize (width height : Z) : QByteArray :=
  list_byte_of_string "GENERATE:" ++ list_byte_of_string "SIZE:"
  ++ qint32_bytes width ++ qint32_bytes height.

(** [stream >> value] for a [qint32]: the big-endian number of the four
    bytes, as a signed integer. *)
Definition read_qint32 (bs : list byte) : Z :=
  int32 (fold_left (fun acc b => acc * 256 + Crc32.byte_val b) bs 0).

End IconSize.

(** *** The lines of a text *)

Module Lines.
Import HexText Encoded.

(** One pass over a text: the length of the line being read and the
    length of the longest line completed so far. *)
Fixpoint scan (cur longest : nat) (s : string) : nat * nat :=
  match s with
  | EmptyString => (cur, longest)
  | String c rest =>
      if Ascii.eqb c newline
      then scan 0 (Nat.max longest cur) rest
      else scan (S cur) longest rest
  end.

(** The length of the longest line of a text (line feeds not counted). *)
Definition longest_line (s : string) : nat :=
  Nat.max (fst (scan 0 0 s)) (snd (scan 0 0 s)).

(** The invariant of the encoder loop about line lengths: the line being
    written has [result.size() - lastCutSize] characters, at most
    [bound]; no earlier line has more than 85; and before the first cut
    the result has no line feed. *)
Definition line_inv (bound : nat) (st : EncState) : Prop :=
  exists cur longest,
    scan 0 0 (result st) = (cur, longest) /\
    Z.of_nat cur = QString_size (result st) - lastCutSize st /\
    (cur <= bound)%nat /\ (longest <= 85)%nat /\
    (startOnNewLine st = false -> CLiteral.no_newline (result st)).

End Lines.

(** ** Two assignments in a row *)

Module AssignSamples.
Import Palette.

(** The class generated for
    [windowBg: #ffffff; windowBgOver: #f1f1f1 | windowBg;]. *)
Definition count : nat := PaletteGen.count Samples.two_colors.

Definition computes : list ComputeCall :=
  PaletteGen.computes (snd (PaletteGen.run Samples.two_colors)).

(** [palette a; a.load(cache);] with the cache 01 02 03 04 05 06 07 08. *)
Definition loaded : palette :=
  fst (load count (fresh count)
         [Byte.x01; Byte.x02; Byte.x03; Byte.x04;
          Byte.x05; Byte.x06; Byte.x07; Byte.x08]).

(** [palette d; d = a;] *)
Definition assigned : palette :=
  operator_assign count computes (fresh count) loaded.

(** [d = palette();] *)
Definition emptied : palette :=
  operator_assign count computes assigned (fresh count).

End AssignSamples.

(** * Properties *)

(** ** The palette class *)

Module PaletteFacts.
Import Palette PaletteSpec.
Local Open Scope nat_scope.

Ltac unf :=
  unfold status_at, data_at, construct_at, assign_at, destroy_at, set_status,
         set_ready in *; simpl in *.

Lemma Status_eqb_eq (x y : Status) : Status_eqb x y = true <-> x = y.
Proof. destruct x, y; simpl; split; congruence. Qed.

Lemma Status_eqb_neq (x y : Status) : Status_eqb x y = false <-> x <> y.
Proof. destruct x, y; simpl; split; congruence. Qed.

Lemma status_at_insert_eq (p : palette) (i : nat) (s : Status) :
  (i < length (_status p))%nat -> status_at (set_status p i s) i = s.
Proof.
  intros Hi. unfold status_at, set_status; simpl.
  by rewrite list_lookup_insert_eq.
Qed.

Lemma status_at_insert_ne (p : palette) (i j : nat) (s : Status) :
  i <> j -> status_at (set_status p i s) j = status_at p j.
Proof.
  intros Hij. unfold status_at, set_status; simpl.
  by rewrite list_lookup_insert_ne.
Qed.

(** [compute] leaves alone every slot other than [index]. *)
Lemma compute_other (p : palette) (index : nat) (fb : Z) (v : TempColorData) (i : nat) :
  i <> index ->
  status_at (compute p index fb v) i = status_at p i /\
  data_at (compute p index fb v) i = data_at p i.
Proof.
  intros Hne. unfold compute.
  destruct (Status_eqb (status_at p index) Initial); [|done].
  destruct (_ && _); unfold status_at, data_at, construct_at, set_status; simpl;
    rewrite !list_lookup_insert_ne by congruence; done.
Qed.

(** [compute] leaves alone every slot whose status is not [Initial]. *)
Lemma compute_keeps (p : palette) (index : nat) (fb : Z) (v : TempColorData) (i : nat) :
  status_at p i <> Initial ->
  status_at (compute p index fb v) i = status_at p i /\
  data_at (compute p index fb v) i = data_at p i.
Proof.
  intros Hst. destruct (decide (i = index)) as [->|Hne].
  - unfold compute. apply Status_eqb_neq in Hst. by rewrite Hst.
  - by apply compute_other.
Qed.

Lemma compute_ready (p : palette) (index : nat) (fb : Z) (v : TempColorData) :
  _ready (compute p index fb v) = _ready p.
Proof.
  unfold compute. destruct (Status_eqb _ _); [|done]. by destruct (_ && _).
Qed.

Lemma compute_lengths (p : palette) (index : nat) (fb : Z) (v : TempColorData) :
  length (_data (compute p index fb v)) = length (_data p) /\
  length (_status (compute p index fb v)) = length (_status p).
Proof.
  unfold compute. destruct (Status_eqb _ _); [|done].
  destruct (_ && _); simpl; by rewrite !length_insert.
Qed.

Lemma run_calls_cons (c : ComputeCall) (cs : list ComputeCall) (p : palette) :
  run_calls (c :: cs) p =
  run_calls cs (compute p (call_index c) (call_fallbackIndex c) (call_value c)).
Proof. reflexivity. Qed.

Lemma run_calls_keeps (computes : list ComputeCall) (p : palette) (i : nat) :
  status_at p i <> Initial ->
  status_at (run_calls computes p) i = status_at p i /\
  data_at (run_calls computes p) i = data_at p i.
Proof.
  revert p. induction computes as [|c cs IH]; intros p Hst; [done|].
  rewrite run_calls_cons.
  destruct (compute_keeps p (call_index c) (call_fallbackIndex c) (call_value c) i Hst)
    as [Hs Hd].
  destruct (IH (compute p (call_index c) (call_fallbackIndex c) (call_value c)))
    as [Hs' Hd']; [congruence|].
  split; congruence.
Qed.

Lemma run_calls_ready (computes : list ComputeCall) (p : palette) :
  _ready (run_calls computes p) = _ready p.
Proof.
  revert p. induction computes as [|c cs IH]; intros p; [done|].
  rewrite run_calls_cons, IH. apply compute_ready.
Qed.

Lemma run_calls_lengths (computes : list ComputeCall) (p : palette) :
  length (_data (run_calls computes p)) = length (_data p) /\
  length (_status (run_calls computes p)) = length (_status p).
Proof.
  revert p. induction computes as [|c cs IH]; intros p; [done|].
  rewrite run_calls_cons.
  destruct (IH (compute p (call_index c) (call_fallbackIndex c) (call_value c))) as [-> ->].
  apply compute_lengths.
Qed.

Lemma finalize_unfold (computes : list ComputeCall) (p : palette) :
  finalize computes p =
  if _ready p then p else run_calls computes (set_ready p true).
Proof. reflexivity. Qed.

Lemma finalize_ready (computes : list ComputeCall) (p : palette) :
  _ready (finalize computes p) = true.
Proof.
  rewrite finalize_unfold. destruct (_ready p) eqn:E; [done|].
  by rewrite run_calls_ready.
Qed.

Lemma finalize_keeps (computes : list ComputeCall) (p : palette) (i : nat) :
  status_at p i <> Initial ->
  status_at (finalize computes p) i = status_at p i /\
  data_at (finalize computes p) i = data_at p i.
Proof.
  intros Hst. rewrite finalize_unfold. destruct (_ready p); [done|].
  by apply (run_calls_keeps computes (set_ready p true) i).
Qed.

(** C5. Calling [finalize] a second time changes nothing at all (the state
    after the second call is the state after the first), and [finalize]
    leaves both the status and the value of every [Loaded] slot as they
    were. *)
Theorem finalize_idempotent (computes : list ComputeCall) (p : palette) :
  finalize computes (finalize computes p) = finalize computes p /\
  (forall i, status_at p i = Loaded ->
             status_at (finalize computes p) i = Loaded /\
             data_at (finalize computes p) i = data_at p i).
Proof.
  split.
  - rewrite (finalize_unfold computes (finalize computes p)).
    by rewrite finalize_ready.
  - intros i Hi.
    destruct (finalize_keeps computes p i) as [Hs Hd]; [congruence|].
    split; congruence.
Qed.

Lemma finalize_idempotent_witness :
  status_at
    (finalize [mkCall 0 (-1) (mkTemp Byte.xff Byte.xff Byte.xff Byte.xff)]
              (mkPalette [Some (mkColorData Byte.x01 Byte.x02 Byte.x03 Byte.x04)]
                         [Loaded] false)) 0 = Loaded /\
  data_at
    (finalize [mkCall 0 (-1) (mkTemp Byte.xff Byte.xff Byte.xff Byte.xff)]
              (mkPalette [Some (mkColorData Byte.x01 Byte.x02 Byte.x03 Byte.x04)]
                         [Loaded] false)) 0 =
  Some (mkColorData Byte.x01 Byte.x02 Byte.x03 Byte.x04).
Proof.
  apply (proj2 (finalize_idempotent
                  [mkCall 0 (-1) (mkTemp Byte.xff Byte.xff Byte.xff Byte.xff)]
                  (mkPalette [Some (mkColorData Byte.x01 Byte.x02 Byte.x03 Byte.x04)]
                             [Loaded] false)) 0).
  reflexivity.
Defined.

(** *** [setData] and [load] *)

Lemma setData_status (p : palette) (i : nat) (v : option ColorData) :
  i < length (_status p) -> status_at (setData p i v) i = Loaded.
Proof.
  intros Hi. unfold setData.
  destruct (Status_eqb _ _); unf; by rewrite list_lookup_insert_eq.
Qed.

Lemma setData_data (p : palette) (i : nat) (v : option ColorData) :
  i < length (_data p) -> data_at (setData p i v) i = v.
Proof.
  intros Hi. unfold setData.
  destruct (Status_eqb _ _); unf; by rewrite list_lookup_insert_eq.
Qed.

Lemma setData_other (p : palette) (i j : nat) (v : option ColorData) :
  i <> j ->
  status_at (setData p i v) j = status_at p j /\
  data_at (setData p i v) j = data_at p j.
Proof.
  intros Hij. unfold setData.
  destruct (Status_eqb _ _); unf; by rewrite !list_lookup_insert_ne.
Qed.

Lemma setData_shape (p : palette) (i : nat) (v : option ColorData) :
  length (_data (setData p i v)) = length (_data p) /\
  length (_status (setData p i v)) = length (_status p) /\
  _ready (setData p i v) = _ready p.
Proof.
  unfold setData. destruct (Status_eqb _ _); unf; by rewrite !length_insert.
Qed.


Lemma load_loop_snoc (cache : QByteArray) (l : list nat) (x : nat) (p : palette) :
  load_loop cache (l ++ [x]) p =
  setData (load_loop cache l p) x (Some (cached_color cache x)).
Proof. unfold load_loop. by rewrite fold_left_app. Qed.

Lemma load_loop_shape (cache : QByteArray) (l : list nat) (p : palette) :
  length (_data (load_loop cache l p)) = length (_data p) /\
  length (_status (load_loop cache l p)) = length (_status p) /\
  _ready (load_loop cache l p) = _ready p.
Proof.
  induction l as [|x l IH] using rev_ind; [done|].
  rewrite load_loop_snoc.
  destruct (setData_shape (load_loop cache l p) x (Some (cached_color cache x)))
    as (-> & -> & ->).
  exact IH.
Qed.

Lemma load_loop_written (cache : QByteArray) (l : list nat) (p : palette) (i : nat) :
  In i l -> i < length (_status p) -> i < length (_data p) ->
  status_at (load_loop cache l p) i = Loaded /\
  data_at (load_loop cache l p) i = Some (cached_color cache i).
Proof.
  intros Hin Hs Hd.
  induction l as [|x l IH] using rev_ind; [done|].
  rewrite load_loop_snoc.
  destruct (load_loop_shape cache l p) as (Ld & Ls & _).
  destruct (decide (x = i)) as [->|Hne].
  - split; [apply setData_status | apply setData_data]; lia.
  - destruct (setData_other (load_loop cache l p) x i (Some (cached_color cache x)) Hne)
      as [-> ->].
    apply IH. apply in_app_or in Hin. destruct Hin as [|[|[]]]; [done|congruence].
Qed.

Lemma load_loop_untouched (cache : QByteArray) (l : list nat) (p : palette) (i : nat) :
  ~ In i l ->
  status_at (load_loop cache l p) i = status_at p i /\
  data_at (load_loop cache l p) i = data_at p i.
Proof.
  intros Hin.
  induction l as [|x l IH] using rev_ind; [done|].
  rewrite load_loop_snoc.
  assert (x <> i) as Hne by (intros ->; apply Hin, in_or_app; right; by left).
  destruct (setData_other (load_loop cache l p) x i (Some (cached_color cache x)) Hne)
    as [-> ->].
  apply IH. intros H. apply Hin, in_or_app. by left.
Qed.

Lemma load_unfold (count : nat) (p : palette) (cache : QByteArray) :
  load count p cache =
  if negb (Nat.eqb (length cache) (count * 4)) then (p, false)
  else (load_loop cache (seq 0 count) p, true).
Proof. reflexivity. Qed.

(** C4. [load] given a buffer whose length is not [4 * count] returns
    [false] and hands back the very state it was given: no slot value, no
    slot status and no flag has changed. *)
Theorem load_rejects_bad_length (count : nat) (p : palette) (cache : QByteArray) :
  length cache <> count * 4 ->
  load count p cache = (p, false).
Proof.
  intros Hlen. rewrite load_unfold.
  destruct (Nat.eqb_spec (length cache) (count * 4)); [done|reflexivity].
Qed.

Lemma load_rejects_bad_length_witness :
  length (repeat Byte.x2a 13) <> 3 * 4 /\
  load 3 (fresh 3) (repeat Byte.x2a 13) = (fresh 3, false).
Proof.
  split; [simpl; lia|].
  apply (load_rejects_bad_length 3 (fresh 3) (repeat Byte.x2a 13)). simpl. lia.
Defined.

(** C10. After a [load] that returned [true], every one of the [count]
    slots has status [Loaded] and holds the colour read from the cache,
    whatever the status of the slot was before and whether or not the
    palette had been finalised; [setData] marks the slot it writes
    [Loaded] whatever its former status, and the written cell holds an
    object afterwards. *)
Theorem load_marks_all_loaded (count : nat) (p p' : palette) (cache : QByteArray) :
  length (_data p) = count ->
  length (_status p) = count ->
  load count p cache = (p', true) ->
  (forall i, i < count ->
     status_at p' i = Loaded /\ data_at p' i = Some (cached_color cache i)) /\
  (forall (q : palette) (i : nat) (c : ColorData),
     i < length (_status q) -> i < length (_data q) ->
     status_at (setData q i (Some c)) i = Loaded /\
     data_at (setData q i (Some c)) i = Some c).
Proof.
  intros Hd Hs Hload. split.
  - rewrite load_unfold in Hload.
    destruct (negb _); [discriminate|].
    injection Hload as <-. intros i Hi.
    apply load_loop_written; [|lia..].
    apply in_seq. lia.
  - intros q i c Hi Hi'. split; [by apply setData_status | by apply setData_data].
Qed.

Lemma load_marks_all_loaded_witness :
  status_at
    (fst (load 2 (mkPalette [Some (mkColorData Byte.x01 Byte.x02 Byte.x03 Byte.x04); None]
                            [Created; Initial] true)
                 [Byte.x0a; Byte.x0b; Byte.x0c; Byte.x0d;
                  Byte.x14; Byte.x15; Byte.x16; Byte.x17])) 1 = Loaded.
Proof.
  apply (proj1 (load_marks_all_loaded 2
           (mkPalette [Some (mkColorData Byte.x01 Byte.x02 Byte.x03 Byte.x04); None]
                      [Created; Initial] true) _
           [Byte.x0a; Byte.x0b; Byte.x0c; Byte.x0d;
            Byte.x14; Byte.x15; Byte.x16; Byte.x17]
           eq_refl eq_refl eq_refl) 1).
  lia.
Defined.

(** *** [finalize] computes every slot *)

Lemma run_calls_app (l1 l2 : list ComputeCall) (p : palette) :
  run_calls (l1 ++ l2) p = run_calls l2 (run_calls l1 p).
Proof. unfold run_calls. apply fold_left_app. Qed.

Lemma compute_sets (p : palette) (index : nat) (fb : Z) (v : TempColorData) :
  index < length (_status p) ->
  status_at (compute p index fb v) index <> Initial.
Proof.
  intros Hi. unfold compute.
  destruct (Status_eqb (status_at p index) Initial) eqn:E.
  - destruct (_ && _); unf; by rewrite list_lookup_insert_eq.
  - by apply Status_eqb_neq.
Qed.

Lemma run_calls_all_computed (count : nat) (computes : list ComputeCall)
    (p : palette) (i : nat) :
  calls_ok count computes -> length (_status p) = count -> i < count ->
  status_at (run_calls computes p) i <> Initial.
Proof.
  intros Hok Hlen Hi.
  assert (In i (map call_index computes)) as Hin.
  { rewrite Hok. apply in_seq. lia. }
  apply in_map_iff in Hin as (c & Hc & Hin).
  apply in_split in Hin as (l1 & l2 & ->).
  rewrite run_calls_app, run_calls_cons.
  destruct (run_calls_lengths l1 p) as [_ Hl1].
  pose proof (compute_sets (run_calls l1 p) (call_index c) (call_fallbackIndex c)
                (call_value c)) as Hset.
  rewrite Hc in *.
  destruct (run_calls_keeps l2
              (compute (run_calls l1 p) i (call_fallbackIndex c) (call_value c)) i)
    as [-> _]; apply Hset; lia.
Qed.

(** *** The invariant [wf] is kept by the operations *)

Lemma compute_cells (p : palette) (index : nat) (fb : Z) (v : TempColorData) :
  length (_data p) = length (_status p) ->
  (forall i, status_at p i <> Initial -> is_Some (data_at p i)) ->
  forall i, status_at (compute p index fb v) i <> Initial ->
            is_Some (data_at (compute p index fb v) i).
Proof.
  intros Hlen Hinv i Hst.
  destruct (decide (i = index)) as [->|Hne].
  2:{ destruct (compute_other p index fb v i Hne) as [Hs Hd].
      rewrite Hd. apply Hinv. congruence. }
  revert Hst. unfold compute.
  destruct (Status_eqb (status_at p index) Initial) eqn:E; [|apply Hinv].
  apply Status_eqb_eq in E.
  assert (index < length (_status p) \/ length (_status p) <= index) as [Hlt|Hge] by lia.
  - destruct (0 <=? fb)%Z eqn:Hfb; simpl.
    + destruct (Status_eqb (status_at p (Z.to_nat fb)) Initial) eqn:E2; simpl; intros _.
      * unf. rewrite list_lookup_insert_eq by lia. done.
      * apply Status_eqb_neq in E2.
        assert (Z.to_nat fb <> index) as Hne by congruence.
        specialize (Hinv _ E2).
        unf. rewrite list_lookup_insert_eq by lia. done.
    + intros _. unf. rewrite list_lookup_insert_eq by lia. done.
  - intros Hst. exfalso. apply Hst. clear Hst.
    destruct (_ && _); unf; rewrite list_insert_ge by lia;
      by rewrite (lookup_ge_None_2 _ _ Hge).
Qed.

Lemma run_calls_cells (computes : list ComputeCall) (p : palette) :
  length (_data p) = length (_status p) ->
  (forall i, status_at p i <> Initial -> is_Some (data_at p i)) ->
  forall i, status_at (run_calls computes p) i <> Initial ->
            is_Some (data_at (run_calls computes p) i).
Proof.
  revert p. induction computes as [|c cs IH]; intros p Hlen Hinv; [done|].
  rewrite run_calls_cons. apply IH.
  - destruct (compute_lengths p (call_index c) (call_fallbackIndex c) (call_value c))
      as [-> ->]. done.
  - by apply compute_cells.
Qed.

Lemma wf_fresh (count : nat) : wf count (fresh count).
Proof.
  unfold wf, fresh; simpl. rewrite !length_replicate.
  split; [done|]. split; [done|]. split; [|done].
  intros i Hst. exfalso. apply Hst. unfold status_at; simpl.
  destruct (replicate count Initial !! i) eqn:E; [|done].
  apply lookup_replicate in E as [-> _]. done.
Qed.

Lemma wf_finalize (count : nat) (computes : list ComputeCall) (p : palette) :
  calls_ok count computes -> wf count p -> wf count (finalize computes p).
Proof.
  intros Hok Hwf. rewrite finalize_unfold.
  destruct (_ready p) eqn:E; [exact Hwf|].
  destruct Hwf as (Hd & Hs & Hc & Hr).
  destruct (run_calls_lengths computes (set_ready p true)) as [Ld Ls].
  split; [by rewrite Ld|]. split; [by rewrite Ls|]. split.
  - apply run_calls_cells; [simpl; congruence | done].
  - intros _ i Hi. by apply (run_calls_all_computed count).
Qed.

Lemma wf_load (count : nat) (p : palette) (cache : QByteArray) :
  wf count p -> wf count (fst (load count p cache)).
Proof.
  intros Hwf. rewrite load_unfold. destruct (negb _); [exact Hwf|]. simpl.
  destruct Hwf as (Hd & Hs & Hc & Hr).
  destruct (load_loop_shape cache (seq 0 count) p) as (Ld & Ls & Lr).
  assert (forall i, i < count ->
            status_at (load_loop cache (seq 0 count) p) i = Loaded /\
            data_at (load_loop cache (seq 0 count) p) i = Some (cached_color cache i))
    as Hall.
  { intros i Hi. apply load_loop_written; [apply in_seq|..]; lia. }
  split; [congruence|]. split; [congruence|]. split.
  - intros i Hst.
    assert (i < count \/ count <= i) as [Hlt|Hge] by lia.
    + destruct (Hall i Hlt) as [_ ->]. done.
    + exfalso. apply Hst. unfold status_at.
      rewrite lookup_ge_None_2; [done|lia].
  - intros _ i Hi. destruct (Hall i Hi) as [-> _]. done.
Qed.

(** *** [save] *)

Lemma cells_as_list (l : list (option ColorData)) :
  (forall i, i < length l ->
             is_Some (match l !! i with Some cell => cell | None => None end)) ->
  exists cs, l = map Some cs.
Proof.
  induction l as [|c l IH]; intros H.
  - by exists [].
  - destruct IH as [cs ->].
    { intros i Hi. apply (H (S i)). simpl. lia. }
    destruct (H 0) as [x Hx]; [simpl; lia|]. simpl in Hx. subst c.
    by exists (x :: cs).
Qed.

Lemma drop_four (A : Type) (l : list A) (n : nat) :
  n + 4 <= length l ->
  exists b0 b1 b2 b3, drop n l = b0 :: b1 :: b2 :: b3 :: drop (n + 4) l.
Proof.
  intros Hlen.
  destruct (lookup_lt_is_Some_2 l n) as [b0 H0]; [lia|].
  destruct (lookup_lt_is_Some_2 l (S n)) as [b1 H1]; [lia|].
  destruct (lookup_lt_is_Some_2 l (S (S n))) as [b2 H2]; [lia|].
  destruct (lookup_lt_is_Some_2 l (S (S (S n)))) as [b3 H3]; [lia|].
  exists b0, b1, b2, b3.
  rewrite (drop_S l b0 n H0), (drop_S l b1 (S n) H1),
          (drop_S l b2 (S (S n)) H2), (drop_S l b3 (S (S (S n))) H3).
  by replace (n + 4) with (S (S (S (S n)))) by lia.
Qed.

Lemma serialize_length (cs : list ColorData) : length (serialize cs) = 4 * length cs.
Proof.
  unfold serialize. induction cs as [|c cs IH]; [done|].
  simpl. rewrite IH. lia.
Qed.

Lemma four_writes (pre rest : list byte) (b0 b1 b2 b3 r g b a : byte) :
  <[S (S (S (length pre))) := a]>
    (<[S (S (length pre)) := b]>
       (<[S (length pre) := g]>
          (<[length pre := r]> (pre ++ b0 :: b1 :: b2 :: b3 :: rest)))) =
  (pre ++ [r; g; b; a]) ++ rest.
Proof.
  replace (S (S (S (length pre)))) with (length pre + 3) by lia.
  replace (S (S (length pre))) with (length pre + 2) by lia.
  replace (S (length pre)) with (length pre + 1) by lia.
  replace (length pre) with (length pre + 0) at 4 by lia.
  rewrite !insert_app_r. simpl. by rewrite <- app_assoc.
Qed.

Lemma save_fold (p : palette) (cs : list ColorData) (buf : QByteArray) (k : nat) :
  _data p = map Some cs -> length buf = 4 * length cs -> k <= length cs ->
  fold_left (save_step p) (seq 0 k) (Some (buf, 0)) =
  Some (serialize (take k cs) ++ drop (4 * k) buf, 4 * k).
Proof.
  intros Hdata Hbuf. induction k as [|k IH]; intros Hk.
  - simpl. by rewrite drop_0.
  - rewrite seq_S, fold_left_app, IH by lia.
    cbn [fold_left]. rewrite Nat.add_0_l. unfold save_step.
    destruct (lookup_lt_is_Some_2 cs k) as [c Hc]; [lia|].
    assert (data_at p k = Some c) as ->.
    { unfold data_at. rewrite Hdata, list_lookup_fmap, Hc. done. }
    destruct (drop_four _ buf (4 * k)) as (b0 & b1 & b2 & b3 & Hdrop); [lia|].
    rewrite Hdrop.
    assert (length (serialize (take k cs)) = 4 * k) as Hpre.
    { rewrite serialize_length, length_take. lia. }
    rewrite <- Hpre at 1 2 3 4.
    rewrite four_writes.
    rewrite (take_S_r cs k c Hc).
    assert (serialize (take k cs ++ [c]) =
            serialize (take k cs) ++ [c_red c; c_green c; c_blue c; c_alpha c]) as ->.
    { unfold serialize. rewrite flat_map_app. done. }
    do 2 f_equal; [|lia].
    f_equal. f_equal. lia.
Qed.

Lemma save_loop_result (count : nat) (p : palette) (cs : list ColorData) :
  _data p = map Some cs -> length cs = count ->
  option_map fst
    (fold_left (save_step p) (seq 0 count) (Some (replicate (count * 4) Byte.x00, 0))) =
  Some (serialize cs).
Proof.
  intros Hdata Hlen.
  rewrite (save_fold p cs _ count Hdata); [|rewrite length_replicate; lia|lia].
  simpl. rewrite <- Hlen at 1. rewrite firstn_all.
  rewrite drop_ge; [by rewrite app_nil_r|]. rewrite length_replicate. lia.
Qed.

Lemma save_unfold (count : nat) (computes : list ComputeCall) (p : palette) :
  save count computes p =
  let p1 := if negb (_ready p) then finalize computes p else p in
  (p1, option_map fst
         (fold_left (save_step p1) (seq 0 count)
                    (Some (replicate (count * 4) Byte.x00, 0)))).
Proof. reflexivity. Qed.

(** The colours a palette holds, slot by slot (defined once every cell
    holds an object). *)
Lemma wf_ready_colors (count : nat) (p : palette) :
  wf count p -> _ready p = true ->
  exists cs, _data p = map Some cs /\ length cs = count.
Proof.
  intros (Hd & Hs & Hc & Hr) Hready.
  destruct (cells_as_list (_data p)) as [cs Hcs].
  - intros i Hi. apply (Hc i). apply Hr; [done|lia].
  - exists cs. split; [done|]. rewrite Hcs, length_map in Hd. done.
Qed.

(** [save] on any palette state gives exactly the colours of the
    (finalised) palette, four bytes each. *)
Lemma save_serializes (count : nat) (computes : list ComputeCall) (p : palette) :
  calls_ok count computes -> wf count p ->
  exists cs,
    _data (fst (save count computes p)) = map Some cs /\
    length cs = count /\
    snd (save count computes p) = Some (serialize cs).
Proof.
  intros Hok Hwf. rewrite save_unfold. simpl.
  set (p1 := if negb (_ready p) then finalize computes p else p).
  assert (wf count p1 /\ _ready p1 = true) as [Hwf1 Hr1].
  { subst p1. destruct (_ready p) eqn:E; simpl; [done|].
    split; [by apply wf_finalize | apply finalize_ready]. }
  destruct (wf_ready_colors count p1 Hwf1 Hr1) as (cs & Hcs & Hlen).
  exists cs. split; [done|]. split; [done|].
  by apply save_loop_result.
Qed.

Lemma serialize_lookup (cs : list ColorData) (i j : nat) (c : ColorData) :
  cs !! i = Some c -> j < 4 ->
  serialize cs !! (4 * i + j) = channels c !! j.
Proof.
  intros Hc Hj. revert i Hc. induction cs as [|c0 cs IH]; intros i Hc; [done|].
  destruct i as [|i].
  - injection Hc as ->. unfold serialize. cbn [flat_map].
    rewrite lookup_app_l; [by rewrite Nat.mul_0_r|simpl; lia].
  - unfold serialize. cbn [flat_map].
    rewrite lookup_app_r; [|simpl; lia].
    replace (4 * S i + j - length (channels c0)) with (4 * i + j) by (simpl; lia).
    by apply IH.
Qed.

Lemma serialize_cached (count : nat) (cs : list ColorData) (b : QByteArray) :
  length cs = count -> length b = 4 * count ->
  (forall i, i < count -> cs !! i = Some (cached_color b i)) ->
  serialize cs = b.
Proof.
  intros Hcs Hb Hall. apply list_eq. intros n.
  assert (n < 4 * count \/ 4 * count <= n) as [Hlt|Hge] by lia.
  - pose proof (Nat.div_mod_eq n 4) as Hn.
    pose proof (Nat.mod_upper_bound n 4) as Hj.
    set (i := n / 4) in *. set (j := n mod 4) in *.
    assert (i < count) as Hi by lia.
    rewrite Hn, (serialize_lookup cs i j _ (Hall i Hi)) by lia.
    destruct (lookup_lt_is_Some_2 b (4 * i + j)) as [x Hx]; [lia|].
    rewrite Hx. unfold cached_color, channels, byte_at.
    destruct j as [|[|[|[|j]]]]; [..|lia]; simpl;
      match goal with
      | |- Some (default _ (b !! ?k)) = _ =>
          replace k with (4 * i + ltac:(match type of Hx with
                                        | b !! (_ + ?m) = _ => exact m end)) by lia
      end; by rewrite Hx.
  - rewrite !lookup_ge_None_2; [done|lia|rewrite serialize_length; lia].
Qed.

(** C3. For a palette of [count] colours in any state, [save] returns a
    buffer of exactly [4 * count] bytes in which bytes [4i .. 4i+3] are the
    red, green, blue and alpha channel of slot [i]; loading that buffer into
    a fresh palette succeeds, and saving the loaded palette returns the
    same bytes. *)
Theorem save_load_roundtrip (count : nat) (computes : list ComputeCall) (p : palette) :
  calls_ok count computes -> wf count p ->
  exists b,
    snd (save count computes p) = Some b /\
    length b = 4 * count /\
    (forall i, i < count ->
       exists c, data_at (fst (save count computes p)) i = Some c /\
                 b !! (4 * i) = Some (c_red c) /\
                 b !! (4 * i + 1) = Some (c_green c) /\
                 b !! (4 * i + 2) = Some (c_blue c) /\
                 b !! (4 * i + 3) = Some (c_alpha c)) /\
    snd (load count (fresh count) b) = true /\
    snd (save count computes (fst (load count (fresh count) b))) = Some b.
Proof.
  intros Hok Hwf.
  destruct (save_serializes count computes p Hok Hwf) as (cs & Hdata & Hlen & Hsave).
  exists (serialize cs).
  assert (length (serialize cs) = 4 * count) as Hb.
  { rewrite serialize_length. lia. }
  split; [done|]. split; [done|]. split.
  { intros i Hi.
    destruct (lookup_lt_is_Some_2 cs i) as [c Hc]; [lia|].
    exists c. split.
    - unfold data_at. rewrite Hdata, list_lookup_fmap, Hc. done.
    - pose proof (serialize_lookup cs i 0 c Hc) as H0.
      pose proof (serialize_lookup cs i 1 c Hc) as H1.
      pose proof (serialize_lookup cs i 2 c Hc) as H2.
      pose proof (serialize_lookup cs i 3 c Hc) as H3.
      rewrite Nat.add_0_r in H0.
      rewrite H0, H1, H2, H3 by lia. done. }
  set (b := serialize cs) in *.
  rewrite load_unfold.
  assert (Nat.eqb (length b) (count * 4) = true) as ->.
  { apply Nat.eqb_eq. lia. }
  cbn [negb fst snd]. split; [done|].
  set (q := load_loop b (seq 0 count) (fresh count)).
  assert (wf count q) as Hwfq.
  { pose proof (wf_load count (fresh count) b (wf_fresh count)) as H.
    rewrite load_unfold in H.
    assert (Nat.eqb (length b) (count * 4) = true) as E by (apply Nat.eqb_eq; lia).
    rewrite E in H. exact H. }
  destruct (save_serializes count computes q Hok Hwfq) as (cs' & Hdata' & Hlen' & ->).
  f_equal. apply (serialize_cached count); [done..|].
  intros i Hi.
  assert (data_at (fst (save count computes q)) i = Some (cached_color b i)) as Hq.
  { assert (status_at q i = Loaded /\ data_at q i = Some (cached_color b i)) as [Hs Hd].
    { apply load_loop_written; [apply in_seq; lia|..];
        unfold fresh; simpl; rewrite length_replicate; lia. }
    rewrite save_unfold. simpl.
    destruct (negb (_ready q)); [|done].
    destruct (finalize_keeps computes q i) as [_ ->]; [congruence|done]. }
  unfold data_at in Hq. rewrite Hdata', list_lookup_fmap in Hq.
  destruct (cs' !! i); simpl in Hq; congruence.
Qed.

Lemma save_load_roundtrip_witness :
  exists b,
    snd (save 2 [mkCall 0 (-1) (mkTemp Byte.xff Byte.xff Byte.xff Byte.xff);
                 mkCall 1 0 (mkTemp Byte.xf1 Byte.xf1 Byte.xf1 Byte.xff)]
              (fresh 2)) = Some b /\
    length b = 4 * 2.
Proof.
  destruct (save_load_roundtrip 2
              [mkCall 0 (-1) (mkTemp Byte.xff Byte.xff Byte.xff Byte.xff);
               mkCall 1 0 (mkTemp Byte.xf1 Byte.xf1 Byte.xf1 Byte.xff)]
              (fresh 2) eq_refl (wf_fresh 2)) as (b & Hb & Hlen & _).
  exists b. split; [exact Hb | exact Hlen].
Defined.

(** *** [operator=] *)

(** What one iteration of the loop of [operator=] leaves in slot [i]. *)
Lemma assign_step_at (other p : palette) (i : nat) :
  i < length (_status p) -> i < length (_data p) ->
  (status_at other i = Loaded ->
     status_at (assign_step other p i) i = status_at p i /\
     data_at (assign_step other p i) i = data_at other i /\
     _ready (assign_step other p i) = _ready p) /\
  (status_at other i <> Loaded -> status_at p i <> Initial ->
     status_at (assign_step other p i) i = Initial /\
     data_at (assign_step other p i) i = None /\
     _ready (assign_step other p i) = false) /\
  (status_at other i <> Loaded -> status_at p i = Initial ->
     assign_step other p i = p).
Proof.
  intros Hs Hd. unfold assign_step. repeat split.
  - apply Status_eqb_eq in H. rewrite H.
    destruct (Status_eqb (status_at p i) Initial); reflexivity.
  - apply Status_eqb_eq in H. rewrite H.
    destruct (Status_eqb (status_at p i) Initial); unf;
      by rewrite list_lookup_insert_eq.
  - apply Status_eqb_eq in H. rewrite H.
    destruct (Status_eqb (status_at p i) Initial); reflexivity.
  - apply Status_eqb_neq in H, H0. rewrite H, H0. unf.
    by rewrite list_lookup_insert_eq.
  - apply Status_eqb_neq in H, H0. rewrite H, H0. unf.
    by rewrite list_lookup_insert_eq.
  - apply Status_eqb_neq in H, H0. by rewrite H, H0.
  - intros H H0. apply Status_eqb_neq in H. apply Status_eqb_eq in H0.
    by rewrite H, H0.
Qed.

Lemma assign_step_other (other p : palette) (i j : nat) :
  i <> j ->
  status_at (assign_step other p i) j = status_at p j /\
  data_at (assign_step other p i) j = data_at p j.
Proof.
  intros Hij. unfold assign_step.
  destruct (Status_eqb (status_at other i) Loaded).
  - destruct (Status_eqb _ _); unf; by rewrite list_lookup_insert_ne.
  - destruct (negb _); [|done]. unf. by rewrite !list_lookup_insert_ne.
Qed.

Lemma assign_step_shape (other p : palette) (i : nat) :
  length (_data (assign_step other p i)) = length (_data p) /\
  length (_status (assign_step other p i)) = length (_status p) /\
  (_ready (assign_step other p i) = true -> _ready p = true) /\
  (_ready (assign_step other p i) = _ready p \/ _ready (assign_step other p i) = false).
Proof.
  unfold assign_step.
  destruct (Status_eqb (status_at other i) Loaded).
  - destruct (Status_eqb _ _); unf; rewrite !length_insert; auto.
  - destruct (negb _); unf; rewrite ?length_insert; auto.
    repeat split; auto. discriminate.
Qed.

Lemma steps_cons (other : palette) (x : nat) (l : list nat) (p : palette) :
  steps other (x :: l) p = steps other l (assign_step other p x).
Proof. reflexivity. Qed.

Lemma steps_untouched (other : palette) (l : list nat) (p : palette) (i : nat) :
  ~ In i l ->
  status_at (steps other l p) i = status_at p i /\
  data_at (steps other l p) i = data_at p i.
Proof.
  revert p. induction l as [|x l IH]; intros p Hin; [done|].
  rewrite steps_cons.
  destruct (IH (assign_step other p x)) as [-> ->].
  { intros H. apply Hin. by right. }
  apply assign_step_other. intros ->. apply Hin. by left.
Qed.

Lemma steps_shape (other : palette) (l : list nat) (p : palette) :
  length (_data (steps other l p)) = length (_data p) /\
  length (_status (steps other l p)) = length (_status p) /\
  (_ready (steps other l p) = true -> _ready p = true).
Proof.
  revert p. induction l as [|x l IH]; intros p; [done|].
  rewrite steps_cons.
  destruct (IH (assign_step other p x)) as (-> & -> & Hr).
  destruct (assign_step_shape other p x) as (-> & -> & Hr' & _). auto.
Qed.

Lemma steps_ready_false (other : palette) (l : list nat) (p : palette) :
  _ready p = false -> _ready (steps other l p) = false.
Proof.
  intros Hp. destruct (steps_shape other l p) as (_ & _ & Hr).
  destruct (_ready (steps other l p)); [|done]. rewrite Hr in Hp; done.
Qed.

(** What the whole loop leaves in a slot it visits once. *)
Lemma steps_at (other : palette) (l : list nat) (p : palette) (i : nat) :
  NoDup l -> In i l -> i < length (_status p) -> i < length (_data p) ->
  (status_at other i = Loaded ->
     status_at (steps other l p) i = status_at p i /\
     data_at (steps other l p) i = data_at other i) /\
  (status_at other i <> Loaded -> status_at p i <> Initial ->
     status_at (steps other l p) i = Initial /\
     data_at (steps other l p) i = None /\
     _ready (steps other l p) = false) /\
  (status_at other i <> Loaded -> status_at p i = Initial ->
     status_at (steps other l p) i = Initial /\
     data_at (steps other l p) i = data_at p i).
Proof.
  intros Hnd. revert p. induction l as [|x l IH]; intros p Hin Hs Hd; [done|].
  apply NoDup_cons in Hnd as [Hx Hnd]. rewrite steps_cons.
  destruct (decide (x = i)) as [->|Hne].
  - assert (~ In i l) as Hni by (by rewrite <- list_elem_of_In).
    destruct (steps_untouched other l (assign_step other p i) i Hni) as [-> ->].
    destruct (assign_step_at other p i Hs Hd) as (H1 & H2 & H3).
    split; [|split].
    + intros H. destruct (H1 H) as (? & ? & ?). done.
    + intros H H'. destruct (H2 H H') as (? & ? & Hr).
      split; [done|]. split; [done|]. by apply steps_ready_false.
    + intros H H'. rewrite (H3 H H'). done.
  - destruct Hin as [|Hin]; [done|].
    destruct (assign_step_shape other p x) as (Ld & Ls & _).
    destruct (assign_step_other other p x i Hne) as [Es Ed].
    specialize (IH Hnd (assign_step other p x) Hin).
    rewrite Ls, Ld, Es, Ed in IH. by apply IH.
Qed.

Lemma operator_assign_unfold (count : nat) (computes : list ComputeCall)
    (p other : palette) :
  operator_assign count computes p other =
  if _ready p && negb (_ready (assign_loop count p other))
  then finalize computes (assign_loop count p other)
  else assign_loop count p other.
Proof. reflexivity. Qed.

(** [operator=], slot by slot, as the code does it.  Where the source
    slot is [Loaded] the destination cell receives the source value (by
    the end of the loop and still when the assignment returns) and the
    status of the destination slot is left as it was.  Where the source
    slot is not [Loaded] the destination slot is [Initial] after the loop:
    a slot that was marked is destroyed and clears [_ready], a slot that
    was [Initial] is not touched.  If the destination was finalised and
    the loop has left a slot [Initial], then [_ready] has been cleared and
    the assignment runs the [compute] calls of [finalize] before it
    returns, so that no slot is [Initial] on return; in every case it
    returns the state after the loop, finalised or not. *)
Lemma operator_assign_slots (count : nat) (computes : list ComputeCall)
    (p other : palette) :
  wf count p -> calls_ok count computes ->
  (forall i, i < count -> status_at other i = Loaded ->
     data_at (assign_loop count p other) i = data_at other i /\
     status_at (assign_loop count p other) i = status_at p i /\
     data_at (operator_assign count computes p other) i = data_at other i) /\
  (forall i, i < count -> status_at other i <> Loaded ->
     status_at (assign_loop count p other) i = Initial /\
     (status_at p i <> Initial ->
        data_at (assign_loop count p other) i = None /\
        _ready (assign_loop count p other) = false) /\
     (status_at p i = Initial ->
        data_at (assign_loop count p other) i = data_at p i)) /\
  (_ready p = true ->
   (exists i, i < count /\ status_at (assign_loop count p other) i = Initial) ->
   _ready (assign_loop count p other) = false /\
   operator_assign count computes p other =
     run_calls computes (set_ready (assign_loop count p other) true) /\
   forall j, j < count ->
     status_at (operator_assign count computes p other) j <> Initial) /\
  (operator_assign count computes p other = assign_loop count p other \/
   operator_assign count computes p other =
   finalize computes (assign_loop count p other)).
Proof.
  intros (Hd & Hs & Hc & Hr) Hok.
  assert (forall i, i < count ->
            NoDup (seq 0 count) /\ In i (seq 0 count) /\
            i < length (_status p) /\ i < length (_data p)) as Hpre.
  { intros i Hi. split; [apply NoDup_ListNoDup, List.seq_NoDup|].
    split; [apply in_seq; lia|lia]. }
  split; [|split; [|split]].
  - intros i Hi Hl.
    destruct (Hpre i Hi) as (Hnd & Hin & Hsi & Hdi).
    destruct (steps_at other (seq 0 count) p i Hnd Hin Hsi Hdi) as (H1 & _ & _).
    destruct (H1 Hl) as [Hst Hda]. split; [exact Hda|]. split; [exact Hst|].
    rewrite operator_assign_unfold.
    destruct (_ready p) eqn:Er; simpl; [|exact Hda].
    destruct (negb (_ready (assign_loop count p other))); [|exact Hda].
    destruct (finalize_keeps computes (assign_loop count p other) i) as [_ ->];
      [|exact Hda].
    unfold assign_loop. rewrite Hst. by apply Hr.
  - intros i Hi Hnl.
    destruct (Hpre i Hi) as (Hnd & Hin & Hsi & Hdi).
    destruct (steps_at other (seq 0 count) p i Hnd Hin Hsi Hdi) as (_ & H2 & H3).
    destruct (Status_eqb (status_at p i) Initial) eqn:Hi0;
      [apply Status_eqb_eq in Hi0 | apply Status_eqb_neq in Hi0].
    + destruct (H3 Hnl Hi0) as [? ?]. split; [done|]. split; [done|]. intros; done.
    + destruct (H2 Hnl Hi0) as (? & ? & ?). split; [done|].
      split; [intros; done|]. intros; done.
  - intros Hready (i & Hi & Hinit).
    destruct (Hpre i Hi) as (Hnd & Hin & Hsi & Hdi).
    destruct (steps_at other (seq 0 count) p i Hnd Hin Hsi Hdi) as (H1 & H2 & _).
    pose proof (Hr Hready i Hi) as Hpi.
    assert (status_at other i <> Loaded) as Hnl.
    { intros Hl. destruct (H1 Hl) as [Hst _]. unfold assign_loop in Hinit. congruence. }
    destruct (H2 Hnl Hpi) as (_ & _ & Hfalse).
    fold (assign_loop count p other) in Hfalse.
    assert (operator_assign count computes p other =
            run_calls computes (set_ready (assign_loop count p other) true)) as Heq.
    { rewrite operator_assign_unfold, Hready, Hfalse. cbn [andb negb].
      by rewrite finalize_unfold, Hfalse. }
    split; [exact Hfalse|]. split; [exact Heq|].
    intros j Hj. rewrite Heq.
    apply (run_calls_all_computed count); [done| |done].
    destruct (steps_shape other (seq 0 count) p) as (_ & Ls & _).
    cbn [set_ready _status]. unfold assign_loop. by rewrite Ls.
  - rewrite operator_assign_unfold. destruct (_ && _); auto.
Qed.

Lemma operator_assign_slots_witness :
  data_at
    (operator_assign 2
       [mkCall 0 (-1) (mkTemp Byte.xff Byte.xff Byte.xff Byte.xff);
        mkCall 1 0 (mkTemp Byte.xf1 Byte.xf1 Byte.xf1 Byte.xff)]
       (fresh 2)
       (mkPalette [Some (mkColorData Byte.x01 Byte.x02 Byte.x03 Byte.x04); None]
                  [Loaded; Initial] false)) 0 =
  Some (mkColorData Byte.x01 Byte.x02 Byte.x03 Byte.x04).
Proof.
  apply (proj1 (operator_assign_slots 2
           [mkCall 0 (-1) (mkTemp Byte.xff Byte.xff Byte.xff Byte.xff);
            mkCall 1 0 (mkTemp Byte.xf1 Byte.xf1 Byte.xf1 Byte.xff)]
           (fresh 2)
           (mkPalette [Some (mkColorData Byte.x01 Byte.x02 Byte.x03 Byte.x04); None]
                      [Loaded; Initial] false)
           (wf_fresh 2) eq_refl) 0); [lia | reflexivity].
Defined.

(** The invariant is kept by [setData] and by [operator=], so it holds in
    every state the public operations can reach from [fresh]. *)
Lemma wf_setData (count : nat) (p : palette) (i : nat) (c : ColorData) :
  wf count p -> i < count -> wf count (setData p i (Some c)).
Proof.
  intros (Hd & Hs & Hc & Hr) Hi.
  destruct (setData_shape p i (Some c)) as (Ld & Ls & Lr).
  split; [congruence|]. split; [congruence|]. split.
  - intros j Hj. destruct (decide (i = j)) as [<-|Hne].
    + rewrite setData_data by lia. done.
    + destruct (setData_other p i j (Some c) Hne) as [Es Ed].
      rewrite Ed. apply Hc. congruence.
  - rewrite Lr. intros Hready j Hj. destruct (decide (i = j)) as [<-|Hne].
    + rewrite setData_status by lia. done.
    + destruct (setData_other p i j (Some c) Hne) as [Es _].
      rewrite Es. by apply Hr.
Qed.

Lemma wf_operator_assign (count : nat) (computes : list ComputeCall)
    (p other : palette) :
  calls_ok count computes -> wf count p -> wf count other ->
  wf count (operator_assign count computes p other).
Proof.
  intros Hok (Hd & Hs & Hc & Hr) (_ & _ & Hco & _).
  assert (wf count (assign_loop count p other)) as Hwf1.
  { unfold assign_loop.
    destruct (steps_shape other (seq 0 count) p) as (Ld & Ls & Lr).
    assert (forall i, i < count ->
              NoDup (seq 0 count) /\ In i (seq 0 count) /\
              i < length (_status p) /\ i < length (_data p)) as Hpre.
    { intros i Hi. split; [apply NoDup_ListNoDup, List.seq_NoDup|].
      split; [apply in_seq; lia|lia]. }
    split; [congruence|]. split; [congruence|]. split.
    - intros i Hst.
      assert (i < count \/ count <= i) as [Hi|Hi] by lia.
      + destruct (Hpre i Hi) as (Hnd & Hin & Hsi & Hdi).
        destruct (steps_at other (seq 0 count) p i Hnd Hin Hsi Hdi) as (H1 & H2 & H3).
        destruct (Status_eqb (status_at other i) Loaded) eqn:El;
          [apply Status_eqb_eq in El | apply Status_eqb_neq in El].
        * destruct (H1 El) as [_ ->]. apply Hco. congruence.
        * exfalso. apply Hst.
          destruct (Status_eqb (status_at p i) Initial) eqn:Ei;
            [apply Status_eqb_eq in Ei | apply Status_eqb_neq in Ei].
          -- by destruct (H3 El Ei).
          -- by destruct (H2 El Ei).
      + exfalso. apply Hst. unfold status_at.
        rewrite lookup_ge_None_2; [done|lia].
    - intros Hready i Hi.
      destruct (Hpre i Hi) as (Hnd & Hin & Hsi & Hdi).
      destruct (steps_at other (seq 0 count) p i Hnd Hin Hsi Hdi) as (H1 & H2 & _).
      pose proof (Hr (Lr Hready) i Hi) as Hpi.
      destruct (Status_eqb (status_at other i) Loaded) eqn:El;
        [apply Status_eqb_eq in El | apply Status_eqb_neq in El].
      + destruct (H1 El) as [-> _]. done.
      + destruct (H2 El Hpi) as (_ & _ & Hfalse). congruence. }
  rewrite operator_assign_unfold.
  destruct (_ && _); [by apply wf_finalize | done].
Qed.

End PaletteFacts.

(** ** The checksum *)

Module Crc32Facts.
Import Crc32.
Local Open Scope Z_scope.

Lemma byte_val_range (b : byte) : 0 <= byte_val b < 256.
Proof.
  unfold byte_val. pose proof (Byte.to_N_bounded b). lia.
Qed.

Lemma land_255 (x : Z) : Z.land x 255 = x mod 256.
Proof. change 255 with (Z.ones 8). by rewrite Z.land_ones. Qed.

Lemma byte_val_land (b : byte) : Z.land (byte_val b) 255 = byte_val b.
Proof. rewrite land_255. apply Z.mod_small, byte_val_range. Qed.

Lemma land_lxor_distr (a b c : Z) :
  Z.land (Z.lxor a b) c = Z.lxor (Z.land a c) (Z.land b c).
Proof.
  apply Z.bits_inj'. intros n _.
  rewrite !Z.lxor_spec, !Z.land_spec, Z.lxor_spec.
  by destruct (Z.testbit a n), (Z.testbit b n), (Z.testbit c n).
Qed.

(** The index of the table look-up of [hashCrc32]. *)
Lemma index_eq (crc : Z) (b : byte) :
  Z.lxor (Z.land crc 0xFF) (byte_val b) = Z.land (Z.lxor crc (byte_val b)) 0xFF.
Proof. by rewrite land_lxor_distr, byte_val_land. Qed.

Lemma index_range (crc : Z) (b : byte) :
  0 <= Z.land (Z.lxor crc (byte_val b)) 0xFF < 256.
Proof. rewrite land_255. by apply Z.mod_pos_bound. Qed.

(** The table the constructor builds is the standard table: checked entry
    by entry. *)
Lemma table_entries :
  forallb (fun n => table_at (Z.of_nat n) =? standard_table (Z.of_nat n))
          (seq 0 256) = true.
Proof. vm_compute. reflexivity. Qed.

Lemma table_at_standard (i : Z) :
  0 <= i < 256 -> table_at i = standard_table i.
Proof.
  intros Hi. pose proof table_entries as H.
  rewrite forallb_forall in H.
  specialize (H (Z.to_nat i)). rewrite Z2Nat.id in H by lia.
  apply Z.eqb_eq, H, in_seq. lia.
Qed.

Lemma hash_step_table (crc : Z) (b : byte) : hash_step crc b = table_update crc b.
Proof.
  unfold hash_step, table_update. rewrite index_eq.
  by rewrite table_at_standard by apply index_range.
Qed.

(** *** The table-driven update is eight steps of the bit-wise division *)

Lemma poly_nonneg : 0 <= ieee_poly_reflected.
Proof. by vm_compute. Qed.

Lemma crc_bit_nonneg (c : Z) : 0 <= c -> 0 <= crc_bit c.
Proof.
  intros Hc. unfold crc_bit. pose proof poly_nonneg.
  destruct (Z.odd c).
  - apply Z.lxor_nonneg. split; intros _; [done|]. by apply Z.shiftr_nonneg.
  - by apply Z.shiftr_nonneg.
Qed.

Lemma odd_lxor (u v : Z) : Z.odd (Z.lxor u v) = xorb (Z.odd u) (Z.odd v).
Proof. by rewrite <- !Z.bit0_odd, Z.lxor_spec. Qed.

(** The division step is linear over exclusive or. *)
Lemma crc_bit_lxor (u v : Z) :
  crc_bit (Z.lxor u v) = Z.lxor (crc_bit u) (crc_bit v).
Proof.
  unfold crc_bit. rewrite odd_lxor, Z.shiftr_lxor.
  set (a := Z.shiftr u 1). set (b := Z.shiftr v 1). set (P := ieee_poly_reflected).
  destruct (Z.odd u), (Z.odd v); simpl.
  - rewrite (Z.lxor_comm b P), Z.lxor_assoc, <- (Z.lxor_assoc P P b).
    by rewrite Z.lxor_nilpotent, Z.lxor_0_l.
  - rewrite !Z.lxor_assoc. f_equal. apply Z.lxor_comm.
  - by rewrite Z.lxor_assoc.
  - done.
Qed.

Lemma iter_crc_bit_lxor (k : nat) (u v : Z) :
  Nat.iter k crc_bit (Z.lxor u v) =
  Z.lxor (Nat.iter k crc_bit u) (Nat.iter k crc_bit v).
Proof.
  induction k as [|k IH]; [done|]. simpl. by rewrite IH, crc_bit_lxor.
Qed.

(** A word whose low [k] bits are clear is only shifted by [k] steps. *)
Lemma iter_crc_bit_shifted (k : nat) (h : Z) :
  Nat.iter k crc_bit (Z.shiftl h (Z.of_nat k)) = h.
Proof.
  induction k as [|k IH].
  - simpl. apply Z.shiftl_0_r.
  - rewrite Nat.iter_succ_r. unfold crc_bit at 2.
    assert (Z.odd (Z.shiftl h (Z.of_nat (S k))) = false) as ->.
    { rewrite <- Z.bit0_odd, Z.shiftl_spec_low; [done|lia]. }
    rewrite Z.shiftr_shiftl_l by lia.
    replace (Z.of_nat (S k) - 1) with (Z.of_nat k) by lia. exact IH.
Qed.

Lemma split_low_high (x : Z) :
  0 <= x -> x = Z.lxor (Z.land x 255) (Z.shiftl (Z.shiftr x 8) 8).
Proof.
  intros Hx. apply Z.bits_inj'. intros n Hn.
  rewrite Z.lxor_spec, Z.land_spec. change 255 with (Z.ones 8).
  destruct (Z.ltb_spec n 8).
  - rewrite Z.ones_spec_low, Z.shiftl_spec_low by lia.
    by rewrite andb_true_r, xorb_false_r.
  - rewrite Z.ones_spec_high, Z.shiftl_spec, Z.shiftr_spec by lia.
    rewrite andb_false_r, xorb_false_l. f_equal. lia.
Qed.

Lemma table_update_bitwise (c : Z) (b : byte) :
  0 <= c -> table_update c b = bitwise_update c b.
Proof.
  intros Hc. unfold table_update, bitwise_update, standard_table.
  set (x := Z.lxor c (byte_val b)).
  assert (0 <= x) as Hx.
  { apply Z.lxor_nonneg. pose proof (byte_val_range b). split; intros; lia. }
  assert (Z.shiftr c 8 = Z.shiftr x 8) as ->.
  { unfold x. rewrite Z.shiftr_lxor.
    rewrite (Z.shiftr_div_pow2 (byte_val b)) by lia.
    rewrite (Z.div_small (byte_val b)) by apply byte_val_range.
    by rewrite Z.lxor_0_r. }
  rewrite (split_low_high x Hx) at 3.
  rewrite iter_crc_bit_lxor.
  pose proof (iter_crc_bit_shifted 8 (Z.shiftr x 8)) as Hhigh.
  change (Z.of_nat 8) with 8 in Hhigh. rewrite Hhigh.
  apply Z.lxor_comm.
Qed.

Lemma bitwise_update_nonneg (c : Z) (b : byte) : 0 <= c -> 0 <= bitwise_update c b.
Proof.
  intros Hc. unfold bitwise_update.
  assert (0 <= Z.lxor c (byte_val b)) as Hx.
  { apply Z.lxor_nonneg. pose proof (byte_val_range b). split; intros; lia. }
  revert Hx. generalize (Z.lxor c (byte_val b)). intros x Hx.
  assert (forall k, 0 <= Nat.iter k crc_bit x) as H.
  { induction k as [|k IH]; [done|]. simpl. by apply crc_bit_nonneg. }
  apply H.
Qed.

Lemma fold_hash_step (data : list byte) (c : Z) :
  0 <= c ->
  fold_left hash_step data c = fold_left bitwise_update data c /\
  fold_left hash_step data c = fold_left table_update data c.
Proof.
  revert c. induction data as [|b data IH]; intros c Hc; [done|].
  simpl. rewrite hash_step_table.
  destruct (IH (table_update c b)) as [H1 H2].
  { rewrite table_update_bitwise by done. by apply bitwise_update_nonneg. }
  split; [|done]. rewrite H1. f_equal. by apply table_update_bitwise.
Qed.

(** The reference function is the CRC-32 of the usual check string. *)
Lemma crc32_ieee_check :
  crc32_ieee (list_byte_of_string "123456789") = 0xCBF43926.
Proof. by vm_compute. Qed.

Lemma ieee_poly_reflected_value : ieee_poly_reflected = 0xEDB88320.
Proof. by vm_compute. Qed.

(** [hashCrc32] is the IEEE 802.3 CRC-32, read as a signed 32-bit number. *)
Lemma hashCrc32_is_crc32 (data : list byte) :
  hashCrc32 data = to_qint32 (crc32_ieee data) /\
  hashCrc32 data = to_qint32 (crc32_table_driven data).
Proof.
  unfold hashCrc32, crc32_ieee, crc32_table_driven.
  destruct (fold_hash_step data 0xffffffff) as [-> H]; [lia|].
  split; [done|].
  destruct (fold_hash_step data 0xffffffff) as [<- ->]; [lia|]. done.
Qed.

End Crc32Facts.

Module PaletteGenFacts.
Import PaletteGen.

Lemma list_byte_of_string_app (s1 s2 : string) :
  list_byte_of_string (s1 ++ s2) = list_byte_of_string s1 ++ list_byte_of_string s2.
Proof.
  induction s1 as [|c s1 IH]; [done|].
  simpl. unfold list_byte_of_string in *. simpl. by rewrite IH.
Qed.

Lemma callback_color (st : State) (v : structure.Variable_) :
  structure.TypeTag_eqb (structure.tag (structure.value v)) structure.Color = true ->
  exists fb,
    callback st v =
    (true,
     mkState (S (indexInPalette st))
       (QMap.insert String.compare (structure.back (structure.name v))
                    (Z.of_nat (indexInPalette st)) (paletteIndices_ st))
       (computes st ++
          [Palette.mkCall (indexInPalette st) fb
             (Palette.mkTemp
                (structure.data.red (structure.as_Color (structure.value v)))
                (structure.data.green (structure.as_Color (structure.value v)))
                (structure.data.blue (structure.as_Color (structure.value v)))
                (structure.data.alpha (structure.as_Color (structure.value v))))])
       (checksumString st ++ list_byte_of_string (checksum_entry v))).
Proof.
  intros Hc. unfold callback. rewrite Hc. simpl. eexists. reflexivity.
Qed.

(** On a palette (all variables are colours) the enumeration visits every
    variable: one [compute] call per variable with consecutive indices, and
    the checksum string is the concatenation of the entries. *)
Lemma enum_all_colors (variables : list structure.Variable_) (st : State) :
  all_colors variables = true ->
  fst (enumVariables callback variables st) = true /\
  indexInPalette (snd (enumVariables callback variables st)) =
    (indexInPalette st + length variables)%nat /\
  map Palette.call_index (computes (snd (enumVariables callback variables st))) =
    map Palette.call_index (computes st) ++ seq (indexInPalette st) (length variables) /\
  checksumString (snd (enumVariables callback variables st)) =
    checksumString st ++ list_byte_of_string (checksum_text variables).
Proof.
  revert st. induction variables as [|v vs IH]; intros st Hall.
  - simpl. rewrite !app_nil_r. repeat split; lia.
  - simpl in Hall. apply andb_true_iff in Hall as [Hv Hvs].
    destruct (callback_color st v Hv) as [fb Hcb].
    cbn [enumVariables]. rewrite Hcb.
    destruct (IH (mkState (S (indexInPalette st))
       (QMap.insert String.compare (structure.back (structure.name v))
                    (Z.of_nat (indexInPalette st)) (paletteIndices_ st))
       (computes st ++
          [Palette.mkCall (indexInPalette st) fb
             (Palette.mkTemp
                (structure.data.red (structure.as_Color (structure.value v)))
                (structure.data.green (structure.as_Color (structure.value v)))
                (structure.data.blue (structure.as_Color (structure.value v)))
                (structure.data.alpha (structure.as_Color (structure.value v))))])
       (checksumString st ++ list_byte_of_string (checksum_entry v))) Hvs)
      as (H1 & H2 & H3 & H4).
    split; [exact H1|]. split; [|split].
    + rewrite H2. simpl. lia.
    + rewrite H3. simpl. rewrite map_app, <- app_assoc. done.
    + rewrite H4. cbn [checksumString].
      change (checksum_text (v :: vs))
        with (checksum_entry v ++ checksum_text vs)%string.
      rewrite list_byte_of_string_app, <- app_assoc. done.
Qed.

(** The emitted body of [finalize] has the shape [PaletteSpec.calls_ok]
    asks for. *)
Lemma generated_calls_ok (variables : list structure.Variable_) :
  all_colors variables = true ->
  PaletteSpec.calls_ok (count variables) (computes (snd (run variables))) /\
  count variables = length variables.
Proof.
  intros Hall. destruct (enum_all_colors variables init Hall) as (_ & H2 & H3 & _).
  unfold PaletteSpec.calls_ok, count, run. rewrite H2, H3. done.
Qed.

(** C6. The checksum written into [palette::Checksum()] is the IEEE 802.3
    CRC-32 (reflected polynomial 0x04C11DB7, register and result
    complemented with 0xFFFFFFFF), as a signed 32-bit number, of the
    concatenation over the palette variables, in declaration order, of
    ["&" + name + ":" + valueAssignmentCode(value)]; the table built by
    [Crc32Table] is the standard table, and [hashCrc32] agrees with the
    table-driven and with the bit-by-bit CRC-32 on every byte string. *)
Theorem palette_checksum_is_crc32 (variables : list structure.Variable_) :
  all_colors variables = true ->
  Checksum variables =
    Crc32.to_qint32 (Crc32.crc32_ieee (list_byte_of_string (checksum_text variables))) /\
  (forall i, 0 <= i < 256 -> Crc32.table_at i = Crc32.standard_table i) /\
  (forall data : list byte,
     Crc32.hashCrc32 data = Crc32.to_qint32 (Crc32.crc32_table_driven data) /\
     Crc32.hashCrc32 data = Crc32.to_qint32 (Crc32.crc32_ieee data)).
Proof.
  intros Hall. split; [|split].
  - unfold Checksum, run.
    destruct (enum_all_colors variables init Hall) as (_ & _ & _ & ->).
    simpl. apply Crc32Facts.hashCrc32_is_crc32.
  - apply Crc32Facts.table_at_standard.
  - intros data. destruct (Crc32Facts.hashCrc32_is_crc32 data). done.
Qed.

Lemma palette_checksum_is_crc32_witness :
  all_colors Samples.two_colors = true /\
  Checksum Samples.two_colors =
    Crc32.to_qint32
      (Crc32.crc32_ieee (list_byte_of_string (checksum_text Samples.two_colors))).
Proof.
  split; [reflexivity|].
  apply (palette_checksum_is_crc32 Samples.two_colors). reflexivity.
Defined.

End PaletteGenFacts.

(** ** Where the emitted code departs from the specification *)

Module FinalizeFallback.
Import Palette.

(** The guard of [compute] accepts every fallback slot that is not
    [Initial]: a slot that was merely computed ([Created]) is copied just
    as a [Loaded] one, and the copy is marked [Loaded]. *)
Lemma compute_copies_constructed (p : palette) (index : nat) (fb : Z)
    (v : TempColorData) :
  (index < length (_status p))%nat -> (index < length (_data p))%nat ->
  status_at p index = Initial ->
  0 <= fb -> status_at p (Z.to_nat fb) <> Initial ->
  status_at (compute p index fb v) index = Loaded /\
  data_at (compute p index fb v) index = data_at p (Z.to_nat fb).
Proof.
  intros Hs Hd Hi Hfb Hst. unfold compute.
  apply PaletteFacts.Status_eqb_eq in Hi as Hi'.
  apply PaletteFacts.Status_eqb_neq in Hst as Hst'.
  rewrite Hi', Hst'.
  assert ((0 <=? fb) = true) as -> by lia. simpl.
  assert (Z.to_nat fb <> index) as Hne by congruence.
  unfold status_at, data_at, construct_at, set_status; simpl.
  rewrite !list_lookup_insert_eq by lia. done.
Qed.

Lemma compute_copies_constructed_witness :
  status_at
    (compute (mkPalette [Some (mkColorData Byte.xff Byte.xff Byte.xff Byte.xff); None]
                        [Created; Initial] true)
             1 0 (mkTemp Byte.xf1 Byte.xf1 Byte.xf1 Byte.xff)) 1 = Loaded /\
  data_at
    (compute (mkPalette [Some (mkColorData Byte.xff Byte.xff Byte.xff Byte.xff); None]
                        [Created; Initial] true)
             1 0 (mkTemp Byte.xf1 Byte.xf1 Byte.xf1 Byte.xff)) 1 =
  Some (mkColorData Byte.xff Byte.xff Byte.xff Byte.xff).
Proof.
  apply (compute_copies_constructed
           (mkPalette [Some (mkColorData Byte.xff Byte.xff Byte.xff Byte.xff); None]
                      [Created; Initial] true)
           1 0 (mkTemp Byte.xf1 Byte.xf1 Byte.xf1 Byte.xff));
    [simpl; lia | simpl; lia | reflexivity | lia | discriminate].
Defined.

Lemma run_calls_untouched (cs : list ComputeCall) (p : palette) (i : nat) :
  ~ In i (map call_index cs) ->
  status_at (run_calls cs p) i = status_at p i /\
  data_at (run_calls cs p) i = data_at p i.
Proof.
  revert p. induction cs as [|c cs IH]; intros p Hin; [done|].
  rewrite PaletteFacts.run_calls_cons.
  destruct (IH (compute p (call_index c) (call_fallbackIndex c) (call_value c)))
    as [-> ->].
  { intros H. apply Hin. by right. }
  apply PaletteFacts.compute_other. intros ->. apply Hin. by left.
Qed.

Lemma run_calls_computed_in (cs : list ComputeCall) (p : palette) (i : nat) :
  In i (map call_index cs) -> (i < length (_status p))%nat ->
  status_at (run_calls cs p) i <> Initial.
Proof.
  intros Hin Hi.
  apply in_map_iff in Hin as (c & Hc & Hin).
  apply in_split in Hin as (l1 & l2 & ->).
  rewrite PaletteFacts.run_calls_app, PaletteFacts.run_calls_cons.
  destruct (PaletteFacts.run_calls_lengths l1 p) as [_ Hl1].
  pose proof (PaletteFacts.compute_sets (run_calls l1 p) (call_index c)
                (call_fallbackIndex c) (call_value c)) as Hset.
  rewrite Hc in *.
  destruct (PaletteFacts.run_calls_keeps l2
              (compute (run_calls l1 p) i (call_fallbackIndex c) (call_value c)) i)
    as [-> _]; apply Hset; lia.
Qed.

Lemma seq_split_at (count : nat) (l1 l2 : list nat) (x : nat) :
  l1 ++ x :: l2 = seq 0 count ->
  l1 = seq 0 (length l1) /\ x = length l1 /\ (length l1 < count)%nat.
Proof.
  intros H.
  assert (length (l1 ++ x :: l2) = count) as Hlen by (by rewrite H, length_seq).
  rewrite length_app in Hlen. simpl in Hlen.
  assert (take (length l1) (seq 0 count) = l1) as Ht.
  { rewrite <- H. by rewrite take_app_length. }
  assert (seq 0 count !! length l1 = Some x) as Hx.
  { rewrite <- H. by rewrite list_lookup_middle. }
  apply lookup_seq in Hx as [Hx _].
  split; [|split; [lia|lia]].
  rewrite <- Ht at 1. rewrite take_seq. f_equal. lia.
Qed.

(** In a [finalize] from the fresh state, a colour whose fallback was
    declared before it never receives its own literal: by the time its
    [compute] runs the fallback slot has been computed, so the guard
    [_status[fallbackIndex] != Status::Initial] holds and the slot is a
    copy of the fallback slot, marked [Loaded]. *)
Lemma finalize_fallback_always_copied (count : nat) (l1 l2 : list ComputeCall)
    (c : ComputeCall) :
  PaletteSpec.calls_ok count (l1 ++ c :: l2) ->
  0 <= call_fallbackIndex c < Z.of_nat (call_index c) ->
  status_at (finalize (l1 ++ c :: l2) (fresh count)) (call_index c) = Loaded /\
  data_at (finalize (l1 ++ c :: l2) (fresh count)) (call_index c) =
  data_at (finalize (l1 ++ c :: l2) (fresh count)) (Z.to_nat (call_fallbackIndex c)).
Proof.
  intros Hok Hfb. unfold PaletteSpec.calls_ok in Hok.
  rewrite map_app in Hok. cbn [map] in Hok.
  apply seq_split_at in Hok as (H1 & Hx & Hlt). rewrite length_map in *.
  rewrite PaletteFacts.finalize_unfold. cbn [fresh _ready].
  set (q0 := set_ready (fresh count) true).
  rewrite PaletteFacts.run_calls_app, PaletteFacts.run_calls_cons.
  set (q1 := run_calls l1 q0).
  assert (length (_status q0) = count /\ length (_data q0) = count) as [Ls0 Ld0].
  { unfold q0, fresh; simpl. by rewrite !length_replicate. }
  destruct (PaletteFacts.run_calls_lengths l1 q0) as [Ld1 Ls1]. fold q1 in Ld1, Ls1.
  assert (status_at q1 (call_index c) = Initial) as Hinit.
  { destruct (run_calls_untouched l1 q0 (call_index c)) as [E _].
    - rewrite H1, Hx. intros Hin%in_seq. lia.
    - unfold q1. rewrite E. unfold q0, status_at, fresh; simpl.
      rewrite lookup_replicate_2 by lia. done. }
  assert (status_at q1 (Z.to_nat (call_fallbackIndex c)) <> Initial) as Hcomp.
  { apply run_calls_computed_in; [|lia].
    rewrite H1. apply in_seq. lia. }
  destruct (compute_copies_constructed q1 (call_index c) (call_fallbackIndex c)
              (call_value c)) as [Hs Hd]; [lia|lia|done|lia|done|].
  set (q2 := compute q1 (call_index c) (call_fallbackIndex c) (call_value c)) in *.
  destruct (PaletteFacts.run_calls_keeps l2 q2 (call_index c)) as [-> ->];
    [congruence|].
  assert (Z.to_nat (call_fallbackIndex c) <> call_index c) as Hne by lia.
  destruct (PaletteFacts.compute_other q1 (call_index c) (call_fallbackIndex c)
              (call_value c) _ Hne) as [Es Ed]. fold q2 in Es, Ed.
  destruct (PaletteFacts.run_calls_keeps l2 q2 (Z.to_nat (call_fallbackIndex c)))
    as [_ ->]; [congruence|].
  split; [exact Hs|]. congruence.
Qed.

Lemma finalize_fallback_always_copied_witness :
  status_at
    (finalize ([mkCall 0 (-1) (mkTemp Byte.xff Byte.xff Byte.xff Byte.xff)] ++
               mkCall 1 0 (mkTemp Byte.xf1 Byte.xf1 Byte.xf1 Byte.xff) :: [])
              (fresh 2)) 1 = Loaded.
Proof.
  apply (finalize_fallback_always_copied 2
           [mkCall 0 (-1) (mkTemp Byte.xff Byte.xff Byte.xff Byte.xff)] []
           (mkCall 1 0 (mkTemp Byte.xf1 Byte.xf1 Byte.xf1 Byte.xff)));
    [reflexivity | simpl; lia].
Defined.

(** C1. The palette [windowBg: #ffffff; windowBgOver: #f1f1f1 | windowBg;]
    finalised from the fresh state: [finalize] is emitted as
    [compute(0, -1, ...); compute(1, 0, ...)]; slot 0 is computed from its
    literal and is [Created], not [Loaded]; slot 1 nevertheless receives a
    copy of slot 0 (ff ff ff ff) and is marked [Loaded], where the
    specification asks for its literal default (f1 f1 f1 ff). *)
Theorem finalize_copies_computed_fallback :
  PaletteGen.computes (snd (PaletteGen.run Samples.two_colors)) =
    [mkCall 0 (-1) (mkTemp Byte.xff Byte.xff Byte.xff Byte.xff);
     mkCall 1 0 (mkTemp Byte.xf1 Byte.xf1 Byte.xf1 Byte.xff)] /\
  status_at (PaletteGen.finalize Samples.two_colors (fresh 2)) 0 = Created /\
  status_at (PaletteGen.finalize Samples.two_colors (fresh 2)) 1 = Loaded /\
  data_at (PaletteGen.finalize Samples.two_colors (fresh 2)) 1 =
    Some (mkColorData Byte.xff Byte.xff Byte.xff Byte.xff) /\
  data_at (PaletteGen.finalize Samples.two_colors (fresh 2)) 1 <>
    Some (ColorData_of (mkTemp Byte.xf1 Byte.xf1 Byte.xf1 Byte.xff)).
Proof.
  split; [reflexivity|]. split; [reflexivity|]. split; [reflexivity|].
  split; [reflexivity|]. discriminate.
Qed.

End FinalizeFallback.

Module MatcherFacts.
Local Open Scope string_scope.

(** C7. For the palette [windowBg, windowFg, titleBg] the emitted matcher
    finds every declared name, but the undeclared name "witleBg" is
    answered with the index of [titleBg]: the switch on the second
    character has no label for it, and control falls out of the nested
    switches into the next [case] of the first switch, which only compares
    the characters after the first. *)
Theorem getPaletteIndex_false_match :
  PaletteGen.paletteIndices_ (snd (PaletteGen.run Samples.three_colors)) =
    [("titleBg", 2); ("windowBg", 0); ("windowFg", 1)] /\
  PaletteGen.getPaletteIndex Samples.three_colors "windowBg" = Some 0 /\
  PaletteGen.getPaletteIndex Samples.three_colors "windowFg" = Some 1 /\
  PaletteGen.getPaletteIndex Samples.three_colors "titleBg" = Some 2 /\
  ~ In "witleBg" ["windowBg"; "windowFg"; "titleBg"] /\
  PaletteGen.getPaletteIndex Samples.three_colors "witleBg" = Some 2.
Proof.
  split; [reflexivity|]. split; [reflexivity|]. split; [reflexivity|].
  split; [reflexivity|]. split; [|reflexivity].
  simpl. intros [H|[H|[H|[]]]]; discriminate.
Qed.

(** The same on names that differ in length: with [a, ba, bb] declared,
    "b" (a declared name less its last character) is answered with the
    index of [a]. *)
Lemma getPaletteIndex_false_match_short :
  Matcher.getPaletteIndex [("a", 0); ("ba", 1); ("bb", 2)] "b" = Some 0.
Proof. reflexivity. Qed.

End MatcherFacts.

Module AssignDivergence.
Import Palette AssignSamples.

(** C2. Two assignments in a row on the palette class of two colours.
    [a] has been loaded, so both its slots are [Loaded].  [palette d; d = a;]
    constructs the values of [a] in the slots of [d] but leaves them marked
    [Initial], where [setData], which constructs or assigns in the same
    way, marks the slot [Loaded].  [d = palette();] then finds the source
    slots [Initial] and the destination slots marked [Initial] too, and
    skips them: the values the destination holds are not destroyed, where
    the specification asks that any existing destination value be
    destroyed. *)
Theorem operator_assign_keeps_unmarked_value :
  status_at loaded 0 = Loaded /\
  data_at loaded 0 = Some (mkColorData Byte.x01 Byte.x02 Byte.x03 Byte.x04) /\
  data_at assigned 0 = Some (mkColorData Byte.x01 Byte.x02 Byte.x03 Byte.x04) /\
  status_at assigned 0 = Initial /\
  status_at (setData (fresh count) 0 (data_at loaded 0)) 0 = Loaded /\
  status_at (fresh count) 0 = Initial /\
  status_at emptied 0 = Initial /\
  data_at emptied 0 = Some (mkColorData Byte.x01 Byte.x02 Byte.x03 Byte.x04) /\
  data_at emptied 0 <> None.
Proof.
  split; [reflexivity|]. split; [reflexivity|]. split; [reflexivity|].
  split; [reflexivity|]. split; [reflexivity|]. split; [reflexivity|].
  split; [reflexivity|]. split; [reflexivity|]. discriminate.
Qed.

(** The state between the two assignments satisfies the class invariant:
    it is one the public operations reach. *)
Lemma assigned_wf : PaletteSpec.wf count assigned.
Proof.
  apply PaletteFacts.wf_operator_assign.
  - apply PaletteGenFacts.generated_calls_ok. reflexivity.
  - apply PaletteFacts.wf_fresh.
  - apply (PaletteFacts.wf_load count (fresh count)), PaletteFacts.wf_fresh.
Qed.

End AssignDivergence.

(** ** The unique-value collector *)

Module QMapFacts.
Local Open Scope Z_scope.

(** Keys of a [QMap<int, _>] after an insertion. *)
Lemma insert_keys (k : Z) (v : bool) (m : list (Z * bool)) (z : Z) :
  In z (QMap.keys (QMap.insert Z.compare k v m)) <-> z = k \/ In z (QMap.keys m).
Proof.
  induction m as [|[k' v'] m IH]; simpl.
  - intuition congruence.
  - destruct (Z.compare_spec k k') as [->|Hlt|Hgt]; simpl.
    + intuition congruence.
    + intuition congruence.
    + rewrite IH. intuition congruence.
Qed.

(** Insertion keeps the keys strictly increasing. *)
Lemma insert_sorted (k : Z) (v : bool) (m : list (Z * bool)) :
  StronglySorted Z.lt (QMap.keys m) ->
  StronglySorted Z.lt (QMap.keys (QMap.insert Z.compare k v m)).
Proof.
  induction m as [|[k' v'] m IH]; simpl; intros Hs.
  - repeat constructor.
  - apply StronglySorted_inv in Hs as [Hs Hall].
    destruct (Z.compare_spec k k') as [->|Hlt|Hgt]; simpl.
    + by constructor.
    + constructor; [by constructor|].
      constructor; [done|].
      eapply Forall_impl; [exact Hall|]. simpl. intros; lia.
    + constructor; [by apply IH|].
      apply List.Forall_forall. intros z Hz.
      apply insert_keys in Hz as [->|Hz]; [lia|].
      rewrite List.Forall_forall in Hall. by apply Hall.
Qed.

Lemma sorted_NoDup (l : list Z) : StronglySorted Z.lt l -> List.NoDup l.
Proof.
  induction 1 as [|x l Hs IH Hall]; constructor; [|done].
  intros Hin. rewrite List.Forall_forall in Hall. specialize (Hall x Hin). lia.
Qed.

End QMapFacts.

Module PxNameFacts.
Local Open Scope Z_scope.

Lemma to_uint_nonnil (n : N) : N.to_uint n <> Decimal.Nil.
Proof.
  rewrite <- (DecimalN.Unsigned.of_to n), DecimalN.Unsigned.to_of.
  apply DecimalFacts.unorm_nonnil.
Qed.

Lemma digits_inj (n n' : N) :
  NilZero.string_of_uint (N.to_uint n) = NilZero.string_of_uint (N.to_uint n') ->
  n = n'.
Proof.
  intros H. apply DecimalN.Unsigned.to_uint_inj.
  pose proof (NilZero.usu (N.to_uint n) (to_uint_nonnil n)) as H1.
  pose proof (NilZero.usu (N.to_uint n') (to_uint_nonnil n')) as H2.
  rewrite H in H1. congruence.
Qed.

(** A printed natural number starts with a digit. *)
Lemma digits_head (d : Decimal.uint) :
  exists c s, NilZero.string_of_uint d = String c s /\
              c <> "m"%char /\ c <> "-"%char.
Proof.
  destruct d; simpl; eexists _, _; (split; [reflexivity|]); split; discriminate.
Qed.

Lemma QString_number_inj (x y : Z) :
  QString_number x = QString_number y -> x = y.
Proof.
  unfold QString_number.
  destruct (Z.ltb_spec x 0) as [Hx|Hx], (Z.ltb_spec y 0) as [Hy|Hy]; intros Heq.
  - injection Heq as Heq. apply digits_inj in Heq. lia.
  - destruct (digits_head (N.to_uint (Z.to_N y))) as (c & s & Hd & _ & Hc).
    rewrite Hd in Heq. congruence.
  - destruct (digits_head (N.to_uint (Z.to_N x))) as (c & s & Hd & _ & Hc).
    rewrite Hd in Heq. congruence.
  - apply digits_inj in Heq. lia.
Qed.

Lemma QString_number_head (x : Z) :
  exists c s, QString_number x = String c s /\ c <> "m"%char.
Proof.
  unfold QString_number. destruct (x <? 0).
  - eexists _, _. split; [reflexivity|discriminate].
  - destruct (digits_head (N.to_uint (Z.to_N x))) as (c & s & Hd & Hc & _).
    eauto.
Qed.

Lemma int32_neg_inj (a b : Z) :
  in_int_range a -> in_int_range b -> a < 0 -> b < 0 ->
  int32 (- a) = int32 (- b) -> a = b.
Proof.
  unfold in_int_range, int32. intros Ha Hb Ha0 Hb0 H.
  change (2 ^ 31) with 2147483648 in *. change (2 ^ 32) with 4294967296 in *.
  Z.div_mod_to_equations. lia.
Qed.

(** Distinct pixel values get distinct constant names. *)
Lemma pxValueName_inj (a b : Z) :
  in_int_range a -> in_int_range b ->
  pxValueName a = pxValueName b -> a = b.
Proof.
  intros Ha Hb. unfold pxValueName.
  destruct (Z.ltb_spec a 0) as [Ha0|Ha0], (Z.ltb_spec b 0) as [Hb0|Hb0];
    simpl; intros Heq.
  - injection Heq as Heq. apply QString_number_inj in Heq. by apply int32_neg_inj.
  - destruct (QString_number_head b) as (c & s & Hd & Hc).
    rewrite Hd in Heq. congruence.
  - destruct (QString_number_head a) as (c & s & Hd & Hc).
    rewrite Hd in Heq. congruence.
  - injection Heq as Heq. by apply QString_number_inj.
Qed.

End PxNameFacts.

Module CollectorFacts.
Import structure Collector.
Local Open Scope Z_scope.

(** Induction on variables, through the fields of structs. *)
Lemma Variable_nested_ind (P : Variable_ -> Prop) :
  (forall n copy d,
     match d with
     | DStruct _ (Some fs) => Forall P fs
     | _ => True
     end -> P (mkVariable n (mkValue copy d))) ->
  forall v, P v.
Proof.
  intros H. fix IH 1. intros [n [copy d]]. apply H.
  destruct d as [| | | | | | | | | | | | |nm [fs|]]; try exact I.
  induction fs as [|f fs IHfs]; constructor; [apply IH | exact IHfs].
Qed.

Lemma collects_nil (st : State) : collects st (true, st) [].
Proof. unfold collects; simpl. intuition. Qed.

Lemma collects_insert (st st1 : State) (px : list Z) (v : Z) :
  collects st (true, st1) px ->
  collects st (true, insert_px v st1) (px ++ [v]).
Proof.
  unfold collects; simpl. intros (Hs & Hsub & Hmono & Hcov).
  split; [|split; [|split]].
  - intros H. apply QMapFacts.insert_sorted. auto.
  - intros z Hz. apply QMapFacts.insert_keys in Hz as [->|Hz].
    + right. apply in_or_app. right. by left.
    + destruct (Hsub z Hz); [by left|]. right. apply in_or_app. by left.
  - intros z Hz. apply QMapFacts.insert_keys. right. auto.
  - intros _ z Hz. apply QMapFacts.insert_keys.
    apply in_app_or in Hz as [Hz|[->|[]]]; [right; auto|by left].
Qed.

Lemma collects_same_px (st st1 st2 : State) (ok : bool) (px : list Z) :
  pxValues_ st2 = pxValues_ st1 ->
  collects st (ok, st1) px -> collects st (ok, st2) px.
Proof. unfold collects; simpl. by intros ->. Qed.

(** Two collections in a row. *)
Lemma collects_seq (st st1 : State) (r : bool * State) (px1 px2 : list Z) :
  collects st (true, st1) px1 -> collects st1 r px2 ->
  collects st r (px1 ++ px2).
Proof.
  unfold collects; simpl.
  intros (Hs & Hsub & Hmono & Hcov) (Hs' & Hsub' & Hmono' & Hcov').
  split; [|split; [|split]].
  - auto.
  - intros z Hz. destruct (Hsub' z Hz) as [H|H].
    + destruct (Hsub z H); [by left|]. right. apply in_or_app. by left.
    + right. apply in_or_app. by right.
  - auto.
  - intros Hok z Hz. apply in_app_or in Hz as [Hz|Hz]; auto.
Qed.

(** A collection that failed on the first part. *)
Lemma collects_failed (st st1 : State) (px1 px2 : list Z) :
  collects st (false, st1) px1 -> collects st (false, st1) (px1 ++ px2).
Proof.
  unfold collects; simpl. intros (Hs & Hsub & Hmono & _).
  split; [done|]. split; [|split; [done|discriminate]].
  intros z Hz. destruct (Hsub z Hz); [by left|]. right. apply in_or_app. by left.
Qed.

Lemma collect_part_collects (st : State) (part : monoicon) :
  collects st (true, collect_part st part) (part_pixels_read part).
Proof.
  unfold collect_part, part_pixels_read.
  set (x := data.x (as_Point (part_offset part))).
  set (y := data.y (as_Point (part_offset part))).
  assert (collects st (true, insert_px y (insert_px x st)) [x; y]) as H.
  { apply (collects_insert st (insert_px x st) [x] y).
    apply (collects_insert st st [] x), collects_nil. }
  destruct (negb _); [|exact H].
  eapply collects_same_px; [|exact H]. reflexivity.
Qed.

Lemma parts_collects (parts : list monoicon) (st : State) :
  collects st (true, fold_left collect_part parts st) (flat_map part_pixels_read parts).
Proof.
  revert st. induction parts as [|part parts IH]; intros st.
  - apply collects_nil.
  - cbn [fold_left flat_map].
    eapply collects_seq; [apply collect_part_collects | apply IH].
Qed.

(** The enumeration of a list of variables collects the pixel quantities of
    all of them, as soon as the collector does so on each of them. *)
Lemma enum_collects (l : list Variable_) :
  Forall (fun v => forall st, collects st (collector st v) (pixels_read v)) l ->
  forall st, collects st (enumVariables collector l st) (flat_map pixels_read l).
Proof.
  induction 1 as [|v l Hv Hl IH]; intros st.
  - apply collects_nil.
  - cbn [enumVariables flat_map]. specialize (Hv st).
    destruct (collector st v) as [[|] st1].
    + eapply collects_seq; [exact Hv | apply IH].
    + by apply collects_failed.
Qed.

Lemma collector_struct (n nm : FullName) (fs : list Variable_) (st : State) :
  collector st (mkVariable n (mkValue [] (DStruct nm (Some fs)))) =
  enumVariables collector fs st.
Proof.
  cbn [collector value copyOf isEmpty negb].
  revert st. induction fs as [|f fs IH]; intros st; [reflexivity|].
  cbn [enumVariables]. destruct (collector st f) as [[|] st1]; [apply IH | reflexivity].
Qed.

Lemma pixels_with_struct (part_px : monoicon -> list Z) (n nm : FullName)
    (fs : list Variable_) :
  pixels_with part_px (mkVariable n (mkValue [] (DStruct nm (Some fs)))) =
  flat_map (pixels_with part_px) fs.
Proof.
  cbn [pixels_with isEmpty negb].
  induction fs as [|f fs IH]; [reflexivity|].
  cbn [flat_map]. by rewrite <- IH.
Qed.

(** The collector records exactly the pixel quantities of the variable. *)
Lemma collector_collects (v : Variable_) (st : State) :
  collects st (collector st v) (pixels_read v).
Proof.
  revert st. induction v as [n copy d IH] using Variable_nested_ind. intros st.
  destruct copy as [|c copy]; [|apply collects_nil].
  destruct d as [|z|  |z|s|c|p|s|s|s|m|f|parts|nm [fs|]];
    try apply collects_nil.
  - apply (collects_insert st st [] z), collects_nil.
  - apply (collects_insert st (insert_px (data.x p) st) [data.x p] (data.y p)).
    apply (collects_insert st st [] (data.x p)), collects_nil.
  - apply (collects_insert st (insert_px (data.width s) st) [data.width s]
             (data.height s)).
    apply (collects_insert st st [] (data.width s)), collects_nil.
  - apply (collects_insert st _ [data.left m; data.top m; data.right m] (data.bottom m)).
    apply (collects_insert st _ [data.left m; data.top m] (data.right m)).
    apply (collects_insert st _ [data.left m] (data.top m)).
    apply (collects_insert st st [] (data.left m)), collects_nil.
  - unfold pixels_read. cbn [collector value copyOf isEmpty negb pixels_with].
    assert (collects st (true, insert_px (data.font_size f) st) [data.font_size f]) as H.
    { apply (collects_insert st st [] (data.font_size f)), collects_nil. }
    destruct (_ && _); [|exact H].
    eapply collects_same_px; [|exact H]. reflexivity.
  - apply parts_collects.
  - unfold pixels_read. rewrite collector_struct, pixels_with_struct.
    by apply enum_collects.
  - unfold collects; simpl. intuition (try discriminate).
Qed.

Lemma pxConstants_values (st : State) :
  map snd (pxConstants st) = QMap.keys (pxValues_ st).
Proof.
  unfold pxConstants. rewrite map_map. simpl. apply map_id.
Qed.

Lemma pxConstants_names (st : State) :
  map fst (pxConstants st) = map pxValueName (QMap.keys (pxValues_ st)).
Proof. unfold pxConstants. by rewrite map_map. Qed.

(** Every specified occurrence is among the quantities the collector
    reads. *)
Lemma pixels_of_read (v : Variable_) (z : Z) :
  In z (pixels_of v) -> In z (pixels_read v).
Proof.
  induction v as [n copy d IH] using Variable_nested_ind.
  destruct copy as [|c copy]; [|done].
  destruct d as [|x|  |x|s|c|p|s|s|s|m|f|parts|nm [fs|]]; try done.
  - unfold pixels_of, pixels_read. cbn [pixels_with isEmpty negb].
    rewrite !in_flat_map. intros (part & Hpart & Hz). exists part. split; [done|].
    unfold part_pixels in Hz. by destruct (negb _).
  - unfold pixels_of, pixels_read. rewrite !pixels_with_struct, !in_flat_map.
    intros (f & Hf & Hz). exists f. split; [done|].
    rewrite List.Forall_forall in IH. by apply IH.
Qed.

Lemma module_pixels_subset (variables : list Variable_) (z : Z) :
  In z (module_pixels variables) -> In z (module_pixels_read variables).
Proof.
  unfold module_pixels, module_pixels_read. rewrite !in_flat_map.
  intros (v & Hv & Hz). exists v. split; [done|]. by apply pixels_of_read.
Qed.

(** C8. After a successful collection over a module whose pixel
    quantities are C++ [int]s: every pixel quantity that occurs in the
    module (in Pixels, Point, Size, Margins, Font.size or an Icon part
    offset, aliases left out) is the value of exactly one generated
    constant, however often and wherever it occurs; every generated
    constant is named [pxValueName] of a quantity the collector has read;
    no two constants share a name; and a quantity and its negation, when
    both occur, have two constants with different names. *)
Theorem collector_dedups (variables : list Variable_) (st : State) :
  collectUniqueValues variables = (true, st) ->
  Forall in_int_range (module_pixels_read variables) ->
  (forall v, In v (module_pixels variables) ->
     count_occ Z.eq_dec (map snd (pxConstants st)) v = 1%nat /\
     In (pxValueName v, v) (pxConstants st)) /\
  (forall n v, In (n, v) (pxConstants st) ->
     In v (module_pixels_read variables) /\ n = pxValueName v) /\
  List.NoDup (map fst (pxConstants st)) /\
  (forall v, v <> 0 ->
     In v (module_pixels variables) -> In (- v) (module_pixels variables) ->
     In (pxValueName v, v) (pxConstants st) /\
     In (pxValueName (- v), - v) (pxConstants st) /\
     pxValueName v <> pxValueName (- v)).
Proof.
  intros Hrun Hrange.
  assert (collects init (true, st) (module_pixels_read variables)) as Hc.
  { rewrite <- Hrun. apply enum_collects.
    apply List.Forall_forall. intros v _. apply collector_collects. }
  destruct Hc as (Hs & Hsub & _ & Hcov). simpl in Hs, Hsub, Hcov.
  assert (List.NoDup (QMap.keys (pxValues_ st))) as Hnd.
  { apply QMapFacts.sorted_NoDup, Hs. constructor. }
  assert (forall z, In z (QMap.keys (pxValues_ st)) ->
                    In z (module_pixels_read variables)) as Hsub'.
  { intros z Hz. destruct (Hsub z Hz) as [[]|]; done. }
  assert (forall v, In v (module_pixels variables) ->
                    In v (QMap.keys (pxValues_ st))) as Hkey.
  { intros v Hv. by apply Hcov, module_pixels_subset. }
  assert (forall v, In v (module_pixels variables) ->
                    In (pxValueName v, v) (pxConstants st)) as Hin.
  { intros v Hv. unfold pxConstants. apply in_map_iff. exists v.
    split; [done|]. by apply Hkey. }
  rewrite List.Forall_forall in Hrange.
  split; [|split; [|split]].
  - intros v Hv. split; [|by apply Hin].
    rewrite pxConstants_values.
    apply (proj1 (NoDup_count_occ' Z.eq_dec _) Hnd). by apply Hkey.
  - intros n v Hnv. unfold pxConstants in Hnv.
    apply in_map_iff in Hnv as (k & Hk & Hkin). injection Hk as <- <-.
    split; [by apply Hsub'|done].
  - rewrite pxConstants_names.
    apply NoDup_map_NoDup_ForallPairs; [|exact Hnd].
    intros a b Ha Hb Hab.
    apply PxNameFacts.pxValueName_inj; [apply Hrange, Hsub', Ha|apply Hrange, Hsub', Hb|done].
  - intros v Hv0 Hv Hnv.
    split; [by apply Hin|]. split; [by apply Hin|].
    intros Heq.
    apply PxNameFacts.pxValueName_inj in Heq;
      [lia|by apply Hrange, module_pixels_subset..].
Qed.

Lemma collector_dedups_witness :
  count_occ Z.eq_dec
    (map snd (pxConstants (snd (collectUniqueValues Samples.px_module)))) 12 = 1%nat /\
  In (pxValueName 12, 12) (pxConstants (snd (collectUniqueValues Samples.px_module))).
Proof.
  apply (proj1 (collector_dedups Samples.px_module
                  (snd (collectUniqueValues Samples.px_module)) eq_refl
                  ltac:(apply List.Forall_forall; intros z Hz; simpl in Hz;
                        unfold in_int_range; lia)) 12).
  simpl. tauto.
Defined.

(** The constants of the sample module: 12 occurs four times and -12 once,
    3 and 4 once directly and once more as the aliased offset of the icon
    part; there is one constant for each of -12, 0, 3, 4 and 12. *)
Lemma px_module_constants :
  pxConstants (snd (collectUniqueValues Samples.px_module)) =
  [("pxm12"%string, -12); ("px0"%string, 0); ("px3"%string, 3);
   ("px4"%string, 4); ("px12"%string, 12)].
Proof. reflexivity. Qed.

End CollectorFacts.

(** ** Icon mask composition *)

Module IconFacts.
Import Icon.
Local Open Scope Z_scope.

Section Compose.
Variable pxAdjust : Z -> Z -> Z.
Variable GetModifier : string -> option Modifier.
Variable loadImage : string -> QImage.

(** Registered modifiers that keep the size leave the shape of both images
    as it was. *)
Lemma apply_modifiers_keeps (modifiers : list string) (a b : QImage) :
  List.Forall (fun n => exists m, GetModifier n = Some m /\ keeps_size m) modifiers ->
  exists a' b',
    apply_modifiers GetModifier modifiers a b = Some (a', b') /\
    isNull a' = isNull a /\ width a' = width a /\ height a' = height a /\
    isNull b' = isNull b /\ width b' = width b /\ height b' = height b.
Proof.
  intros Hall. revert a b. induction Hall as [|n ns (m & Hm & Hk) _ IH]; intros a b.
  - exists a, b. simpl. repeat split.
  - cbn [apply_modifiers]. rewrite Hm.
    destruct (Hk a b) as (K1 & K2 & K3 & K4 & K5 & K6).
    destruct (m a b) as [a1 b1]. simpl in *.
    destruct (IH a1 b1) as (a' & b' & -> & J1 & J2 & J3 & J4 & J5 & J6).
    exists a', b'. repeat split; congruence.
Qed.

Lemma iconMaskValuePng_unfold (filepath : string) :
  iconMaskValuePng pxAdjust GetModifier loadImage filepath =
  let path := hd EmptyString (split "-"%char filepath) in
  let modifiers := tl (split "-"%char filepath) in
  let png100x := loadImage (path ++ ".png")%string in
  let png200x := loadImage (path ++ "@2x.png")%string in
  if isNull png100x then None
  else if isNull png200x then None
  else if negb (format png100x =? format png200x) then None
  else if negb (width png100x * 2 =? width png200x)
          || negb (height png100x * 2 =? height png200x) then None
  else
    match apply_modifiers GetModifier modifiers png100x png200x with
    | None => None
    | Some (png100x, png200x) =>
        let png150x := scaled png200x (pxAdjust (width png100x) 6)
                                      (pxAdjust (height png100x) 6) in
        let composed := new_image (width png200x + width png100x)
                                  (height png200x + height png150x)
                                  (format png100x) in
        if isNull composed then None else Some composed
    end.
Proof. reflexivity. Qed.

(** C9. Composition fails with no output whenever the double image is
    not exactly twice the base image in width and in height.  When the
    base image is W x H, the double image 2W x 2H of the same format, the
    modifiers named in the path are registered and do not resize, and the
    pixel-scale function gives positive sizes for positive sizes, the
    composed canvas is 2W + W wide and 2H + height_150 tall, where
    height_150 is the height of the 150% variant, [pxAdjust H 6]. *)
Theorem icon_canvas_size (filepath : string) :
  (width (loadImage (hd EmptyString (split "-"%char filepath) ++ "@2x.png")%string) <>
     2 * width (loadImage (hd EmptyString (split "-"%char filepath) ++ ".png")%string) \/
   height (loadImage (hd EmptyString (split "-"%char filepath) ++ "@2x.png")%string) <>
     2 * height (loadImage (hd EmptyString (split "-"%char filepath) ++ ".png")%string) ->
   iconMaskValuePng pxAdjust GetModifier loadImage filepath = None) /\
  (forall W H fmt : Z,
     loadImage (hd EmptyString (split "-"%char filepath) ++ ".png")%string =
       mkImage false W H fmt ->
     loadImage (hd EmptyString (split "-"%char filepath) ++ "@2x.png")%string =
       mkImage false (2 * W) (2 * H) fmt ->
     0 < W -> 0 < H ->
     List.Forall (fun n => exists m, GetModifier n = Some m /\ keeps_size m)
                 (tl (split "-"%char filepath)) ->
     (forall v, 0 < v -> 0 < pxAdjust v 6) ->
     exists composed,
       iconMaskValuePng pxAdjust GetModifier loadImage filepath = Some composed /\
       width composed = 2 * W + W /\
       height composed =
         2 * H + height_150 pxAdjust (mkImage false W H fmt)
                            (mkImage false (2 * W) (2 * H) fmt) /\
       height_150 pxAdjust (mkImage false W H fmt)
                  (mkImage false (2 * W) (2 * H) fmt) = pxAdjust H 6).
Proof.
  split.
  - intros Hbad. rewrite iconMaskValuePng_unfold. cbv zeta.
    destruct (isNull _); [done|]. destruct (isNull _); [done|].
    destruct (negb (_ =? _)); [done|].
    destruct (Z.eqb_spec
      (width (loadImage (hd EmptyString (split "-"%char filepath) ++ ".png")%string) * 2)
      (width (loadImage (hd EmptyString (split "-"%char filepath) ++ "@2x.png")%string)));
      [|done].
    destruct (Z.eqb_spec
      (height (loadImage (hd EmptyString (split "-"%char filepath) ++ ".png")%string) * 2)
      (height (loadImage (hd EmptyString (split "-"%char filepath) ++ "@2x.png")%string)));
      [|done].
    lia.
  - intros W H fmt H1 H2 HW HH Hmods Hpos.
    rewrite iconMaskValuePng_unfold. cbv zeta. rewrite H1, H2.
    cbn [isNull format width height].
    rewrite Z.eqb_refl.
    assert ((W * 2 =? 2 * W) = true) as -> by lia.
    assert ((H * 2 =? 2 * H) = true) as -> by lia.
    cbn [negb orb].
    destruct (apply_modifiers_keeps _ (mkImage false W H fmt)
                (mkImage false (2 * W) (2 * H) fmt) Hmods)
      as (a & b & -> & A1 & A2 & A3 & B1 & B2 & B3).
    cbn [isNull width height] in *.
    pose proof (Hpos W HW) as PW. pose proof (Hpos H HH) as PH.
    assert (height_150 pxAdjust (mkImage false W H fmt)
              (mkImage false (2 * W) (2 * H) fmt) = pxAdjust H 6) as E150.
    { unfold height_150, scaled. cbn [isNull width height].
      assert ((pxAdjust W 6 <=? 0) = false) as -> by lia.
      assert ((pxAdjust H 6 <=? 0) = false) as -> by lia.
      reflexivity. }
    assert (height (scaled b (pxAdjust (width a) 6) (pxAdjust (height a) 6)) =
            pxAdjust H 6) as Eh.
    { unfold scaled. rewrite B1, A2, A3.
      assert ((pxAdjust W 6 <=? 0) = false) as -> by lia.
      assert ((pxAdjust H 6 <=? 0) = false) as -> by lia.
      reflexivity. }
    rewrite Eh, A2, B2, B3, E150.
    unfold new_image.
    assert ((0 <? 2 * W + W) = true) as -> by lia.
    assert ((0 <? 2 * H + pxAdjust H 6) = true) as -> by lia.
    cbn [andb isNull].
    eexists. split; [reflexivity|]. cbn [width height]. repeat split.
Qed.
End Compose.

(** The example of the specification: a 10x10 base with a 20x20 double
    composes to 30x35; with a 19x20 double nothing is composed. *)
Lemma icon_canvas_size_witness :
  (exists composed,
     iconMaskValuePng Samples.sample_pxAdjust Samples.sample_GetModifier
                      Samples.sample_loadImage "icons/ok-flip_horizontal" =
       Some composed /\
     width composed = 30 /\ height composed = 35) /\
  iconMaskValuePng Samples.sample_pxAdjust Samples.sample_GetModifier
                   Samples.sample_loadImage "icons/bad" = None.
Proof.
  split.
  - destruct (proj2 (icon_canvas_size Samples.sample_pxAdjust Samples.sample_GetModifier
                       Samples.sample_loadImage "icons/ok-flip_horizontal")
                    10 10 5 eq_refl eq_refl eq_refl eq_refl)
      as (composed & Hc & Hw & Hh & H150).
    + constructor; [|constructor].
      exists Samples.sample_flip. split; [reflexivity|].
      intros a b. repeat split.
    + intros v Hv. unfold Samples.sample_pxAdjust. simpl.
      rewrite Z.sgn_pos by lia. rewrite Z.abs_eq by lia.
      replace (3 * v + 1) with (1 * 2 + (3 * v - 1)) by lia.
      rewrite Z.div_add_l by lia.
      pose proof (Z.div_pos (3 * v - 1) 2). lia.
    + exists composed. split; [exact Hc|]. split; [exact Hw|].
      rewrite Hh, H150. reflexivity.
  - apply (proj1 (icon_canvas_size Samples.sample_pxAdjust Samples.sample_GetModifier
                    Samples.sample_loadImage "icons/bad")).
    left. simpl. lia.
Defined.

End IconFacts.

(** ** Further properties of the palette class *)

Module PaletteMore.
Import Palette PaletteSpec PaletteFacts.
Local Open Scope nat_scope.

Lemma palette_eq (p q : palette) :
  _data p = _data q -> _status p = _status q -> _ready p = _ready q -> p = q.
Proof. destruct p, q; simpl; congruence. Qed.

(** The state after the loop of [load] depends on the former state only
    through its [_ready] flag. *)
Lemma load_loop_full (count : nat) (cache : list byte) (p : palette) :
  length (_data p) = count -> length (_status p) = count ->
  load_loop cache (seq 0 count) p =
  mkPalette (map (fun i => Some (cached_color cache i)) (seq 0 count))
            (replicate count Loaded) (_ready p).
Proof.
  intros Hd Hs.
  destruct (load_loop_shape cache (seq 0 count) p) as (Ld & Ls & Lr).
  assert (forall i, i < count ->
            status_at (load_loop cache (seq 0 count) p) i = Loaded /\
            data_at (load_loop cache (seq 0 count) p) i = Some (cached_color cache i))
    as Hall.
  { intros i Hi. apply load_loop_written; [apply in_seq|..]; lia. }
  apply palette_eq; simpl; [| |done].
  - apply list_eq. intros i. rewrite list_lookup_fmap.
    assert (i < count \/ count <= i) as [Hi|Hi] by lia.
    + destruct (Hall i Hi) as [_ Hdi]. unfold data_at in Hdi.
      rewrite lookup_seq_lt by done. simpl.
      destruct (lookup_lt_is_Some_2 (_data (load_loop cache (seq 0 count) p)) i)
        as [cell Hcell]; [lia|].
      rewrite Hcell in *. congruence.
    + rewrite lookup_seq_ge by done. simpl. apply lookup_ge_None_2. lia.
  - apply list_eq. intros i.
    assert (i < count \/ count <= i) as [Hi|Hi] by lia.
    + destruct (Hall i Hi) as [Hsi _]. unfold status_at in Hsi.
      rewrite lookup_replicate_2 by done.
      destruct (lookup_lt_is_Some_2 (_status (load_loop cache (seq 0 count) p)) i)
        as [s Hsome]; [lia|].
      rewrite Hsome in *. simpl in Hsi. congruence.
    + rewrite !lookup_ge_None_2; [done|rewrite length_replicate; lia|lia].
Qed.

Lemma load_ok (count : nat) (p : palette) (cache : list byte) :
  length cache = count * 4 ->
  load count p cache = (load_loop cache (seq 0 count) p, true).
Proof.
  intros Hlen. rewrite load_unfold.
  destruct (Nat.eqb_spec (length cache) (count * 4)); [done|lia].
Qed.

(** X1. A successful [load] determines every slot from the buffer alone: the
    slots it leaves do not depend on what the palette held before, so of two
    loads in a row only the second counts; the [_ready] flag is kept. *)
Theorem load_last_wins (count : nat) (p : palette) (b1 b2 : list byte) :
  length (_data p) = count -> length (_status p) = count ->
  length b2 = count * 4 ->
  load count (fst (load count p b1)) b2 = load count p b2 /\
  _data (fst (load count p b2)) =
    map (fun i => Some (cached_color b2 i)) (seq 0 count) /\
  _status (fst (load count p b2)) = replicate count Loaded /\
  _ready (fst (load count p b2)) = _ready p.
Proof.
  intros Hd Hs Hb2.
  assert (length (_data (fst (load count p b1))) = count /\
          length (_status (fst (load count p b1))) = count /\
          _ready (fst (load count p b1)) = _ready p) as (Hd1 & Hs1 & Hr1).
  { rewrite load_unfold. destruct (negb _); [done|]. simpl.
    destruct (load_loop_shape b1 (seq 0 count) p) as (-> & -> & ->). done. }
  rewrite !(load_ok count _ b2 Hb2). simpl.
  rewrite (load_loop_full count b2 p Hd Hs).
  rewrite (load_loop_full count b2 _ Hd1 Hs1). simpl.
  rewrite Hr1. done.
Qed.

Lemma load_last_wins_witness :
  load 1 (fst (load 1 (fresh 1) [Byte.x01; Byte.x02; Byte.x03; Byte.x04]))
         [Byte.x0a; Byte.x0b; Byte.x0c; Byte.x0d] =
  load 1 (fresh 1) [Byte.x0a; Byte.x0b; Byte.x0c; Byte.x0d].
Proof.
  apply (load_last_wins 1 (fresh 1) [Byte.x01; Byte.x02; Byte.x03; Byte.x04]
           [Byte.x0a; Byte.x0b; Byte.x0c; Byte.x0d] eq_refl eq_refl eq_refl).
Defined.

(** [compute] does nothing on a palette without [Initial] slot. *)
Lemma compute_noop (p : palette) (index : nat) (fb : Z) (v : TempColorData) :
  length (_data p) = length (_status p) ->
  (forall i, i < length (_status p) -> status_at p i <> Initial) ->
  compute p index fb v = p.
Proof.
  intros Hlen Hall.
  assert (index < length (_status p) \/ length (_status p) <= index) as [Hi|Hi] by lia.
  - unfold compute. specialize (Hall index Hi). apply Status_eqb_neq in Hall.
    by rewrite Hall.
  - unfold compute.
    destruct (Status_eqb (status_at p index) Initial); [|done].
    destruct (_ && _); apply palette_eq; simpl; rewrite ?list_insert_ge by lia; done.
Qed.

Lemma run_calls_noop (cs : list ComputeCall) (p : palette) :
  length (_data p) = length (_status p) ->
  (forall i, i < length (_status p) -> status_at p i <> Initial) ->
  run_calls cs p = p.
Proof.
  intros Hlen Hall. induction cs as [|c cs IH]; [done|].
  rewrite run_calls_cons, compute_noop by done. exact IH.
Qed.

(** X2. Whatever the palette held before, [load] followed by [save] gives back
    the loaded buffer, and the [finalize] that [save] runs changes nothing
    but the [_ready] flag: no loaded slot is recomputed. *)
Theorem load_then_save (count : nat) (computes : list ComputeCall)
    (p : palette) (b : list byte) :
  length (_data p) = count -> length (_status p) = count ->
  length b = count * 4 ->
  snd (save count computes (fst (load count p b))) = Some b /\
  finalize computes (fst (load count p b)) = set_ready (fst (load count p b)) true.
Proof.
  intros Hd Hs Hb.
  rewrite (load_ok count p b Hb). cbn [fst].
  rewrite (load_loop_full count b p Hd Hs).
  set (q := mkPalette (map (fun i => Some (cached_color b i)) (seq 0 count))
                      (replicate count Loaded) (_ready p)).
  assert (forall r, run_calls computes (set_ready q r) = set_ready q r) as Hnoop.
  { intros r. apply run_calls_noop; simpl.
    - by rewrite length_map, length_seq, length_replicate.
    - intros i Hi. rewrite length_replicate in Hi.
      unfold status_at; simpl. by rewrite lookup_replicate_2. }
  assert (finalize computes q = set_ready q true) as Hfin.
  { rewrite finalize_unfold. destruct (_ready q) eqn:E; [|apply Hnoop].
    apply palette_eq; done. }
  split; [|exact Hfin].
  rewrite save_unfold. cbn [snd].
  assert ((if negb (_ready q) then finalize computes q else q) = set_ready q true) as ->.
  { destruct (_ready q) eqn:E; simpl; [|exact Hfin]. apply palette_eq; done. }
  rewrite (save_loop_result count _ (map (cached_color b) (seq 0 count))).
  - f_equal. apply (serialize_cached count); [by rewrite length_map, length_seq|lia|].
    intros i Hi. rewrite list_lookup_fmap, lookup_seq_lt by done. done.
  - simpl. by rewrite map_map.
  - by rewrite length_map, length_seq.
Qed.

Lemma load_then_save_witness :
  snd (save 1 [mkCall 0 (-1) (mkTemp Byte.xff Byte.xff Byte.xff Byte.xff)]
         (fst (load 1 (mkPalette [Some (mkColorData Byte.x01 Byte.x02 Byte.x03 Byte.x04)]
                                 [Created] true)
                      [Byte.x0a; Byte.x0b; Byte.x0c; Byte.x0d]))) =
  Some [Byte.x0a; Byte.x0b; Byte.x0c; Byte.x0d].
Proof.
  apply (proj1 (load_then_save 1
           [mkCall 0 (-1) (mkTemp Byte.xff Byte.xff Byte.xff Byte.xff)]
           (mkPalette [Some (mkColorData Byte.x01 Byte.x02 Byte.x03 Byte.x04)]
                      [Created] true)
           [Byte.x0a; Byte.x0b; Byte.x0c; Byte.x0d] eq_refl eq_refl eq_refl)).
Defined.

(** X3. The class invariant ([wf]) holds for a freshly constructed palette and
    is kept by [finalize], [load], [save], [setData] on a valid index and
    [operator=]: in every state these operations can reach, a slot whose
    status is not [Initial] holds an object and a finalised palette has no
    [Initial] slot. *)
Theorem invariant_kept (count : nat) (computes : list ComputeCall)
    (p other : palette) (cache : list byte) (i : nat) (c : ColorData) :
  calls_ok count computes -> wf count p -> wf count other -> i < count ->
  wf count (fresh count) /\
  wf count (finalize computes p) /\
  wf count (fst (load count p cache)) /\
  wf count (fst (save count computes p)) /\
  wf count (setData p i (Some c)) /\
  wf count (operator_assign count computes p other).
Proof.
  intros Hok Hp Ho Hi.
  split; [apply wf_fresh|]. split; [by apply wf_finalize|].
  split; [by apply wf_load|]. split; [|split].
  - rewrite save_unfold. cbn [fst]. destruct (negb _); [by apply wf_finalize|done].
  - by apply wf_setData.
  - by apply wf_operator_assign.
Qed.

Lemma invariant_kept_witness :
  wf 1 (operator_assign 1 [mkCall 0 (-1) (mkTemp Byte.xff Byte.xff Byte.xff Byte.xff)]
          (fresh 1) (fresh 1)).
Proof.
  apply (invariant_kept 1 [mkCall 0 (-1) (mkTemp Byte.xff Byte.xff Byte.xff Byte.xff)]
           (fresh 1) (fresh 1) [] 0 (mkColorData Byte.x01 Byte.x02 Byte.x03 Byte.x04)
           eq_refl (wf_fresh 1) (wf_fresh 1)).
  lia.
Defined.

End PaletteMore.

(** ** Further properties of the palette generator *)

Module QMapStringFacts.

Lemma compare_refl (s : string) : String.compare s s = Eq.
Proof.
  pose proof (String.compare_antisym s s) as H.
  destruct (String.compare s s); [done|discriminate..].
Qed.

Lemma value_insert_eq (k : string) (v d : Z) (m : list (string * Z)) :
  QMap.value String.compare k d (QMap.insert String.compare k v m) = v.
Proof.
  induction m as [|[k' v'] m IH]; simpl.
  - by rewrite compare_refl.
  - destruct (String.compare k k') eqn:E; simpl.
    + by rewrite compare_refl.
    + by rewrite compare_refl.
    + by rewrite E.
Qed.

Lemma value_insert_ne (j k : string) (v d : Z) (m : list (string * Z)) :
  j <> k ->
  QMap.value String.compare j d (QMap.insert String.compare k v m) =
  QMap.value String.compare j d m.
Proof.
  intros Hne.
  assert (String.compare j k <> Eq) as Hjk.
  { intros H. by apply String.compare_eq_iff in H. }
  induction m as [|[k' v'] m IH]; simpl.
  - by destruct (String.compare j k).
  - destruct (String.compare k k') eqn:E; simpl.
    + apply String.compare_eq_iff in E. subst k'.
      by destruct (String.compare j k).
    + by destruct (String.compare j k).
    + destruct (String.compare j k'); [done|exact IH..].
Qed.

Lemma keys_insert (j k : string) (v : Z) (m : list (string * Z)) :
  In j (QMap.keys (QMap.insert String.compare k v m)) <-> j = k \/ In j (QMap.keys m).
Proof.
  induction m as [|[k' v'] m IH]; simpl.
  - intuition congruence.
  - destruct (String.compare k k') eqn:E; simpl.
    + apply String.compare_eq_iff in E. subst k'. intuition congruence.
    + intuition congruence.
    + rewrite IH. intuition congruence.
Qed.

Lemma values_insert (x : Z) (k : string) (v : Z) (m : list (string * Z)) :
  In x (map snd (QMap.insert String.compare k v m)) -> x = v \/ In x (map snd m).
Proof.
  induction m as [|[k' v'] m IH]; simpl.
  - intuition congruence.
  - destruct (String.compare k k'); simpl; intuition congruence.
Qed.

Lemma value_cases (k : string) (d : Z) (m : list (string * Z)) :
  QMap.value String.compare k d m = d \/
  In (QMap.value String.compare k d m) (map snd m).
Proof.
  induction m as [|[k' v'] m IH]; simpl; [by left|].
  destruct (String.compare k k'); [right; by left|..];
    (destruct IH; [by left|right; by right]).
Qed.

Lemma value_absent (k : string) (d : Z) (m : list (string * Z)) :
  ~ In k (QMap.keys m) -> QMap.value String.compare k d m = d.
Proof.
  induction m as [|[k' v'] m IH]; simpl; intros Hin; [done|].
  destruct (String.compare k k') eqn:E.
  - apply String.compare_eq_iff in E. subst k'. exfalso. apply Hin. by left.
  - apply IH. intros H. apply Hin. by right.
  - apply IH. intros H. apply Hin. by right.
Qed.

End QMapStringFacts.

Module PaletteGenMore.
Import PaletteGen QMapStringFacts.
Local Open Scope Z_scope.
Import PaletteGenSpec.

Lemma enum_app {S : Type} (cb : S -> structure.Variable_ -> bool * S)
    (l1 l2 : list structure.Variable_) (st : S) :
  fst (enumVariables cb l1 st) = true ->
  enumVariables cb (l1 ++ l2) st = enumVariables cb l2 (snd (enumVariables cb l1 st)).
Proof.
  revert st. induction l1 as [|v l1 IH]; intros st Hok; [done|].
  cbn [enumVariables app] in *.
  destruct (cb st v) as [[|] st1]; [by apply IH|done].
Qed.

Lemma callback_explicit (st : State) (v : structure.Variable_) :
  structure.TypeTag_eqb (structure.tag (structure.value v)) structure.Color = true ->
  callback st v =
  (true,
   mkState (S (indexInPalette st))
     (QMap.insert String.compare (var_name v) (Z.of_nat (indexInPalette st))
                  (paletteIndices_ st))
     (computes st ++
        [Palette.mkCall (indexInPalette st)
           (QMap.value String.compare (colorFallbackName (structure.value v)) (-1)
              (QMap.insert String.compare (var_name v) (Z.of_nat (indexInPalette st))
                           (paletteIndices_ st)))
           (var_temp v)])
     (checksumString st ++ list_byte_of_string (checksum_entry v))).
Proof. intros Hc. unfold callback. rewrite Hc. reflexivity. Qed.

Lemma resolved_init : resolved [] init.
Proof.
  unfold resolved, init; simpl. repeat split; try done; intros x [].
Qed.

Lemma resolved_step (vars : list structure.Variable_) (v : structure.Variable_)
    (st : State) :
  structure.TypeTag_eqb (structure.tag (structure.value v)) structure.Color = true ->
  ~ In (var_name v) (map var_name vars) ->
  resolved vars st ->
  resolved (vars ++ [v]) (snd (callback st v)).
Proof.
  intros Hc Hnew (Hidx & Hval & Hkeys & Hrange & Hlen & Hcalls).
  rewrite (callback_explicit st v Hc). cbn [snd]. rewrite Hidx.
  set (m' := QMap.insert String.compare (var_name v) (Z.of_nat (length vars))
                         (paletteIndices_ st)).
  assert (forall j u, (vars ++ [v]) !! j = Some u ->
            QMap.value String.compare (var_name u) (-1) m' = Z.of_nat j) as Hval'.
  { intros j u Hj.
    assert (j < length vars \/ length vars <= j)%nat as [Hlt|Hge] by lia.
    - rewrite lookup_app_l in Hj by done.
      unfold m'. rewrite value_insert_ne; [by apply Hval|].
      intros Heq. apply Hnew. rewrite <- Heq. apply in_map.
      apply list_elem_of_In. eapply list_elem_of_lookup_2. exact Hj.
    - rewrite lookup_app_r in Hj by done.
      destruct (j - length vars)%nat eqn:E; [|done].
      injection Hj as <-. unfold m'. rewrite value_insert_eq. f_equal. lia. }
  assert (forall k, In k (QMap.keys m') <-> In k (map var_name (vars ++ [v]))) as Hkeys'.
  { intros k. unfold m'. rewrite keys_insert, map_app, in_app_iff, Hkeys. simpl.
    intuition congruence. }
  assert (forall x, In x (map snd m') -> 0 <= x < Z.of_nat (length (vars ++ [v])))
    as Hrange'.
  { intros x Hx. rewrite length_app. simpl.
    apply values_insert in Hx as [->|Hx]; [lia|].
    specialize (Hrange x Hx). lia. }
  unfold resolved. cbn [indexInPalette paletteIndices_ computes].
  split; [rewrite length_app; simpl; lia|]. split; [exact Hval'|].
  split; [exact Hkeys'|]. split; [exact Hrange'|].
  split; [rewrite !length_app; simpl; lia|].
  intros j u Hj.
  assert (j < length vars \/ length vars <= j)%nat as [Hlt|Hge] by lia.
  - rewrite lookup_app_l in Hj by done.
    destruct (Hcalls j u Hj) as (fb & Hcall & Hb & Hfound & Hnone).
    exists fb. split; [by rewrite lookup_app_l by lia|]. split; [done|]. split.
    + intros i w Hi Hij. rewrite lookup_app_l in Hi by lia. by apply Hfound.
    + intros H. apply Hnone. intros i w Hi Hij. apply (H i w); [|done].
      by rewrite lookup_app_l by lia.
  - rewrite lookup_app_r in Hj by done.
    destruct (j - length vars)%nat eqn:E; [|done].
    injection Hj as <-. assert (j = length vars) as -> by lia.
    eexists. split.
    { rewrite lookup_app_r by lia. rewrite Hlen, Nat.sub_diag. reflexivity. }
    split; [|split].
    + destruct (value_cases (colorFallbackName (structure.value v)) (-1) m')
        as [->|Hin]; [lia|].
      specialize (Hrange' _ Hin). rewrite length_app in Hrange'. simpl in Hrange'. lia.
    + intros i w Hi _ Heq. rewrite <- Heq. by apply Hval'.
    + intros H. apply value_absent. rewrite Hkeys'. intros Hin.
      apply in_map_iff in Hin as (w & Hw & Hin).
      apply list_elem_of_In, list_elem_of_lookup in Hin as [i Hi].
      apply (H i w Hi); [|done].
      apply lookup_lt_Some in Hi. rewrite length_app in Hi. simpl in Hi. lia.
Qed.

Lemma run_resolved (vars : list structure.Variable_) :
  all_colors vars = true -> List.NoDup (map var_name vars) ->
  fst (run vars) = true /\ resolved vars (snd (run vars)).
Proof.
  induction vars as [|v vars IH] using rev_ind; intros Hall Hnd.
  - split; [done|apply resolved_init].
  - unfold all_colors in Hall. rewrite forallb_app in Hall.
    apply andb_true_iff in Hall as [Hall Hv]. simpl in Hv.
    rewrite andb_true_r in Hv.
    rewrite map_app in Hnd. simpl in Hnd.
    apply NoDup_remove in Hnd as [Hnd Hnew]. rewrite app_nil_r in Hnd, Hnew.
    destruct (IH Hall Hnd) as [Hok Hres].
    unfold run in *. rewrite (enum_app callback vars [v] init Hok).
    cbn [enumVariables].
    pose proof (resolved_step vars v _ Hv Hnew Hres) as Hstep.
    rewrite callback_explicit in Hstep by done.
    rewrite callback_explicit by done.
    split; [done|exact Hstep].
Qed.

(** X6. In a palette whose colour names are distinct, [paletteIndices_] gives
    every colour the position of its declaration, and gives -1 for a name
    that is not declared. *)
Theorem palette_indices_lookup (vars : list structure.Variable_) :
  all_colors vars = true -> List.NoDup (map var_name vars) ->
  (forall j v, vars !! j = Some v ->
     QMap.value String.compare (var_name v) (-1)
                (paletteIndices_ (snd (run vars))) = Z.of_nat j) /\
  (forall k, ~ In k (map var_name vars) ->
     QMap.value String.compare k (-1) (paletteIndices_ (snd (run vars))) = -1) /\
  count vars = length vars.
Proof.
  intros Hall Hnd.
  destruct (run_resolved vars Hall Hnd) as (_ & Hidx & Hval & Hkeys & _).
  split; [exact Hval|]. split; [|exact Hidx].
  intros k Hk. apply value_absent. by rewrite Hkeys.
Qed.

Lemma palette_indices_lookup_witness :
  QMap.value String.compare "titleBg"%string (-1)
             (paletteIndices_ (snd (run Samples.three_colors))) = 2.
Proof.
  apply (proj1 (palette_indices_lookup Samples.three_colors eq_refl
                  ltac:(repeat constructor; simpl; intuition discriminate))
               2%nat (Samples.color_variable "titleBg"%string Byte.xf3 Byte.xf3 Byte.xf3
                                             Byte.xff ""%string)).
  reflexivity.
Defined.

(** X7. The [compute] call emitted for the colour declared at position [j] has
    index [j] and the literal of the colour; its fallback index is the
    position of the colour that the alias or fallback names, if that colour
    is declared at or before position [j], and -1 otherwise (a fallback
    that names a colour declared later is dropped).  So the fallback index
    never exceeds the index: [compute] only reads slots of earlier calls. *)
Theorem fallback_resolution (vars : list structure.Variable_) (j : nat)
    (v : structure.Variable_) :
  all_colors vars = true -> List.NoDup (map var_name vars) ->
  vars !! j = Some v ->
  exists fb,
    computes (snd (run vars)) !! j = Some (Palette.mkCall j fb (var_temp v)) /\
    -1 <= fb <= Z.of_nat j /\
    (forall i u, vars !! i = Some u -> (i <= j)%nat ->
       var_name u = colorFallbackName (structure.value v) -> fb = Z.of_nat i) /\
    ((forall i u, vars !! i = Some u -> (i <= j)%nat ->
        var_name u <> colorFallbackName (structure.value v)) -> fb = -1).
Proof.
  intros Hall Hnd Hj.
  destruct (run_resolved vars Hall Hnd) as (_ & _ & _ & _ & _ & _ & Hcalls).
  by apply Hcalls.
Qed.

Lemma fallback_resolution_witness :
  exists fb,
    computes (snd (run Samples.two_colors)) !! 1%nat =
      Some (Palette.mkCall 1 fb
              (var_temp (Samples.color_variable "windowBgOver"%string Byte.xf1 Byte.xf1
                                                Byte.xf1 Byte.xff "windowBg"%string))) /\
    -1 <= fb <= 1.
Proof.
  destruct (fallback_resolution Samples.two_colors 1
              (Samples.color_variable "windowBgOver"%string Byte.xf1 Byte.xf1 Byte.xf1
                                      Byte.xff "windowBg"%string)
              eq_refl ltac:(repeat constructor; simpl; intuition discriminate) eq_refl)
    as (fb & Hcall & Hb & _).
  exists fb. split; [exact Hcall | exact Hb].
Defined.

(** X8. The [finalize] generated for a palette leaves no slot [Initial]: from
    any state of the class, afterwards every slot holds an object and the
    palette is ready. *)
Theorem finalize_completes (vars : list structure.Variable_) (p : Palette.palette)
    (i : nat) :
  all_colors vars = true -> PaletteSpec.wf (count vars) p -> (i < count vars)%nat ->
  Palette.status_at (finalize vars p) i <> Palette.Initial /\
  is_Some (Palette.data_at (finalize vars p) i) /\
  Palette._ready (finalize vars p) = true.
Proof.
  intros Hall Hwf Hi.
  destruct (PaletteGenFacts.generated_calls_ok vars Hall) as [Hok _].
  destruct (PaletteFacts.wf_finalize (count vars) _ p Hok Hwf) as (_ & _ & Hc & Hr).
  assert (Palette._ready (finalize vars p) = true) as Hready
    by apply PaletteFacts.finalize_ready.
  pose proof (Hr Hready i Hi) as Hst.
  split; [exact Hst|]. split; [by apply Hc|exact Hready].
Qed.

Lemma finalize_completes_witness :
  Palette.status_at (finalize Samples.two_colors (Palette.fresh 2)) 1 <> Palette.Initial.
Proof.
  apply (finalize_completes Samples.two_colors (Palette.fresh 2) 1 eq_refl
           (PaletteFacts.wf_fresh 2)).
  change (1 < 2)%nat. lia.
Defined.

End PaletteGenMore.

(** ** The emitted matcher is well formed *)

Module StringFacts.

Lemma length_append (s1 s2 : string) :
  String.length (s1 ++ s2) = (String.length s1 + String.length s2)%nat.
Proof. induction s1 as [|c s1 IH]; simpl; [done|by rewrite IH]. Qed.

Lemma length_substring (s : string) (n m : nat) :
  (n + m <= String.length s)%nat -> String.length (substring n m s) = m.
Proof.
  revert n m. induction s as [|c s IH]; intros n m H; simpl in H.
  - assert (n = 0 /\ m = 0)%nat as [-> ->] by lia. done.
  - destruct n as [|n]; destruct m as [|m]; simpl; try done.
    + rewrite IH; [done|lia].
    + apply IH. lia.
    + apply IH. lia.
Qed.

Lemma size_chop1 (s : string) :
  s <> EmptyString -> QString_size (QString_chop1 s) = QString_size s - 1.
Proof.
  intros Hne. unfold QString_size, QString_chop1.
  destruct s as [|c s]; [done|].
  rewrite length_substring by (simpl; lia). simpl String.length. lia.
Qed.

Lemma size_set (s : string) (i : Z) (c : ascii) :
  0 <= i < QString_size s -> QString_size (QString_set s i c) = QString_size s.
Proof.
  unfold QString_size, QString_set. intros Hi.
  rewrite length_append. simpl String.length.
  rewrite !length_substring by lia. lia.
Qed.

Lemma size_snoc (s : string) (c : ascii) :
  QString_size (s ++ String c EmptyString) = QString_size s + 1.
Proof. unfold QString_size. rewrite length_append. simpl. lia. Qed.

Lemma isEmpty_size (s : string) :
  QString_isEmpty s = false -> 0 < QString_size s.
Proof. destruct s; [done|]. unfold QString_size. simpl. lia. Qed.

End StringFacts.

Module MatcherMore.
Import Matcher MatcherSpec StringFacts.
Local Open Scope Z_scope.

Lemma run_guard_app (g : option Z) (l1 l2 : list Stmt) :
  run_guard g (l1 ++ l2) =
  match run_guard g l1 with
  | Some g' => run_guard g' l2
  | None => None
  end.
Proof.
  revert g. induction l1 as [|s l1 IH]; intros g; simpl; [done|].
  destruct (step_guard g s); [apply IH|done].
Qed.

Lemma return_indices_app (l1 l2 : list Stmt) :
  return_indices (l1 ++ l2) = return_indices l1 ++ return_indices l2.
Proof. unfold return_indices. apply flat_map_app. Qed.

(** Appending a statement that is not a [return] and is legal without a
    pending test. *)
Lemma gen_inv_emit (idxs : list Z) (st : GenState) (s : Stmt) (a : Z) (p : string) :
  step_guard None s = Some None -> return_indices [s] = [] ->
  QString_size p = a ->
  gen_inv idxs st ->
  gen_inv idxs (mkGen a p (out (emit st s))).
Proof.
  intros Hs Hr Hp (_ & Hg & Hi). unfold gen_inv; simpl.
  split; [done|]. split.
  - rewrite run_guard_app, Hg. simpl. by rewrite Hs.
  - rewrite return_indices_app, Hr, app_nil_r. done.
Qed.

Lemma close_loop_inv (idxs : list Z) (fuel : nat) (name : string) (st : GenState) :
  gen_inv idxs st -> (String.length (prefix st) < fuel)%nat ->
  gen_inv idxs (close_loop fuel name st) /\
  QString_size (prefix (close_loop fuel name st)) <= QString_size name.
Proof.
  revert st. induction fuel as [|fuel IH]; intros st Hinv Hfuel; [lia|].
  cbn [close_loop].
  destruct (_ || _) eqn:Hcond.
  - assert (prefix st <> EmptyString) as Hne.
    { intros He. rewrite He in Hcond. simpl in Hcond.
      rewrite orb_false_r in Hcond. apply Z.ltb_lt in Hcond.
      unfold QString_size in Hcond. simpl in Hcond. lia. }
    pose proof (size_chop1 (prefix st) Hne) as Hsz.
    destruct Hinv as (Hp & Hg & Hi).
    apply IH.
    + apply (gen_inv_emit idxs st CloseSwitch); [done|done| |done].
      cbn [emit prefix already]. lia.
    + cbn [emit prefix out already]. unfold QString_size in Hsz.
      destruct (prefix st); [done|]. simpl in *. lia.
  - split; [done|]. apply orb_false_iff in Hcond as [Hlt _].
    apply Z.ltb_ge in Hlt. done.
Qed.

Lemma case_step_inv (idxs : list Z) (name : string) (st : GenState) :
  gen_inv idxs st -> QString_size (prefix st) <= QString_size name ->
  gen_inv idxs (case_step name st) /\
  QString_size (prefix (case_step name st)) <= QString_size name /\
  0 <= already (case_step name st).
Proof.
  intros Hinv Hle. pose proof Hinv as (Hp & Hg & Hi).
  assert (0 <= already st) as H0.
  { rewrite <- Hp. unfold QString_size. lia. }
  unfold case_step. destruct (_ && _) eqn:Hcond; [|done].
  apply andb_true_iff in Hcond as [Hne _]. apply negb_true_iff in Hne.
  apply isEmpty_size in Hne.
  assert (QString_size
            (QString_set (prefix st) (already st - 1) (QString_at name (already st - 1))) =
          QString_size (prefix st)) as Hsz.
  { apply size_set. lia. }
  split; [|split].
  - apply (gen_inv_emit idxs st (CaseLabel _)); [done|done| |done].
    cbn [emit prefix already]. lia.
  - cbn [emit prefix already out]. lia.
  - done.
Qed.

(** The state of the emitted code after the second [while]: either
    nothing is pending, and then the name is wholly matched or differs
    from the next name within the prefix; or [if (size == n)] is pending
    for the size of the name, and then the next name is the prefix. *)
Lemma open_loop_inv (idxs : list Z) (fuel : nat) (name next : string) (st : GenState) :
  gen_inv idxs st -> 0 <= already st <= QString_size name ->
  QString_size name - already st < Z.of_nat fuel ->
  exists g,
    run_guard None (out (open_loop fuel name next st)) = Some g /\
    incl (return_indices (out (open_loop fuel name next st))) idxs /\
    QString_size (prefix (open_loop fuel name next st)) =
      already (open_loop fuel name next st) /\
    0 <= already (open_loop fuel name next st) <= QString_size name /\
    match g with
    | None =>
        already (open_loop fuel name next st) = QString_size name \/
        String.eqb (QString_mid name 0 (already (open_loop fuel name next st)))
                   (QString_mid next 0 (already (open_loop fuel name next st))) = false
    | Some n =>
        n = QString_size name /\
        already (open_loop fuel name next st) < QString_size name /\
        String.eqb (QString_mid name 0 (already (open_loop fuel name next st)))
                   (QString_mid next 0 (already (open_loop fuel name next st))) = true
    end.
Proof.
  revert st. induction fuel as [|fuel IH]; intros st Hinv Hrange Hfuel; [lia|].
  pose proof Hinv as (Hp & Hg & Hi).
  cbn [open_loop].
  destruct (Z.ltb_spec (already st) (QString_size name)) as [Hlt|Hge].
  - destruct (String.eqb (QString_mid name 0 (already st))
                         (QString_mid next 0 (already st))) eqn:Heq; cbn [negb].
    + destruct (Z.leb_spec (QString_size next) (already st)) as [Hnext|Hnext].
      * exists (Some (QString_size name)). cbn [emit out prefix already].
        split; [rewrite run_guard_app, Hg; done|].
        split; [rewrite return_indices_app; simpl; by rewrite app_nil_r|].
        split; [done|]. split; [lia|]. done.
      * apply IH.
        -- unfold gen_inv, emit. cbn [out prefix already]. split; [|split].
           ++ rewrite size_snoc. lia.
           ++ rewrite !run_guard_app, Hg. simpl.
              assert ((0 <=? already st) = true) as -> by lia. done.
           ++ rewrite !return_indices_app. simpl. by rewrite !app_nil_r.
        -- unfold emit. cbn [out prefix already]. lia.
        -- unfold emit. cbn [out prefix already]. lia.
    + exists None. split; [done|]. split; [done|]. split; [done|].
      split; [lia|]. by right.
  - exists None. split; [done|]. split; [done|]. split; [done|].
    split; [lia|]. left. lia.
Qed.

Lemma size_mid_end (name : string) (a : Z) :
  0 <= a <= QString_size name ->
  QString_size (QString_mid_end name a) = QString_size name - a.
Proof.
  intros Ha. unfold QString_mid_end, QString_mid, QString_size in *. simpl.
  rewrite length_substring by lia. lia.
Qed.

Lemma name_step_inv (idxs : list Z) (name next : string) (index : Z) (st : GenState) :
  gen_inv idxs st -> In index idxs ->
  gen_inv idxs (name_step name index next st).
Proof.
  intros Hinv Hin. unfold name_step.
  destruct (close_loop_inv idxs (S (String.length (prefix st))) name st Hinv)
    as [Hinv1 Hle1]; [lia|].
  set (st1 := close_loop (S (String.length (prefix st))) name st) in *.
  destruct (case_step_inv idxs name st1 Hinv1 Hle1) as (Hinv2 & Hle2 & H0).
  set (st2 := case_step name st1) in *.
  pose proof Hinv2 as (Hp2 & _ & _).
  destruct (open_loop_inv idxs (S (String.length name)) name next st2 Hinv2)
    as (g & Hg & Hi & Hp & Hrange & Hcase).
  { lia. }
  { unfold QString_size. lia. }
  set (st3 := open_loop (S (String.length name)) name next st2) in *.
  unfold return_step, gen_inv. cbn [emit out prefix already].
  split; [done|]. split.
  - rewrite run_guard_app, Hg. cbn [run_guard].
    destruct g as [n|].
    + destruct Hcase as (-> & Hlt & Heq). rewrite Heq.
      assert ((QString_size name =? already st3) = false) as -> by lia.
      assert ((already st3 =? QString_size name) = false) as -> by lia.
      cbn [orb negb step_guard].
      assert ((0 <=? already st3) && (0 <=? QString_size name - already st3)
              && (already st3 + (QString_size name - already st3) =? QString_size name)
              = true) as -> by lia.
      done.
    + destruct (Z.eqb_spec (already st3) (QString_size name)) as [He|Hne].
      * rewrite He, Z.eqb_refl. done.
      * destruct Hcase as [Hc|Hc]; [lia|]. rewrite Hc.
        rewrite orb_true_r. cbn [negb step_guard].
        assert ((0 <=? already st3) && (0 <=? QString_size name - already st3)
                && (already st3 + (QString_size name - already st3) =? QString_size name)
                = true) as -> by lia.
        done.
  - rewrite return_indices_app. simpl.
    apply incl_app; [done|]. intros x [<-|[]]. done.
Qed.

Lemma names_loop_inv (idxs : list Z) (entries : list (string * Z)) (st : GenState) :
  gen_inv idxs st -> incl (map snd entries) idxs ->
  gen_inv idxs (names_loop entries st).
Proof.
  revert st. induction entries as [|[name index] rest IH]; intros st Hinv Hincl;
    [done|].
  cbn [names_loop]. apply IH.
  - apply name_step_inv; [done|]. apply Hincl. by left.
  - intros x Hx. apply Hincl. by right.
Qed.

Lemma final_loop_inv (idxs : list Z) (fuel : nat) (st : GenState) :
  gen_inv idxs st -> gen_inv idxs (final_loop fuel st).
Proof.
  revert st. induction fuel as [|fuel IH]; intros st Hinv; [done|].
  cbn [final_loop]. destruct (QString_isEmpty (prefix st)) eqn:He; [done|].
  cbn [negb]. apply IH.
  destruct Hinv as (Hp & Hg & Hi).
  apply (gen_inv_emit idxs st CloseSwitch); [done|done| |done].
  cbn [emit prefix already]. rewrite size_chop1; [lia|].
  by destruct (prefix st).
Qed.

Lemma generate_well_formed (m : list (string * Z)) :
  well_formed (generate m) /\ incl (return_indices (generate m)) (map snd m).
Proof.
  unfold generate.
  assert (gen_inv (map snd m) (mkGen 0 EmptyString [])) as H0.
  { unfold gen_inv; simpl. repeat split. intros x []. }
  pose proof (names_loop_inv (map snd m) (rev m) _ H0) as H1.
  pose proof (final_loop_inv (map snd m)
                (S (String.length (prefix (names_loop (rev m) (mkGen 0 EmptyString [])))))
                _ (H1 ltac:(intros x Hx; rewrite map_rev in Hx; by apply in_rev in Hx)))
    as (_ & Hg & Hi).
  done.
Qed.

(** *** Executing well-formed code *)

Lemma find_case_guard (c : ascii) (code : list Stmt) :
  forall (g : option Z) (d : nat),
    run_guard g code = Some None ->
    run_guard None (find_case c d code) = Some None /\
    (length (find_case c d code) <= length code)%nat /\
    incl (return_indices (find_case c d code)) (return_indices code).
Proof.
  induction code as [|s rest IH]; intros g d Hg.
  - simpl. split; [done|]. split; [done|]. intros x [].
  - simpl in Hg. destruct (step_guard g s) as [g'|] eqn:Hs; [|done].
    assert (forall d', run_guard None (find_case c d' rest) = Some None /\
              (length (find_case c d' rest) <= length (s :: rest))%nat /\
              incl (return_indices (find_case c d' rest)) (return_indices (s :: rest)))
      as Hrec.
    { intros d'. destruct (IH g' d' Hg) as (H1 & H2 & H3).
      split; [done|]. split; [simpl; lia|].
      intros x Hx. change (s :: rest) with ([s] ++ rest).
      rewrite return_indices_app. apply in_or_app. right. by apply H3. }
    assert (g' = None ->
            run_guard None rest = Some None /\
            (length rest <= length (s :: rest))%nat /\
            incl (return_indices rest) (return_indices (s :: rest))) as Hhere.
    { intros ->. split; [done|]. split; [simpl; lia|].
      intros x Hx. change (s :: rest) with ([s] ++ rest).
      rewrite return_indices_app. apply in_or_app. by right. }
    destruct s as [| c' | n | k | se cmp idx]; cbn [find_case].
    + destruct g; [done|]. injection Hs as <-.
      destruct d; [by apply Hhere | apply Hrec].
    + destruct g; [done|]. injection Hs as <-.
      destruct d; [|apply Hrec].
      destruct (Ascii.eqb c c'); [by apply Hhere | apply Hrec].
    + apply Hrec.
    + apply Hrec.
    + apply Hrec.
Qed.

Lemma skip_switch_guard (code : list Stmt) :
  forall (g : option Z) (d : nat),
    run_guard g code = Some None ->
    run_guard None (skip_switch d code) = Some None /\
    (length (skip_switch d code) <= length code)%nat /\
    incl (return_indices (skip_switch d code)) (return_indices code).
Proof.
  induction code as [|s rest IH]; intros g d Hg.
  - simpl. split; [done|]. split; [done|]. intros x [].
  - simpl in Hg. destruct (step_guard g s) as [g'|] eqn:Hs; [|done].
    assert (forall d', run_guard None (skip_switch d' rest) = Some None /\
              (length (skip_switch d' rest) <= length (s :: rest))%nat /\
              incl (return_indices (skip_switch d' rest)) (return_indices (s :: rest)))
      as Hrec.
    { intros d'. destruct (IH g' d' Hg) as (H1 & H2 & H3).
      split; [done|]. split; [simpl; lia|].
      intros x Hx. change (s :: rest) with ([s] ++ rest).
      rewrite return_indices_app. apply in_or_app. right. by apply H3. }
    destruct s as [| c' | n | k | se cmp idx]; cbn [skip_switch]; try apply Hrec.
    destruct g; [done|]. injection Hs as <-.
    destruct d; [|apply Hrec].
    split; [done|]. split; [simpl; lia|].
    intros x Hx. by simpl.
Qed.

Lemma memcmp_defined (input : string) (a len : Z) (s : string) :
  a + len = QString_size input -> exists b, memcmp_eq input a s len = Some b.
Proof.
  intros H. unfold memcmp_eq.
  assert ((QString_size input <? a + len) = false) as -> by lia.
  eauto.
Qed.

(** Well-formed code has a defined result on every input: it returns -1
    or the index of one of its [return] statements. *)
Lemma exec_defined (input : string) (fuel : nat) :
  forall code,
    run_guard None code = Some None -> (length code < fuel)%nat ->
    exists r, exec fuel input code = Some r /\
              (r = -1 \/ In r (return_indices code)).
Proof.
  induction fuel as [|fuel IH]; intros code Hg Hlen; [lia|].
  destruct code as [|s rest]; [exists (-1); by split; [|left]|].
  assert (forall rest',
            run_guard None rest' = Some None ->
            (length rest' <= length rest)%nat ->
            incl (return_indices rest') (return_indices (s :: rest)) ->
            exists r, exec fuel input rest' = Some r /\
                      (r = -1 \/ In r (return_indices (s :: rest)))) as Hgo.
  { intros rest' Hg' Hl' Hincl.
    destruct (IH rest' Hg') as (r & Hr & Hin); [simpl in Hlen; lia|].
    exists r. split; [done|]. destruct Hin as [->|Hin]; [by left|right; by apply Hincl]. }
  assert (incl (return_indices rest) (return_indices (s :: rest))) as Htail.
  { intros x Hx. change (s :: rest) with ([s] ++ rest).
    rewrite return_indices_app. apply in_or_app. by right. }
  simpl in Hg.
  destruct s as [| c' | n | k | se cmp idx]; cbn [step_guard] in Hg.
  - cbn [exec]. by apply Hgo.
  - cbn [exec]. by apply Hgo.
  - destruct rest as [|s' rest']; [done|]. simpl in Hg.
    destruct s' as [| | | | se cmp idx]; try done.
    destruct se as [z|]; destruct cmp as [[[a s0] len]|]; simpl in Hg; try done.
    destruct ((0 <=? a) && (0 <=? len) && (a + len =? n)) eqn:Hc; [|done].
    cbn [exec].
    destruct (Z.eqb_spec (QString_size input) n) as [He|Hne].
    + destruct (memcmp_defined input a len s0) as [b Hb]; [lia|].
      cbn [eval_return]. rewrite Hb. simpl.
      destruct b; eexists; (split; [reflexivity|]); [right|by left].
      simpl. by left.
    + destruct (IH rest' Hg) as (r & Hr & Hin); [simpl in Hlen; lia|].
      exists r. split; [done|]. destruct Hin as [->|Hin]; [by left|right].
      simpl. by right.
  - destruct (0 <=? k) eqn:Hk; [|done]. cbn [exec].
    destruct (k <? QString_size input).
    + destruct (find_case_guard (QString_at input k) rest None 0 Hg) as (H1 & H2 & H3).
      apply Hgo; [done|done|]. intros x Hx. apply Htail. by apply H3.
    + destruct (skip_switch_guard rest None 0 Hg) as (H1 & H2 & H3).
      apply Hgo; [done|done|]. intros x Hx. apply Htail. by apply H3.
  - cbn [exec].
    destruct se as [n|]; destruct cmp as [[[a s0] len]|]; simpl in Hg; try done.
    + destruct ((0 <=? a) && (0 <=? len) && (a + len =? n)) eqn:Hc; [|done].
      cbn [eval_return].
      destruct (Z.eqb_spec (QString_size input) n) as [He|Hne].
      * destruct (memcmp_defined input a len s0) as [b Hb]; [lia|].
        rewrite Hb. simpl.
        destruct b; eexists; (split; [reflexivity|]); [right; by left|by left].
      * exists (-1). split; [done|by left].
    + cbn [eval_return].
      destruct (QString_size input =? n); eexists; (split; [reflexivity|]);
        [right; by left|by left].
Qed.

(** X9. The matcher emitted for any [paletteIndices_] is well formed: it never
    reads a character without having compared the size first, every [if
    (size == n)] guards a [return], and on every input it returns -1 or one
    of the indices of the map, never anything else. *)
Theorem getPaletteIndex_defined (m : list (string * Z)) (name : string) :
  well_formed (generate m) /\
  exists r, getPaletteIndex m name = Some r /\ (r = -1 \/ In r (map snd m)).
Proof.
  destruct (generate_well_formed m) as [Hwf Hincl]. split; [exact Hwf|].
  unfold getPaletteIndex.
  destruct (exec_defined name (S (length (generate m))) (generate m) Hwf)
    as (r & Hr & Hin); [lia|].
  exists r. split; [exact Hr|]. destruct Hin as [->|Hin]; [by left|right].
  by apply Hincl.
Qed.

End MatcherMore.

Module PaletteApiFacts.
Import Palette PaletteApi.
Local Open Scope Z_scope.

(** Every index registered by the enumeration is below the next index. *)
Lemma indices_range (vars : list structure.Variable_) (st : PaletteGen.State) :
  (forall x, In x (map snd (PaletteGen.paletteIndices_ st)) ->
             0 <= x < Z.of_nat (PaletteGen.indexInPalette st)) ->
  forall x,
    In x (map snd (PaletteGen.paletteIndices_
                     (snd (enumVariables PaletteGen.callback vars st)))) ->
    0 <= x < Z.of_nat (PaletteGen.indexInPalette
                         (snd (enumVariables PaletteGen.callback vars st))).
Proof.
  revert st. induction vars as [|v vars IH]; intros st Hst; [done|].
  cbn [enumVariables].
  assert (forall x,
            In x (map snd (PaletteGen.paletteIndices_ (snd (PaletteGen.callback st v)))) ->
            0 <= x < Z.of_nat (PaletteGen.indexInPalette (snd (PaletteGen.callback st v))))
    as Hstep.
  { intros x Hx. unfold PaletteGen.callback in *.
    destruct (negb _); cbn [snd PaletteGen.paletteIndices_ PaletteGen.indexInPalette] in *;
      (apply QMapStringFacts.values_insert in Hx as [->|Hx];
       [lia | specialize (Hst x Hx); lia]). }
  destruct (PaletteGen.callback st v) as [[|] st1]; [by apply IH|done].
Qed.

(** On every input the generated [getPaletteIndex] returns -1 or an index
    below the number of colours. *)
Lemma index_in_range (vars : list structure.Variable_) (name : string) :
  exists r, PaletteGen.getPaletteIndex vars name = Some r /\
            -1 <= r < Z.of_nat (PaletteGen.count vars).
Proof.
  unfold PaletteGen.getPaletteIndex, Matcher.getPaletteIndex.
  set (m := PaletteGen.paletteIndices_ (snd (PaletteGen.run vars))).
  destruct (MatcherMore.generate_well_formed m) as [Hwf Hincl].
  destruct (MatcherMore.exec_defined name (S (length (Matcher.generate m)))
              (Matcher.generate m) Hwf) as (r & Hr & Hin); [lia|].
  exists r. split; [exact Hr|].
  destruct Hin as [->|Hin]; [lia|].
  apply Hincl, (indices_range vars PaletteGen.init) in Hin; [|intros x []].
  unfold PaletteGen.count, PaletteGen.run. lia.
Qed.

(** X10. [setColor(name, r, g, b, a)] always has a defined outcome.  When it
    fails the palette is unchanged; when it succeeds exactly one slot, with
    an index below the number of colours, has become [Loaded] with the
    given colour, and every other slot and the [_ready] flag are as
    before. *)
Theorem setColor_effect (vars : list structure.Variable_) (p : palette)
    (name : string) (r g b a : byte) :
  length (_status p) = PaletteGen.count vars ->
  length (_data p) = PaletteGen.count vars ->
  exists p' ok,
    setColor vars p name r g b a = Some (p', ok) /\
    (ok = false -> p' = p /\ PaletteGen.getPaletteIndex vars name = Some (-1)) /\
    (ok = true ->
     exists index,
       PaletteGen.getPaletteIndex vars name = Some (Z.of_nat index) /\
       (index < PaletteGen.count vars)%nat /\
       status_at p' index = Loaded /\
       data_at p' index = Some (mkColorData r g b a) /\
       (forall j, j <> index ->
          status_at p' j = status_at p j /\ data_at p' j = data_at p j) /\
       _ready p' = _ready p).
Proof.
  intros Hs Hd. unfold setColor.
  destruct (index_in_range vars name) as (idx & -> & Hrange).
  destruct (Z.leb_spec 0 idx) as [Hpos|Hneg].
  - eexists _, true. split; [reflexivity|]. split; [done|]. intros _.
    exists (Z.to_nat idx). rewrite Z2Nat.id by done.
    split; [done|]. split; [lia|].
    split; [apply PaletteFacts.setData_status; lia|].
    split; [apply PaletteFacts.setData_data; lia|].
    split; [intros j Hj; by apply PaletteFacts.setData_other|].
    by destruct (PaletteFacts.setData_shape p (Z.to_nat idx)
                   (Some (mkColorData r g b a))) as (_ & _ & ->).
  - exists p, false. split; [reflexivity|]. split; [|done]. intros _.
    split; [done|]. f_equal. lia.
Qed.

Lemma setColor_effect_witness :
  exists p' ok,
    setColor Samples.two_colors (fresh 2) "windowBg" Byte.x01 Byte.x02 Byte.x03 Byte.x04 =
    Some (p', ok).
Proof.
  destruct (setColor_effect Samples.two_colors (fresh 2) "windowBg"
              Byte.x01 Byte.x02 Byte.x03 Byte.x04 eq_refl eq_refl)
    as (p' & ok & H & _).
  exists p', ok. exact H.
Defined.

(** X11. [setColor(name, from)] always has a defined outcome.  It succeeds only
    if the slot found for [from] is [Loaded]; then the slot found for
    [name] has become [Loaded] with a copy of that value and every other
    slot is as before.  When it fails the palette is unchanged. *)
Theorem setColor_from_effect (vars : list structure.Variable_) (p : palette)
    (name from : string) :
  length (_status p) = PaletteGen.count vars ->
  length (_data p) = PaletteGen.count vars ->
  exists p' ok,
    setColor_from vars p name from = Some (p', ok) /\
    (ok = false -> p' = p) /\
    (ok = true ->
     exists nameIndex fromIndex,
       PaletteGen.getPaletteIndex vars name = Some (Z.of_nat nameIndex) /\
       PaletteGen.getPaletteIndex vars from = Some (Z.of_nat fromIndex) /\
       (nameIndex < PaletteGen.count vars)%nat /\
       (fromIndex < PaletteGen.count vars)%nat /\
       status_at p fromIndex = Loaded /\
       status_at p' nameIndex = Loaded /\
       data_at p' nameIndex = data_at p fromIndex /\
       (forall j, j <> nameIndex ->
          status_at p' j = status_at p j /\ data_at p' j = data_at p j) /\
       _ready p' = _ready p).
Proof.
  intros Hs Hd. unfold setColor_from.
  destruct (index_in_range vars name) as (ni & -> & Hn).
  destruct (index_in_range vars from) as (fi & -> & Hf).
  destruct ((0 <=? ni) && (0 <=? fi)
            && Status_eqb (status_at p (Z.to_nat fi)) Loaded) eqn:Hc.
  - apply andb_true_iff in Hc as [Hc Hl]. apply andb_true_iff in Hc as [Hni Hfi].
    apply Z.leb_le in Hni, Hfi. apply PaletteFacts.Status_eqb_eq in Hl.
    eexists _, true. split; [reflexivity|]. split; [done|]. intros _.
    exists (Z.to_nat ni), (Z.to_nat fi). rewrite !Z2Nat.id by done.
    split; [done|]. split; [done|]. split; [lia|]. split; [lia|].
    split; [done|].
    split; [apply PaletteFacts.setData_status; lia|].
    split; [apply PaletteFacts.setData_data; lia|].
    split; [intros j Hj; by apply PaletteFacts.setData_other|].
    by destruct (PaletteFacts.setData_shape p (Z.to_nat ni)
                   (data_at p (Z.to_nat fi))) as (_ & _ & ->).
  - exists p, false. split; [reflexivity|]. split; [done|]. discriminate.
Qed.

Lemma setColor_from_effect_witness :
  exists p' ok,
    setColor_from Samples.two_colors (fresh 2) "windowBgOver" "windowBg" = Some (p', ok).
Proof.
  destruct (setColor_from_effect Samples.two_colors (fresh 2) "windowBgOver" "windowBg"
              eq_refl eq_refl)
    as (p' & ok & H & _).
  exists p', ok. exact H.
Defined.

End PaletteApiFacts.

(** ** Hexadecimal text *)

Module HexFacts.
Import HexText.
Local Open Scope Z_scope.

(** X12. The two characters written for a byte are lower-case hexadecimal
    digits and denote that byte: the first its high four bits, the second
    its low four bits.  [hexChar] answers ['0'] for a value that is not a
    single digit. *)
Theorem hex_chars_denote (ch : ascii) :
  hex_digit_value (hexFirstChar ch) = Some (code ch / 16) /\
  hex_digit_value (hexSecondChar ch) = Some (code ch mod 16) /\
  hex_pair_value (hexFirstChar ch) (hexSecondChar ch) = Some (code ch) /\
  (forall n, 16 <= n -> hexChar n = "0"%char).
Proof.
  split; [|split; [|split]].
  - destruct ch as [[] [] [] [] [] [] [] []]; reflexivity.
  - destruct ch as [[] [] [] [] [] [] [] []]; reflexivity.
  - destruct ch as [[] [] [] [] [] [] [] []]; reflexivity.
  - intros n Hn. unfold hexChar.
    assert ((n <? 10) = false) as -> by lia.
    assert ((n <? 16) = false) as -> by lia. done.
Qed.

Lemma hex_chars_denote_witness : hexChar 16 = "0"%char.
Proof.
  apply (proj2 (proj2 (proj2 (hex_chars_denote "a"%char))) 16). lia.
Defined.

Lemma component_denotes (b : byte) :
  exists hi lo, paletteColorComponent b = String hi (String lo EmptyString) /\
                hex_pair_value hi lo = Some (uchar_code b).
Proof.
  eexists _, _. split; [reflexivity|].
  destruct b; reflexivity.
Qed.

Lemma uchar_code_inj (x y : byte) : uchar_code x = uchar_code y -> x = y.
Proof.
  unfold uchar_code. intros H. apply N2Z.inj in H.
  pose proof (Byte.of_to_N x) as Hx. pose proof (Byte.of_to_N y) as Hy.
  rewrite H in Hx. congruence.
Qed.

Lemma component_inj (x y : byte) :
  paletteColorComponent x = paletteColorComponent y -> x = y.
Proof.
  intros H.
  destruct (component_denotes x) as (h1 & l1 & E1 & V1).
  destruct (component_denotes y) as (h2 & l2 & E2 & V2).
  rewrite E1, E2 in H. injection H as -> ->.
  apply uchar_code_inj. congruence.
Qed.

(** X14. The text of a colour in the sample theme has six hexadecimal digits
    when the colour is opaque and eight otherwise, and two colours have
    the same text exactly when their four channels agree: comparing the
    texts, as [writeSampleTheme] does, is comparing the colours. *)
Theorem paletteColorValue_decides (c1 c2 : structure.data.color) :
  (String.length (paletteColorValue c1) =
     if uchar_code (structure.data.alpha c1) =? 255 then 6%nat else 8%nat) /\
  (paletteColorValue c1 = paletteColorValue c2 <->
   structure.data.red c1 = structure.data.red c2 /\
   structure.data.green c1 = structure.data.green c2 /\
   structure.data.blue c1 = structure.data.blue c2 /\
   structure.data.alpha c1 = structure.data.alpha c2).
Proof.
  split.
  - unfold paletteColorValue. by destruct (_ =? 255).
  - split.
    + unfold paletteColorValue, paletteColorComponent.
      destruct (Z.eqb_spec (uchar_code (structure.data.alpha c1)) 255) as [E1|E1],
               (Z.eqb_spec (uchar_code (structure.data.alpha c2)) 255) as [E2|E2];
        cbn [negb String.append]; intros H; try discriminate H.
      * injection H as Hr1 Hr2 Hg1 Hg2 Hb1 Hb2.
        split; [apply component_inj; unfold paletteColorComponent; congruence|].
        split; [apply component_inj; unfold paletteColorComponent; congruence|].
        split; [apply component_inj; unfold paletteColorComponent; congruence|].
        apply uchar_code_inj. congruence.
      * injection H as Hr1 Hr2 Hg1 Hg2 Hb1 Hb2 Ha1 Ha2.
        split; [apply component_inj; unfold paletteColorComponent; congruence|].
        split; [apply component_inj; unfold paletteColorComponent; congruence|].
        split; [apply component_inj; unfold paletteColorComponent; congruence|].
        apply component_inj; unfold paletteColorComponent; congruence.
    + intros (Hr & Hg & Hb & Ha). unfold paletteColorValue.
      by rewrite Hr, Hg, Hb, Ha.
Qed.

Lemma paletteColorValue_decides_witness :
  paletteColorValue (structure.data.mkColor Byte.xff Byte.x00 Byte.x10 Byte.xff "a") =
  paletteColorValue (structure.data.mkColor Byte.xff Byte.x00 Byte.x10 Byte.xff "b").
Proof.
  apply (proj2 (proj2 (paletteColorValue_decides
           (structure.data.mkColor Byte.xff Byte.x00 Byte.x10 Byte.xff "a")
           (structure.data.mkColor Byte.xff Byte.x00 Byte.x10 Byte.xff "b")))).
  repeat split.
Defined.

Lemma length_list_ascii (s : string) :
  length (list_ascii_of_string s) = String.length s.
Proof. induction s as [|c s IH]; simpl; congruence. Qed.

Lemma length_concat_rows (rs : list (list string)) :
  Forall (fun r => length r = 13%nat) rs ->
  length (concat rs) = (13 * length rs)%nat.
Proof.
  induction 1 as [|r rs Hr _ IH]; [done|].
  cbn [concat]. rewrite length_app, IH, Hr. cbn [length]. lia.
Qed.

Lemma binary_loop_inv (l : list ascii) :
  exists rs,
    rows (fold_left binary_step l (mkBin [] [])) = map (join ", ") rs /\
    concat rs ++ chars (fold_left binary_step l (mkBin [] [])) = map byte_entry l /\
    Forall (fun r => length r = 13%nat) rs /\
    (length (chars (fold_left binary_step l (mkBin [] []))) <= 13)%nat /\
    (chars (fold_left binary_step l (mkBin [] [])) = [] -> l = []).
Proof.
  induction l as [|x l IH] using rev_ind.
  - exists []. cbn. split; [done|]. split; [done|]. split; [constructor|]. split; [lia|done].
  - destruct IH as (rs & Hrows & Hcat & Hfull & Hlen & _).
    rewrite fold_left_app. cbn [fold_left].
    destruct (fold_left binary_step l (mkBin [] [])) as [rws chs].
    cbn [rows chars] in *. unfold binary_step. cbn [rows chars].
    destruct (Nat.ltb_spec 12 (length chs)) as [Hfullrow|Hroom]; cbn [rows chars].
    + exists (rs ++ [chs]). split; [|split; [|split; [|split]]].
      * by rewrite map_app, Hrows.
      * rewrite concat_app. cbn [concat]. rewrite app_nil_r.
        by rewrite map_app, <- Hcat.
      * apply Forall_app. split; [done|]. constructor; [lia|constructor].
      * cbn [app length]. lia.
      * discriminate.
    + exists rs. split; [done|]. split; [|split; [done|split]].
      * by rewrite map_app, <- Hcat, <- app_assoc.
      * rewrite length_app. cbn [length]. lia.
      * intros H. by destruct chs.
Qed.

(** X13. [stringToBinaryArray] writes one ["0xhh"] entry per byte, in order,
    thirteen to a row: every row but the last is full, no row is empty,
    and the array opens with a line break exactly when the text has more
    than thirteen bytes (that is, more than one row). *)
Theorem binary_array_rows (str : string) :
  exists rs : list (list string),
    binary_rows str = map (join ", ") rs /\
    concat rs = map byte_entry (list_ascii_of_string str) /\
    (forall i r, rs !! i = Some r ->
       (1 <= length r <= 13)%nat /\ ((S i < length rs)%nat -> length r = 13%nat)) /\
    length rs = ((String.length str + 12) / 13)%nat /\
    stringToBinaryArray str =
      ("{" ++ String (if (13 <? String.length str)%nat then newline else " "%char)
                     (join (String "," (String newline EmptyString))
                           (map (join ", ") rs)) ++ " }")%string.
Proof.
  destruct (binary_loop_inv (list_ascii_of_string str))
    as (rs & Hrows & Hcat & Hfull & Hlen & Hne).
  assert (exists rs',
    binary_rows str = map (join ", ") rs' /\
    concat rs' = map byte_entry (list_ascii_of_string str) /\
    (forall i r, rs' !! i = Some r ->
       (1 <= length r <= 13)%nat /\ ((S i < length rs')%nat -> length r = 13%nat)) /\
    length rs' = ((String.length str + 12) / 13)%nat) as (rs' & H1 & H2 & H3 & H4).
  { unfold binary_rows.
    destruct (fold_left binary_step (list_ascii_of_string str) (mkBin [] []))
      as [rws chs]. cbn [rows chars] in *.
    pose proof (f_equal (@length _) Hcat) as Hsz.
    rewrite length_app, length_map, length_list_ascii,
      (length_concat_rows _ Hfull) in Hsz.
    destruct chs as [|c chs]; cbn [isEmpty negb].
    - exists rs. split; [done|]. split; [by rewrite app_nil_r in Hcat|].
      specialize (Hne eq_refl). rewrite Hne in Hcat.
      destruct rs as [|r rs]; [|exfalso].
      + split; [intros i r Hi; by rewrite lookup_nil in Hi|].
        cbn [length] in *. by rewrite <- Hsz.
      + apply Forall_cons in Hfull as [Hr _].
        destruct r; [discriminate Hr|discriminate Hcat].
    - exists (rs ++ [c :: chs]). split; [by rewrite map_app, Hrows|].
      split; [rewrite concat_app; cbn [concat]; by rewrite app_nil_r|].
      split.
      + intros i r Hi. rewrite length_app. cbn [length] in *.
        destruct (decide (i < length rs)%nat) as [Hlt|Hge].
        * rewrite lookup_app_l in Hi by done.
          rewrite Forall_lookup in Hfull. specialize (Hfull _ _ Hi).
          cbn beta in Hfull. lia.
        * rewrite lookup_app_r in Hi by lia.
          destruct (i - length rs)%nat eqn:E; [|by destruct n].
          injection Hi as <-. cbn [length]. lia.
      + rewrite length_app. cbn [length] in *. rewrite <- Hsz.
        apply Nat.div_unique with (r := (length chs)%nat); lia. }
  exists rs'. split; [done|]. split; [done|]. split; [done|]. split; [done|].
  unfold stringToBinaryArray. rewrite H1, length_map, H4.
  replace (1 <? (String.length str + 12) / 13)%nat
    with (13 <? String.length str)%nat; [done|].
  destruct (Nat.ltb_spec 13 (String.length str)) as [Hl|Hl]; symmetry.
  - apply Nat.ltb_lt. apply Nat.div_le_lower_bound with (q := 2%nat); lia.
  - apply Nat.ltb_ge. apply Nat.lt_succ_r.
    apply Nat.Div0.div_lt_upper_bound; lia.
Qed.

Lemma binary_array_rows_witness :
  stringToBinaryArray "ab" = ("{ 0x61, 0x62 }")%string.
Proof.
  destruct (binary_array_rows "ab") as (rs & H1 & H2 & H3 & H4 & H5).
  rewrite H5. rewrite <- H1. reflexivity.
Defined.

End HexFacts.

(** ** The font family and icon mask tables *)

Module TableFacts.
Import structure Collector CollectorSpec QMapStringFacts.
Local Open Scope Z_scope.

Lemma contains_keys (k : string) (m : list (string * Z)) :
  QMap.contains String.compare k m = true <-> In k (QMap.keys m).
Proof.
  induction m as [|[k' v'] m IH]; simpl; [intuition discriminate|].
  destruct (String.compare k k') eqn:E.
  - apply String.compare_eq_iff in E. subst k'. intuition.
  - rewrite IH. split; [by right|]. intros [->|H]; [|done].
    by rewrite compare_refl in E.
  - rewrite IH. split; [by right|]. intros [->|H]; [|done].
    by rewrite compare_refl in E.
Qed.

Lemma insert_length_new (k : string) (v : Z) (m : list (string * Z)) :
  ~ In k (QMap.keys m) ->
  length (QMap.insert String.compare k v m) = S (length m).
Proof.
  induction m as [|[k' v'] m IH]; simpl; intros Hin; [done|].
  destruct (String.compare k k') eqn:E; simpl.
  - apply String.compare_eq_iff in E. subst k'. exfalso. apply Hin. by left.
  - done.
  - rewrite IH; [done|]. intros H. apply Hin. by right.
Qed.

Lemma first_index_lt (x : string) (l : list string) :
  In x l -> (first_index x l < length l)%nat.
Proof.
  induction l as [|y l IH]; simpl; [done|].
  destruct (String.eqb_spec x y) as [->|Hne]; [lia|].
  intros [->|H]; [done|]. specialize (IH H). lia.
Qed.

Lemma first_index_app (x : string) (l l' : list string) :
  In x l -> first_index x (l ++ l') = first_index x l.
Proof.
  induction l as [|y l IH]; simpl; [done|].
  destruct (String.eqb_spec x y) as [->|Hne]; [done|].
  intros [->|H]; [done|]. by rewrite IH.
Qed.

Lemma first_index_new (x : string) (l l' : list string) :
  ~ In x l -> first_index x (l ++ x :: l') = length l.
Proof.
  induction l as [|y l IH]; simpl; intros Hin.
  - by rewrite String.eqb_refl.
  - destruct (String.eqb_spec x y) as [->|Hne]; [exfalso; apply Hin; by left|].
    rewrite IH; [done|]. intros H. apply Hin. by right.
Qed.

Lemma first_seen_nil : first_seen [] ([], 0).
Proof.
  unfold first_seen, index_of; simpl.
  split; [done|]. split; [done|]. split; [done|]. split; [lia|done].
Qed.

(** One registration keeps the numbering in the order of first
    occurrence. *)
Lemma register_first_seen (l : list string) (tb : Table) (x : string) :
  first_seen l tb -> first_seen (l ++ [x]) (register tb x).
Proof.
  destruct tb as [m n]. unfold first_seen, register, index_of. cbn [fst snd].
  intros (Hkeys & Hn & Hrange & Honto & Horder).
  destruct (QMap.contains String.compare x m) eqn:Hc; cbn [negb fst snd].
  - apply contains_keys in Hc. apply Hkeys in Hc.
    assert (forall f, In f (l ++ [x]) <-> In f l) as Hin.
    { intros f. rewrite in_app_iff. simpl. intuition congruence. }
    split; [intros f; by rewrite Hin|]. split; [done|].
    split; [intros f Hf; apply Hrange; by apply Hin|].
    split.
    + intros k Hk. destruct (Honto k Hk) as (f & Hf & Hv).
      exists f. split; [by apply Hin|done].
    + intros f g Hf Hg. apply Hin in Hf, Hg.
      rewrite !first_index_app by done. by apply Horder.
  - assert (~ In x (QMap.keys m)) as Hnk.
    { intros H. apply contains_keys in H. congruence. }
    assert (~ In x l) as Hnl by (intros H; by apply Hnk, Hkeys).
    assert (forall f, In f l -> f <> x) as Hne by (intros f Hf ->; done).
    assert (forall f, In f l ->
              QMap.value String.compare f 0 (QMap.insert String.compare x (n + 1) m)
              = QMap.value String.compare f 0 m) as Hold.
    { intros f Hf. apply value_insert_ne. by apply Hne. }
    split; [|split; [|split; [|split]]].
    + intros f. rewrite keys_insert, in_app_iff, Hkeys. simpl. intuition congruence.
    + rewrite insert_length_new by done. lia.
    + intros f Hf. apply in_app_iff in Hf as [Hf|[<-|[]]].
      * rewrite Hold by done. specialize (Hrange f Hf). lia.
      * rewrite value_insert_eq. lia.
    + intros k Hk. destruct (decide (k = n + 1)) as [->|Hkn].
      * exists x. split; [apply in_app_iff; right; by left|].
        apply value_insert_eq.
      * destruct (Honto k ltac:(lia)) as (f & Hf & Hv).
        exists f. split; [apply in_app_iff; by left|]. by rewrite Hold.
    + intros f g Hf Hg.
      apply in_app_iff in Hf as [Hf|[<-|[]]], Hg as [Hg|[<-|[]]].
      * rewrite !Hold, !first_index_app by done. by apply Horder.
      * rewrite Hold, value_insert_eq, first_index_app, first_index_new by done.
        specialize (Hrange f Hf). pose proof (first_index_lt f l Hf). lia.
      * rewrite value_insert_eq, Hold, first_index_new, first_index_app by done.
        specialize (Hrange g Hg). pose proof (first_index_lt g l Hg). lia.
      * lia.
Qed.

Lemma registers_first_seen (l' l : list string) (tb : Table) :
  first_seen l tb -> first_seen (l ++ l') (fold_left register l' tb).
Proof.
  revert l tb. induction l' as [|x l' IH]; intros l tb H.
  - by rewrite app_nil_r.
  - cbn [fold_left]. replace (l ++ x :: l') with ((l ++ [x]) ++ l')
      by (by rewrite <- app_assoc).
    by apply IH, register_first_seen.
Qed.

(** *** What the collector does to the two tables *)

Lemma insert_px_tables (v : Z) (st : State) :
  font_table (insert_px v st) = font_table st /\
  icon_table (insert_px v st) = icon_table st.
Proof. done. Qed.

Lemma collect_part_tables (st : State) (part : monoicon) :
  font_table (collect_part st part) = font_table st /\
  icon_table (collect_part st part) = register (icon_table st) (filename part).
Proof.
  unfold collect_part, register, icon_table, font_table. cbn [fst snd].
  cbn [insert_px iconMasks_ fontFamilies_ fontFamilyIndex iconMaskIndex pxValues_].
  by destruct (QMap.contains String.compare (filename part) (iconMasks_ st)).
Qed.

Lemma parts_tables (parts : list monoicon) (st : State) :
  font_table (fold_left collect_part parts st) = font_table st /\
  icon_table (fold_left collect_part parts st) =
    fold_left register (flat_map (fun part => [filename part]) parts) (icon_table st).
Proof.
  revert st. induction parts as [|part parts IH]; intros st; [done|].
  cbn [fold_left flat_map app].
  destruct (IH (collect_part st part)) as [-> ->].
  by destruct (collect_part_tables st part) as [-> ->].
Qed.

Lemma flat_map_nil {A B : Type} (l : list A) :
  flat_map (fun _ : A => @nil B) l = [].
Proof. by induction l. Qed.

Lemma texts_with_struct (of_font : data.font -> list string)
    (of_part : monoicon -> list string) (n nm : FullName) (fs : list Variable_) :
  texts_with of_font of_part (mkVariable n (mkValue [] (DStruct nm (Some fs)))) =
  flat_map (texts_with of_font of_part) fs.
Proof.
  cbn [texts_with isEmpty negb].
  induction fs as [|f fs IH]; [reflexivity|].
  cbn [flat_map]. by rewrite <- IH.
Qed.

Lemma enum_tables (l : list Variable_) :
  Forall (fun v => forall st st', collector st v = (true, st') ->
            font_table st' = fold_left register (families_read v) (font_table st) /\
            icon_table st' = fold_left register (masks_read v) (icon_table st)) l ->
  forall st st', enumVariables collector l st = (true, st') ->
    font_table st' = fold_left register (flat_map families_read l) (font_table st) /\
    icon_table st' = fold_left register (flat_map masks_read l) (icon_table st).
Proof.
  induction 1 as [|v l Hv Hl IH]; intros st st' Hrun.
  - by injection Hrun as <-.
  - cbn [enumVariables flat_map] in *. rewrite !fold_left_app.
    destruct (collector st v) as [[|] st1] eqn:E; [|discriminate].
    destruct (Hv st st1 E) as [<- <-]. by apply IH.
Qed.

(** A successful run of the collector on a variable registers the font
    families and the icon masks of the variable, in the order of the
    walk. *)
Lemma collector_tables (v : Variable_) (st st' : State) :
  collector st v = (true, st') ->
  font_table st' = fold_left register (families_read v) (font_table st) /\
  icon_table st' = fold_left register (masks_read v) (icon_table st).
Proof.
  revert st st'. induction v as [n copy d IH] using CollectorFacts.Variable_nested_ind.
  intros st st'.
  destruct copy as [|c copy]; [|by intros [= <-]].
  destruct d as [|z|  |z|s|c|p|s|s|s|m|f|parts|nm [fs|]];
    try (by intros [= <-]).
  - cbn [collector value copyOf isEmpty negb].
    unfold families_read, masks_read. cbn [texts_with isEmpty negb].
    unfold font_family, register, font_table, icon_table.
    cbn [insert_px iconMasks_ fontFamilies_ fontFamilyIndex iconMaskIndex pxValues_].
    destruct (QString_isEmpty (data.family f)); cbn [negb andb fold_left];
      [by intros [= <-]|].
    cbn [fst snd].
    destruct (QMap.contains String.compare (data.family f) (fontFamilies_ st));
      cbn [negb]; by intros [= <-].
  - cbn [collector value copyOf isEmpty negb]. intros [= <-].
    unfold families_read, masks_read. cbn [texts_with isEmpty negb].
    rewrite flat_map_nil. apply parts_tables.
  - rewrite CollectorFacts.collector_struct.
    unfold families_read, masks_read. rewrite !texts_with_struct.
    by apply enum_tables.
Qed.

Lemma insert_new_nodup (k : string) (v : Z) (m : list (string * Z)) :
  ~ In k (QMap.keys m) -> List.NoDup (QMap.keys m) ->
  List.NoDup (QMap.keys (QMap.insert String.compare k v m)).
Proof.
  induction m as [|[k' v'] m IH]; simpl; intros Hin Hnd.
  - constructor; [by intros []|constructor].
  - destruct (String.compare k k') eqn:E; simpl.
    + apply String.compare_eq_iff in E. subst k'. exfalso. apply Hin. by left.
    + by constructor.
    + apply NoDup_cons_iff in Hnd as [Hk' Hnd].
      constructor; [|apply IH; [intros H; apply Hin; by right|done]].
      fold (QMap.keys (QMap.insert String.compare k v m)).
      rewrite keys_insert. intros [->|H]; [apply Hin; by left|done].
Qed.

Lemma registers_nodup (l : list string) (tb : Table) :
  List.NoDup (QMap.keys (fst tb)) ->
  List.NoDup (QMap.keys (fst (fold_left register l tb))).
Proof.
  revert tb. induction l as [|x l IH]; intros tb Hnd; [done|].
  cbn [fold_left]. apply IH. unfold register.
  destruct (QMap.contains String.compare x (fst tb)) eqn:Hc; cbn [negb fst]; [done|].
  apply insert_new_nodup; [|done].
  intros H. apply contains_keys in H. congruence.
Qed.

(** With distinct keys, an entry of the table is what [value] finds. *)
Lemma value_entry (k : string) (v d : Z) (m : list (string * Z)) :
  List.NoDup (QMap.keys m) -> In (k, v) m -> QMap.value String.compare k d m = v.
Proof.
  induction m as [|[k' v'] m IH]; simpl; intros Hnd Hin; [done|].
  apply NoDup_cons_iff in Hnd as [Hk' Hnd].
  destruct Hin as [[= -> ->]|Hin].
  - by rewrite compare_refl.
  - destruct (String.compare k k') eqn:E; [|by apply IH..].
    apply String.compare_eq_iff in E. subst k'. exfalso. apply Hk'.
    apply in_map_iff. by exists (k, v).
Qed.

Lemma module_tables (variables : list Variable_) (st : State) :
  collectUniqueValues variables = (true, st) ->
  first_seen (flat_map families_read variables) (font_table st) /\
  first_seen (flat_map masks_read variables) (icon_table st).
Proof.
  unfold collectUniqueValues. intros Hrun.
  destruct (enum_tables variables) with (st := init) (st' := st) as [-> ->];
    [|done|].
  - apply List.Forall_forall. intros v _ s s'. apply collector_tables.
  - split.
    + apply (registers_first_seen _ [] ([], 0)), first_seen_nil.
    + apply (registers_first_seen _ [] ([], 0)), first_seen_nil.
Qed.

Lemma module_font_keys (variables : list Variable_) (st : State) :
  collectUniqueValues variables = (true, st) ->
  List.NoDup (QMap.keys (fontFamilies_ st)).
Proof.
  unfold collectUniqueValues. intros Hrun.
  destruct (enum_tables variables) with (st := init) (st' := st) as [H _];
    [|done|].
  - apply List.Forall_forall. intros v _ s s'. apply collector_tables.
  - change (fontFamilies_ st) with (fst (font_table st)). rewrite H.
    apply registers_nodup. constructor.
Qed.

Lemma first_index_inj (f g : string) (l : list string) :
  In f l -> first_index f l = first_index g l -> f = g.
Proof.
  induction l as [|y l IH]; simpl; [done|].
  destruct (String.eqb_spec f y) as [->|Hf], (String.eqb_spec g y) as [->|Hg];
    try done.
  intros [->|H] [= E]; [done|]. by apply IH.
Qed.

Lemma first_seen_inj (l : list string) (tb : Table) (f g : string) :
  first_seen l tb -> In f l -> In g l -> index_of tb f = index_of tb g -> f = g.
Proof.
  intros (_ & _ & _ & _ & Horder) Hf Hg Heq.
  apply (first_index_inj f g l Hf).
  pose proof (Horder f g Hf Hg). pose proof (Horder g f Hg Hf). lia.
Qed.

(** X17. After a successful collection the table of font families holds
    exactly the non-empty families of the fonts the collector visits
    (aliases skipped, struct fields included).  They are numbered from
    one without gaps, [fontFamilyIndex] being the last number given, in
    the order in which the families are first met; so two families never
    share a [font<k>index] variable. *)
Theorem font_families_numbered (variables : list Variable_) (st : State) :
  collectUniqueValues variables = (true, st) ->
  (forall f, In f (QMap.keys (fontFamilies_ st)) <->
             In f (flat_map families_read variables)) /\
  ~ In EmptyString (QMap.keys (fontFamilies_ st)) /\
  fontFamilyIndex st = Z.of_nat (length (fontFamilies_ st)) /\
  (forall f, In f (flat_map families_read variables) ->
     1 <= QMap.value String.compare f 0 (fontFamilies_ st) <= fontFamilyIndex st) /\
  (forall k, 1 <= k <= fontFamilyIndex st ->
     exists f, In f (flat_map families_read variables) /\
               QMap.value String.compare f 0 (fontFamilies_ st) = k) /\
  (forall f g, In f (flat_map families_read variables) ->
     In g (flat_map families_read variables) ->
     (QMap.value String.compare f 0 (fontFamilies_ st) <
        QMap.value String.compare g 0 (fontFamilies_ st) <->
      (first_index f (flat_map families_read variables) <
         first_index g (flat_map families_read variables))%nat) /\
     (QMap.value String.compare f 0 (fontFamilies_ st) =
        QMap.value String.compare g 0 (fontFamilies_ st) -> f = g)).
Proof.
  intros Hrun. destruct (module_tables variables st Hrun) as [Hfont _].
  pose proof Hfont as (Hkeys & Hn & Hrange & Honto & Horder).
  split; [exact Hkeys|]. split; [|split; [exact Hn|split; [exact Hrange|split]]].
  - rewrite Hkeys, in_flat_map. intros (v & _ & Hv). revert Hv.
    induction v as [n copy d IH] using CollectorFacts.Variable_nested_ind.
    destruct copy as [|c copy]; [|done].
    destruct d as [|z|  |z|s|c|p|s|s|s|m|f|parts|nm [fs|]]; try done.
    + unfold families_read. cbn [texts_with isEmpty negb]. unfold font_family.
      destruct (data.family f) eqn:E; simpl; [done|]. by intros [H|[]].
    + unfold families_read. cbn [texts_with isEmpty negb].
      by rewrite flat_map_nil.
    + unfold families_read. rewrite texts_with_struct, in_flat_map.
      intros (u & Hu & H). rewrite List.Forall_forall in IH. by apply (IH u).
  - exact Honto.
  - intros f g Hf Hg. split; [by apply Horder|].
    by apply (first_seen_inj _ _ f g Hfont).
Qed.

Lemma font_families_numbered_witness :
  1 <= QMap.value String.compare "Open Sans"%string 0
         (fontFamilies_ (snd (collectUniqueValues TableSamples.two_fonts)))
    <= fontFamilyIndex (snd (collectUniqueValues TableSamples.two_fonts)).
Proof.
  apply (proj1 (proj2 (proj2 (proj2 (font_families_numbered TableSamples.two_fonts
           (snd (collectUniqueValues TableSamples.two_fonts)) eq_refl))))).
  vm_compute. tauto.
Defined.

(** X18. After a successful collection the table of icon masks holds exactly
    the file names of the icon parts the collector visits.  They are
    numbered from one without gaps, [iconMaskIndex] being the last number
    given, in the order in which the names are first met; so two masks
    never share an [iconMask<k>] variable. *)
Theorem icon_masks_numbered (variables : list Variable_) (st : State) :
  collectUniqueValues variables = (true, st) ->
  (forall f, In f (QMap.keys (iconMasks_ st)) <->
             In f (flat_map masks_read variables)) /\
  iconMaskIndex st = Z.of_nat (length (iconMasks_ st)) /\
  (forall f, In f (flat_map masks_read variables) ->
     1 <= QMap.value String.compare f 0 (iconMasks_ st) <= iconMaskIndex st) /\
  (forall k, 1 <= k <= iconMaskIndex st ->
     exists f, In f (flat_map masks_read variables) /\
               QMap.value String.compare f 0 (iconMasks_ st) = k) /\
  (forall f g, In f (flat_map masks_read variables) ->
     In g (flat_map masks_read variables) ->
     (QMap.value String.compare f 0 (iconMasks_ st) <
        QMap.value String.compare g 0 (iconMasks_ st) <->
      (first_index f (flat_map masks_read variables) <
         first_index g (flat_map masks_read variables))%nat) /\
     (QMap.value String.compare f 0 (iconMasks_ st) =
        QMap.value String.compare g 0 (iconMasks_ st) -> f = g)).
Proof.
  intros Hrun. destruct (module_tables variables st Hrun) as [_ Hicon].
  pose proof Hicon as (Hkeys & Hn & Hrange & Honto & Horder).
  split; [exact Hkeys|]. split; [exact Hn|]. split; [exact Hrange|].
  split; [exact Honto|].
  intros f g Hf Hg. split; [by apply Horder|].
  by apply (first_seen_inj _ _ f g Hicon).
Qed.

Lemma icon_masks_numbered_witness :
  1 <= QMap.value String.compare "icons/send"%string 0
         (iconMasks_ (snd (collectUniqueValues TableSamples.two_icons)))
    <= iconMaskIndex (snd (collectUniqueValues TableSamples.two_icons)).
Proof.
  apply (proj1 (proj2 (proj2 (icon_masks_numbered TableSamples.two_icons
           (snd (collectUniqueValues TableSamples.two_icons)) eq_refl)))).
  vm_compute. tauto.
Defined.

End TableFacts.

(** ** [stringToEncodedString] writes a literal that reads back as the
    text *)

Module EncodedFacts.
Import HexText Encoded CLiteral.
Local Open Scope Z_scope.

Lemma append_assoc (a b c : string) : ((a ++ b) ++ c = a ++ (b ++ c))%string.
Proof. induction a as [|x a IH]; simpl; [done|by rewrite IH]. Qed.

Lemma append_nil_r (a : string) : (a ++ EmptyString = a)%string.
Proof. induction a as [|x a IH]; simpl; [done|by rewrite IH]. Qed.

Lemma code_range (c : ascii) : 0 <= code c <= 255.
Proof.
  unfold code. pose proof (N_ascii_bounded c). lia.
Qed.

Lemma code_inj (c d : ascii) : code c = code d -> c = d.
Proof.
  unfold code. intros H. apply N2Z.inj in H.
  by rewrite <- (ascii_N_embedding c), <- (ascii_N_embedding d), H.
Qed.

Lemma first_digit (ch : ascii) :
  xdigit_value (hexFirstChar ch) = Some (code ch / 16).
Proof. destruct ch as [[] [] [] [] [] [] [] []]; reflexivity. Qed.

Lemma second_digit (ch : ascii) :
  xdigit_value (hexSecondChar ch) = Some (code ch mod 16).
Proof. destruct ch as [[] [] [] [] [] [] [] []]; reflexivity. Qed.

Lemma digit_not_newline (c : ascii) (d : Z) :
  xdigit_value c = Some d -> c <> newline.
Proof. by intros H ->. Qed.

(** *** Line splicing *)

Lemma splice_char (c : ascii) (X : string) :
  c <> backslash \/ no_newline_head X ->
  splice (String c X) = String c (splice X).
Proof.
  intros H. destruct X as [|d rest]; [done|].
  cbn [splice]. cbn [no_newline_head] in H.
  destruct (Ascii.eqb_spec c backslash) as [->|Hc]; [|done].
  destruct (Ascii.eqb_spec d newline) as [->|Hd]; [|done].
  by destruct H.
Qed.

Lemma no_newline_head_app (t X : string) :
  no_newline t -> no_newline_head X -> no_newline_head (t ++ X).
Proof.
  destruct t as [|c t]; [done|]. intros Ht _. apply Ht. by left.
Qed.

Lemma no_newline_tail (c : ascii) (t : string) :
  no_newline (String c t) -> no_newline t.
Proof. intros H d Hd. apply H. by right. Qed.

Lemma splice_keep (t X : string) :
  no_newline t -> no_newline_head X ->
  splice (t ++ X) = (t ++ splice X)%string.
Proof.
  intros Ht HX. induction t as [|c t IH]; [done|].
  cbn [String.append]. rewrite splice_char.
  - by rewrite IH by (by eapply no_newline_tail).
  - right. apply no_newline_head_app; [by eapply no_newline_tail|done].
Qed.

Lemma splice_break (X : string) : splice (lineBreak ++ X) = splice X.
Proof. by destruct X. Qed.

(** *** The reader *)

Lemma run_app (st : Mode * list Z) (a b : string) :
  run st (a ++ b) =
  match run st a with
  | Some st' => run st' b
  | None => None
  end.
Proof.
  revert st. induction a as [|c a IH]; intros st; [done|].
  cbn [String.append run]. destruct (step st c); [apply IH|done].
Qed.

(** A ready reader that meets a character which is not a hexadecimal
    digit reads it as a character of the literal, the pending escape
    being complete. *)
Lemma ready_step (hex : bool) (rd : Mode * list Z) (codes : list Z) (c : ascii) :
  ready hex rd codes -> xdigit_value c = None ->
  step rd c = inside_step c codes.
Proof.
  destruct rd as [m acc]. destruct hex; cbn [ready fst snd].
  - intros (v & Hv & -> & <-) Hc. cbn [step]. rewrite Hc.
    by assert ((v <=? 255) = true) as -> by lia.
  - by intros [= -> ->] _.
Qed.

Lemma code_mod (ch : ascii) : 16 * (code ch / 16) + code ch mod 16 = code ch.
Proof. pose proof (Z.div_mod (code ch) 16). lia. Qed.

(** The four kinds of token the encoder appends. *)
Lemma read_simple (hex : bool) (rd : Mode * list Z) (codes : list Z)
    (e : ascii) (v : Z) :
  ready hex rd codes ->
  (code e =? 110, v) = (true, 10) \/ (code e =? 116, v) = (true, 9) \/
  (code e =? 34, v) = (true, 34) \/ (code e =? 92, v) = (true, 92) ->
  run rd (String backslash (String e EmptyString)) = Some (Inside, codes ++ [v]).
Proof.
  intros Hrd He. cbn [run]. rewrite (ready_step hex rd codes backslash Hrd eq_refl).
  change (inside_step backslash codes) with (Some (Esc, codes)). cbn match.
  unfold step.
  destruct He as [He|[He|[He|He]]]; injection He as He ->.
  - by rewrite He.
  - destruct (code e =? 110) eqn:E1; [lia|]. by rewrite He.
  - destruct (code e =? 110) eqn:E1; [lia|].
    destruct (code e =? 116) eqn:E2; [lia|]. by rewrite He.
  - destruct (code e =? 110) eqn:E1; [lia|].
    destruct (code e =? 116) eqn:E2; [lia|].
    destruct (code e =? 34) eqn:E3; [lia|]. by rewrite He.
Qed.

Lemma read_hex (hex : bool) (rd : Mode * list Z) (codes : list Z) (ch : ascii) :
  ready hex rd codes ->
  run rd (String backslash
            (String "x" (String (hexFirstChar ch)
                           (String (hexSecondChar ch) EmptyString)))) =
  Some (Hex (Some (code ch)), codes).
Proof.
  intros Hrd. cbn [run]. rewrite (ready_step hex rd codes backslash Hrd eq_refl).
  change (inside_step backslash codes) with (Some (Esc, codes)). cbn match.
  change (step (Esc, codes) "x") with (Some (Hex None, codes)). cbn match.
  unfold step at 1. rewrite first_digit.
  unfold step. rewrite second_digit. cbn [default from_option]. unfold id.
  assert (16 * (16 * 0 + code ch / 16) + code ch mod 16 = code ch) as ->; [|done].
  pose proof (code_mod ch). lia.
Qed.

Lemma read_plain (codes : list Z) (ch : ascii) :
  code ch <> 34 -> code ch <> 92 -> code ch <> 10 ->
  run (Inside, codes) (String ch EmptyString) = Some (Inside, codes ++ [code ch]).
Proof.
  intros H1 H2 H3. cbn [run step]. unfold inside_step.
  destruct (Z.eqb_spec (code ch) 34); [done|].
  destruct (Z.eqb_spec (code ch) 92); [done|].
  by destruct (Z.eqb_spec (code ch) 10).
Qed.

Lemma read_reopen (rd : Mode * list Z) (codes : list Z) :
  ready true rd codes ->
  run rd (String quote (String quote EmptyString)) = Some (Inside, codes).
Proof.
  intros Hrd. cbn [run]. by rewrite (ready_step true rd codes quote Hrd eq_refl).
Qed.

Lemma read_close (hex : bool) (rd : Mode * list Z) (codes : list Z) :
  ready hex rd codes ->
  run rd (String quote EmptyString) = Some (Between, codes).
Proof.
  intros Hrd. cbn [run]. by rewrite (ready_step hex rd codes quote Hrd eq_refl).
Qed.

(** *** The invariant of the loop *)

Lemma enc_inv_init : enc_inv [] (mkEnc EmptyString false false 0).
Proof.
  exists EmptyString, (Inside, []). split; [done|]. split; done.
Qed.

Lemma enc_inv_cut (input : list ascii) (st : EncState) :
  enc_inv input st ->
  enc_inv input (cut st) /\
  writingHexEscapedCharacters (cut st) = writingHexEscapedCharacters st.
Proof.
  intros (clean & rd & Hs & Hr & Hrd). unfold cut.
  destruct (80 <? _); [|split; [by exists clean, rd|done]].
  split; [|done]. exists clean, rd. cbn [result writingHexEscapedCharacters].
  split; [|done]. intros X HX.
  rewrite append_assoc, Hs by done. by rewrite splice_break.
Qed.

(** Appending a token without line feed that takes the reader from one
    ready state to the next. *)
Lemma enc_inv_put (input : list ascii) (st : EncState) (ch : ascii)
    (hex : bool) (t : string) :
  enc_inv input st -> no_newline t ->
  (forall rd, ready (writingHexEscapedCharacters st) rd (map code input) ->
     exists rd', run rd t = Some rd' /\ ready hex rd' (map code input ++ [code ch])) ->
  enc_inv (input ++ [ch]) (put st hex t).
Proof.
  intros (clean & rd & Hs & Hr & Hrd) Ht Hread.
  destruct (Hread rd Hrd) as (rd' & Hrun & Hrd').
  exists (clean ++ t)%string, rd'. cbn [put result writingHexEscapedCharacters].
  split; [|split].
  - intros X HX. rewrite !append_assoc, Hs by (by apply no_newline_head_app).
    by rewrite splice_keep.
  - change (String quote (clean ++ t)) with (String quote clean ++ t)%string.
    by rewrite run_app, Hr.
  - by rewrite map_app.
Qed.

Lemma no_newline_chars (l : list ascii) (t : string) :
  list_ascii_of_string t = l -> Forall (fun c => code c <> 10) l -> no_newline t.
Proof.
  intros <- H c Hc ->. rewrite List.Forall_forall in H. by apply (H _ Hc).
Qed.

Lemma hex_ready (ch : ascii) (codes : list Z) :
  ready true (Hex (Some (code ch)), codes) (codes ++ [code ch]).
Proof. exists (code ch). split; [apply code_range|done]. Qed.

Lemma encode_step_inv (input : list ascii) (st : EncState) (ch : ascii) :
  enc_inv input st -> enc_inv (input ++ [ch]) (encode_step st ch).
Proof.
  intros Hinv. destruct (enc_inv_cut input st Hinv) as [Hcut Hhex].
  unfold encode_step. set (st1 := cut st) in *. clearbody st1.
  destruct (Z.eqb_spec (code ch) 10) as [E10|N10].
  { apply enc_inv_put; [done|..].
    - apply (no_newline_chars [backslash; "n"%char]); [done|].
      repeat constructor; done.
    - intros rd Hrd. eexists. split.
      + apply (read_simple _ rd _ "n"%char 10 Hrd). by left.
      + by rewrite E10. }
  destruct (Z.eqb_spec (code ch) 9) as [E9|N9].
  { apply enc_inv_put; [done|..].
    - apply (no_newline_chars [backslash; "t"%char]); [done|].
      repeat constructor; done.
    - intros rd Hrd. eexists. split.
      + apply (read_simple _ rd _ "t"%char 9 Hrd). right. by left.
      + by rewrite E9. }
  destruct (Z.eqb_spec (code ch) 34) as [E34|N34].
  { cbn [orb]. apply enc_inv_put; [done|..].
    - apply (no_newline_chars [backslash; ch]); [done|].
      repeat constructor; [done|lia].
    - intros rd Hrd. eexists. split.
      + apply (read_simple _ rd _ ch 34 Hrd). right. right. left.
        f_equal. lia.
      + by rewrite E34. }
  destruct (Z.eqb_spec (code ch) 92) as [E92|N92].
  { cbn [orb]. apply enc_inv_put; [done|..].
    - apply (no_newline_chars [backslash; ch]); [done|].
      repeat constructor; [done|lia].
    - intros rd Hrd. eexists. split.
      + apply (read_simple _ rd _ ch 92 Hrd). right. right. right.
        f_equal. lia.
      + by rewrite E92. }
  cbn [orb].
  destruct ((code ch <? 32) || (127 <? code ch)) eqn:Erange.
  { apply enc_inv_put; [done|..].
    - intros c [<-|[<-|[<-|[<-|[]]]]]; [done|done|..].
      + eapply digit_not_newline, first_digit.
      + eapply digit_not_newline, second_digit.
    - intros rd Hrd. eexists. split; [by eapply read_hex|]. apply hex_ready. }
  assert (enc_inv input
            (if writingHexEscapedCharacters st1
             then put st1 false (String quote (String quote EmptyString))
             else st1) /\
          writingHexEscapedCharacters
            (if writingHexEscapedCharacters st1
             then put st1 false (String quote (String quote EmptyString))
             else st1) = false) as [Hopen Hflag].
  { destruct (writingHexEscapedCharacters st1) eqn:Ew; [|done].
    split; [|done].
    destruct Hcut as (clean & rd & Hs & Hr & Hrd). rewrite Ew in Hrd.
    exists (clean ++ String quote (String quote EmptyString))%string, (Inside, map code input).
    cbn [put result writingHexEscapedCharacters]. split; [|split; [|done]].
    - intros X HX. rewrite !append_assoc, Hs by done.
      rewrite splice_keep; [done| |done].
      apply (no_newline_chars [quote; quote]); [done|]. repeat constructor; done.
    - change (String quote (clean ++ String quote (String quote EmptyString)))
        with (String quote clean ++ String quote (String quote EmptyString))%string.
      rewrite run_app, Hr. by apply read_reopen. }
  rewrite Hflag. apply enc_inv_put; [done|..].
  - apply (no_newline_chars [ch]); [done|]. repeat constructor; done.
  - rewrite Hflag. intros rd [= ->]. eexists. split; [by apply read_plain|done].
Qed.

Lemma encode_loop_inv (l : list ascii) :
  enc_inv l (fold_left encode_step l (mkEnc EmptyString false false 0)).
Proof.
  induction l as [|ch l IH] using rev_ind; [apply enc_inv_init|].
  rewrite fold_left_app. by apply encode_step_inv.
Qed.

(** X15. Read as a C++ string literal (line splicing, escape sequences with
    the longest run of hexadecimal digits, adjacent literals
    concatenated), the text [stringToEncodedString] writes for any byte
    string denotes that byte string. *)
Theorem encoded_string_reads_back (str : string) :
  read_literal (stringToEncodedString str) =
  Some (map code (list_ascii_of_string str)).
Proof.
  unfold stringToEncodedString, encode_loop.
  destruct (encode_loop_inv (list_ascii_of_string str)) as (clean & rd & Hs & Hr & Hrd).
  set (st := fold_left encode_step _ _) in *. clearbody st.
  assert (splice (String quote ((if startOnNewLine st then lineBreak else EmptyString)
                                ++ result st ++ String quote EmptyString)) =
          (String quote clean ++ String quote EmptyString)%string) as Hsplice.
  { rewrite splice_char by (left; done). cbn [String.append]. f_equal.
    assert (splice (result st ++ String quote EmptyString) =
            (clean ++ String quote EmptyString)%string) as H by (by apply Hs).
    destruct (startOnNewLine st); [by rewrite splice_break|done]. }
  unfold read_literal. rewrite Hsplice, run_app, Hr.
  by rewrite (read_close _ rd _ Hrd).
Qed.


End EncodedFacts.

(** ** [initPxValues] rescales every pixel constant *)

Module PxInitFacts.
Import Collector PxInit.
Local Open Scope Z_scope.

Lemma get_set_other (n : string) (a : string * Z) (s : Store) :
  n <> fst a -> get n (set s a) = get n s.
Proof.
  intros Hne. induction s as [|[m x] s IH]; [done|].
  cbn [set map fst snd get] in *.
  destruct (String.eqb_spec m (fst a)) as [Hm|Hm]; cbn [get].
  - destruct (String.eqb_spec m n) as [Hn|Hn]; [congruence|exact IH].
  - destruct (String.eqb_spec m n) as [Hn|Hn]; [done|exact IH].
Qed.

Lemma get_set_same (n : string) (v x : Z) (s : Store) :
  get n s = Some x -> get n (set s (n, v)) = Some v.
Proof.
  induction s as [|[m y] s IH]; [done|].
  cbn [set map fst snd get] in *.
  destruct (String.eqb_spec m n) as [->|Hm]; cbn [get].
  - by rewrite String.eqb_refl.
  - intros H. destruct (String.eqb_spec m n); [done|by apply IH].
Qed.

Section Scales.
Variable scales : list Z.
Variable scaleNames : list string.
Variable pxAdjust : Z -> Z -> Z.

(** The assignments of a case leave alone the constants of other keys. *)
Lemma body_frame (keys : list Z) (scale k : Z) (s : Store) :
  in_int_range k -> Forall in_int_range keys -> ~ In k keys ->
  get (pxValueName k) (fold_left set (case_body pxAdjust keys scale) s) =
  get (pxValueName k) s.
Proof.
  intros Hk Hkeys. revert s. induction Hkeys as [|k' keys Hk' _ IH]; intros s Hin.
  - done.
  - unfold case_body in *. cbn [flat_map]. rewrite fold_left_app.
    rewrite IH by (intros H; apply Hin; by right).
    destruct (negb _); [|done]. cbn [fold_left].
    apply get_set_other. cbn [fst]. intros Heq.
    apply PxNameFacts.pxValueName_inj in Heq; [|done..].
    apply Hin. by left.
Qed.

(** After the assignments of a case the constant of each key holds the
    adjusted value, whether or not an assignment was written for it. *)
Lemma body_effect (keys : list Z) (scale k : Z) (s : Store) :
  List.NoDup keys -> Forall in_int_range keys -> In k keys ->
  get (pxValueName k) s = Some k ->
  get (pxValueName k) (fold_left set (case_body pxAdjust keys scale) s) =
  Some (pxAdjust k scale).
Proof.
  intros Hnd Hkeys. revert s.
  induction Hkeys as [|k' keys Hk' Hkeys IH]; intros s Hin Hget; [done|].
  apply NoDup_cons_iff in Hnd as [Hnew Hnd].
  unfold case_body in *. cbn [flat_map]. rewrite fold_left_app.
  destruct Hin as [->|Hin].
  - fold (case_body pxAdjust keys scale). rewrite body_frame by done.
    destruct (Z.eqb_spec (pxAdjust k scale) k) as [E|E]; cbn [negb fold_left].
    + by rewrite E.
    + by apply get_set_same with (x := k).
  - apply IH; [done..|].
    destruct (negb _); [|done]. cbn [fold_left].
    rewrite get_set_other; [done|]. cbn [fst]. intros Heq.
    apply PxNameFacts.pxValueName_inj in Heq;
      [|by rewrite List.Forall_forall in Hkeys; apply Hkeys|done].
    by subst.
Qed.

Lemma declared (keys : list Z) (k : Z) :
  Forall in_int_range keys -> In k keys ->
  get (pxValueName k) (map (fun k => (pxValueName k, k)) keys) = Some k.
Proof.
  induction 1 as [|k' keys Hk' Hkeys IH]; intros Hin; [done|].
  cbn [map get].
  destruct (String.eqb_spec (pxValueName k') (pxValueName k)) as [E|E].
  - f_equal. apply PxNameFacts.pxValueName_inj; [done| |done].
    destruct Hin as [<-|Hin]; [done|].
    rewrite List.Forall_forall in Hkeys. by apply Hkeys.
  - destruct Hin as [->|Hin]; [done|by apply IH].
Qed.

Lemma find_case (keys : list Z) (nm : string) (i : nat) (scale : Z)
    (idxs : list nat) (cs : list Case) :
  List.NoDup scaleNames ->
  scaleNames !! i = Some nm -> scales !! i = Some scale ->
  cases_from scales scaleNames pxAdjust keys idxs = Some cs -> In i idxs ->
  find (fun c => String.eqb (label c) nm) cs =
  Some (mkCase nm (case_body pxAdjust keys scale)).
Proof.
  intros Hnd Hnm Hsc. revert cs.
  induction idxs as [|j idxs IH]; intros cs Hcs Hin; [done|].
  cbn [cases_from] in Hcs.
  destruct (scaleNames !! j) as [n|] eqn:En; [|done].
  destruct (scales !! j) as [sc|] eqn:Es; [|done].
  destruct (cases_from scales scaleNames pxAdjust keys idxs) as [cs'|]; [|done].
  injection Hcs as <-. cbn [find label].
  destruct (String.eqb_spec n nm) as [->|Hne].
  - assert (j = i) as -> by exact (NoDup_lookup scaleNames j i nm (proj2 (NoDup_ListNoDup _) Hnd) En Hnm).
    rewrite Hsc in Es. by injection Es as <-.
  - destruct Hin as [->|Hin]; [congruence|]. by apply IH.
Qed.

Lemma find_no_case (keys : list Z) (nm : string) (idxs : list nat) (cs : list Case) :
  cases_from scales scaleNames pxAdjust keys idxs = Some cs ->
  (forall i, In i idxs -> scaleNames !! i <> Some nm) ->
  find (fun c => String.eqb (label c) nm) cs = None.
Proof.
  revert cs. induction idxs as [|j idxs IH]; intros cs Hcs Hno.
  - by injection Hcs as <-.
  - cbn [cases_from] in Hcs.
    destruct (scaleNames !! j) as [n|] eqn:En; [|done].
    destruct (scales !! j) as [sc|]; [|done].
    destruct (cases_from scales scaleNames pxAdjust keys idxs) as [cs'|]; [|done].
    injection Hcs as <-. cbn [find label].
    destruct (String.eqb_spec n nm) as [->|Hne].
    + exfalso. apply (Hno j); [by left|done].
    + apply IH; [done|]. intros i Hi. apply Hno. by right.
Qed.

(** X19. For a module whose pixel quantities are C++ [int]s and scale names
    that are pairwise different: started on the definitions it was
    written with, [initPxValues] leaves in the constant of every collected
    quantity [k] the value [pxAdjust(k, scales[i])] when [cScale()] is the
    i-th scale name (i at least 1), although it only assigns the constants
    whose value changes; on a retina screen, and for a scale that has no
    case (the first one among them), every constant keeps the value [k]. *)
Theorem initPxValues_rescales (variables : list structure.Variable_)
    (st : State) (src : Source) (k : Z) :
  collectUniqueValues variables = (true, st) ->
  Forall in_int_range (module_pixels_read variables) ->
  List.NoDup scaleNames ->
  writePxValuesInit scales scaleNames pxAdjust st = Some (Some src) ->
  In k (QMap.keys (pxValues_ st)) ->
  (forall i nm scale, (1 <= i)%nat ->
     scaleNames !! i = Some nm -> scales !! i = Some scale ->
     get (pxValueName k) (initPxValues src false nm (declarations src)) =
     Some (pxAdjust k scale)) /\
  (forall nm,
     get (pxValueName k) (initPxValues src true nm (declarations src)) = Some k) /\
  (forall nm, (forall i, (1 <= i)%nat -> scaleNames !! i <> Some nm) ->
     get (pxValueName k) (initPxValues src false nm (declarations src)) = Some k).
Proof.
  intros Hrun Hrange Hnames Hsrc Hk.
  assert (collects init (true, st) (module_pixels_read variables)) as Hc.
  { rewrite <- Hrun. apply CollectorFacts.enum_collects.
    apply List.Forall_forall. intros v _. apply CollectorFacts.collector_collects. }
  destruct Hc as (Hs & Hsub & _ & _). simpl in Hs, Hsub.
  assert (List.NoDup (QMap.keys (pxValues_ st))) as Hnd.
  { apply QMapFacts.sorted_NoDup, Hs. constructor. }
  assert (Forall in_int_range (QMap.keys (pxValues_ st))) as Hkeys.
  { apply List.Forall_forall. intros z Hz.
    rewrite List.Forall_forall in Hrange. apply Hrange.
    destruct (Hsub z Hz) as [[]|]; done. }
  unfold writePxValuesInit in Hsrc.
  destruct (isEmpty (pxValues_ st)); [done|].
  destruct (cases_from scales scaleNames pxAdjust (QMap.keys (pxValues_ st))
              (seq 1 (length scales - 1))) as [cs|] eqn:Hcs; [|done].
  injection Hsrc as <-. cbn [declarations].
  assert (get (pxValueName k) (pxConstants st) = Some k) as Hdecl
    by (by apply declared).
  split; [|split].
  - intros i nm scale Hi Hnm Hsc. unfold initPxValues. cbn [cases].
    rewrite (find_case _ nm i scale _ cs Hnames Hnm Hsc Hcs).
    + cbn [body]. by apply body_effect.
    + apply in_seq. apply lookup_lt_Some in Hsc. lia.
  - done.
  - intros nm Hno. unfold initPxValues. cbn [cases].
    rewrite (find_no_case _ nm _ cs Hcs); [done|].
    intros i Hi. apply Hno. apply in_seq in Hi. lia.
Qed.

End Scales.

Lemma initPxValues_rescales_witness :
  get (pxValueName 12)
      (initPxValues PxSamples.written false "dbisOneAndHalf"
                    (declarations PxSamples.written)) = Some 18.
Proof.
  apply (proj1 (initPxValues_rescales PxSamples.scales PxSamples.scaleNames
                  Samples.sample_pxAdjust Samples.px_module PxSamples.collected
                  PxSamples.written 12 eq_refl
                  ltac:(apply List.Forall_forall; intros z Hz; simpl in Hz;
                        unfold in_int_range; lia)
                  ltac:(unfold PxSamples.scaleNames;
                        repeat (apply List.NoDup_cons;
                                [simpl; intuition discriminate|]);
                        apply List.NoDup_nil)
                  eq_refl ltac:(vm_compute; tauto)) 2%nat "dbisOneAndHalf"%string 6).
  - lia.
  - reflexivity.
  - reflexivity.
Defined.

End PxInitFacts.

(** ** [writeFontFamiliesInit] registers every family once *)

Module FontInitFacts.
Import structure Collector CollectorSpec FontInit.
Local Open Scope Z_scope.

Lemma append_cancel_r (a b s : string) : (a ++ s = b ++ s)%string -> a = b.
Proof.
  revert b. induction a as [|x a IH]; intros [|y b] H; cbn [String.append] in H.
  - done.
  - exfalso. apply (f_equal String.length) in H.
    cbn [String.length] in H. rewrite StringFacts.length_append in H. lia.
  - exfalso. apply (f_equal String.length) in H.
    cbn [String.length] in H. rewrite StringFacts.length_append in H. lia.
  - injection H as -> H. f_equal. by apply IH.
Qed.

Lemma font_variable_inj (x y : Z) : font_variable x = font_variable y -> x = y.
Proof.
  unfold font_variable. intros H. cbn [String.append] in H.
  injection H as H. apply append_cancel_r in H.
  by apply PxNameFacts.QString_number_inj.
Qed.

(** X20. After a successful collection, [writeFontFamiliesInit] defines
    pairwise different variables and assigns each of them exactly once;
    every non-empty font family the collector visits is registered, into
    the variable named after its index in the table and with a literal
    [stringToEncodedString] writes for the family; and nothing else is
    registered. *)
Theorem font_families_registered (variables : list Variable_) (st : State)
    (src : Source) :
  collectUniqueValues variables = (true, st) ->
  writeFontFamiliesInit st = Some src ->
  List.NoDup (variables_ src) /\
  map fst (registrations src) = variables_ src /\
  (forall f, In f (flat_map families_read variables) ->
     In (font_variable (QMap.value String.compare f 0 (fontFamilies_ st)),
         Encoded.stringToEncodedString f) (registrations src)) /\
  (forall name lit, In (name, lit) (registrations src) ->
     exists f, In f (flat_map families_read variables) /\
       name = font_variable (QMap.value String.compare f 0 (fontFamilies_ st)) /\
       lit = Encoded.stringToEncodedString f).
Proof.
  intros Hrun Hsrc.
  destruct (TableFacts.module_tables variables st Hrun) as [Hfont _].
  pose proof (TableFacts.module_font_keys variables st Hrun) as Hnd.
  pose proof Hfont as (Hkeys & _ & _ & _ & _). cbn [font_table fst] in Hkeys.
  assert (forall k v, In (k, v) (fontFamilies_ st) ->
            In k (flat_map families_read variables) /\
            v = QMap.value String.compare k 0 (fontFamilies_ st)) as Hentry.
  { intros k v Hin. split.
    - apply Hkeys. apply in_map_iff. by exists (k, v).
    - symmetry. by apply TableFacts.value_entry. }
  unfold writeFontFamiliesInit in Hsrc.
  destruct (isEmpty (fontFamilies_ st)); [done|]. injection Hsrc as <-.
  cbn [variables_ registrations].
  split; [|split; [|split]].
  - apply NoDup_map_NoDup_ForallPairs.
    + intros [k1 v1] [k2 v2] H1 H2 Heq. cbn [snd] in Heq.
      apply font_variable_inj in Heq. subst v2.
      destruct (Hentry _ _ H1) as [Hk1 Hv1], (Hentry _ _ H2) as [Hk2 Hv2].
      f_equal. apply (TableFacts.first_seen_inj _ _ k1 k2 Hfont Hk1 Hk2).
      unfold index_of. cbn [font_table fst]. congruence.
    + by apply NoDup_map_inv in Hnd.
  - rewrite map_map. by apply map_ext.
  - intros f Hf. apply Hkeys in Hf. apply in_map_iff in Hf as ([k v] & Hk & Hin).
    cbn [fst] in Hk. subst k. apply in_map_iff. exists (f, v). split; [|done].
    cbn [fst snd]. do 2 f_equal. by apply Hentry.
  - intros name lit Hin. apply in_map_iff in Hin as ([k v] & [= <- <-] & Hin).
    destruct (Hentry _ _ Hin) as [Hk Hv]. exists k. split; [done|].
    split; [by rewrite <- Hv|done].
Qed.

Lemma font_families_registered_witness :
  List.NoDup (variables_ FontSamples.written).
Proof.
  apply (proj1 (font_families_registered TableSamples.two_fonts
                  (snd (collectUniqueValues TableSamples.two_fonts))
                  FontSamples.written eq_refl eq_refl)).
Defined.

End FontInitFacts.

(** ** [iconMaskValueSize] *)

Module IconSizeFacts.
Import IconSize.
Local Open Scope Z_scope.

Lemma byte_val_of (z : Z) : Crc32.byte_val (byte_of z) = z mod 256.
Proof.
  unfold byte_of, Crc32.byte_val.
  assert (0 <= z mod 256 < 256) as Hr by (apply Z.mod_pos_bound; lia).
  destruct (Byte.of_N (Z.to_N (z mod 256))) as [b|] eqn:E.
  - apply Byte.to_of_N in E. cbn [default from_option]. unfold id. rewrite E. lia.
  - apply Byte.of_N_None_iff in E. lia.
Qed.

Lemma read_qint32_bytes (v : Z) : in_int_range v -> read_qint32 (qint32_bytes v) = v.
Proof.
  unfold in_int_range, read_qint32, qint32_bytes, int32. intros Hv.
  cbn [fold_left]. rewrite !byte_val_of, !Z.shiftr_div_pow2 by lia.
  change (2 ^ 31) with 2147483648 in *. change (2 ^ 32) with 4294967296.
  change (2 ^ 24) with 16777216. change (2 ^ 16) with 65536. change (2 ^ 8) with 256.
  Z.div_mod_to_equations. lia.
Qed.

(** X21. The mask of a generated rectangle is never empty: it is the fourteen
    bytes [GENERATE:SIZE:] followed by eight bytes from which the width
    and the height, two C++ [int]s, are read back. *)
Theorem iconMaskValueSize_layout (width height : Z) :
  in_int_range width -> in_int_range height ->
  length (iconMaskValueSize width height) = 22%nat /\
  take 14 (iconMaskValueSize width height) = list_byte_of_string "GENERATE:SIZE:" /\
  read_qint32 (take 4 (drop 14 (iconMaskValueSize width height))) = width /\
  read_qint32 (drop 18 (iconMaskValueSize width height)) = height.
Proof.
  intros Hw Hh. split; [done|]. split; [done|].
  split; [exact (read_qint32_bytes width Hw)|exact (read_qint32_bytes height Hh)].
Qed.

Lemma iconMaskValueSize_layout_witness :
  read_qint32 (take 4 (drop 14 (iconMaskValueSize 24 (-1)))) = 24 /\
  read_qint32 (drop 18 (iconMaskValueSize 24 (-1))) = -1.
Proof.
  apply (proj2 (proj2 (iconMaskValueSize_layout 24 (-1)
           ltac:(unfold in_int_range; lia) ltac:(unfold in_int_range; lia)))).
Defined.

End IconSizeFacts.

(** ** [stringToEncodedString] keeps its lines short *)

Module LinesFacts.
Import HexText Encoded CLiteral Lines EncodedFacts.
Local Open Scope Z_scope.

Lemma scan_app (cur longest : nat) (a b : string) :
  scan cur longest (a ++ b) = scan (fst (scan cur longest a)) (snd (scan cur longest a)) b.
Proof.
  revert cur longest. induction a as [|c a IH]; intros cur longest; [done|].
  cbn [String.append scan]. destruct (Ascii.eqb c newline); apply IH.
Qed.

Lemma scan_line (cur longest : nat) (t : string) :
  no_newline t -> scan cur longest t = ((cur + String.length t)%nat, longest).
Proof.
  revert cur. induction t as [|c t IH]; intros cur Ht.
  - cbn. f_equal. lia.
  - cbn [scan String.length].
    destruct (Ascii.eqb_spec c newline) as [->|Hc].
    + exfalso. by apply (Ht newline); [left|].
    + rewrite IH by (by eapply no_newline_tail). f_equal. lia.
Qed.

Lemma no_newline_app (a b : string) :
  no_newline a -> no_newline b -> no_newline (a ++ b).
Proof.
  intros Ha Hb. induction a as [|c a IH]; [done|].
  intros d [<-|Hd].
  - apply Ha. by left.
  - revert d Hd. apply IH. by eapply no_newline_tail.
Qed.

Lemma line_inv_init : line_inv 0 (mkEnc EmptyString false false 0).
Proof.
  exists 0%nat, 0%nat. cbn. split; [done|]. split; [done|]. split; [lia|].
  split; [lia|]. by intros _ c [].
Qed.

Lemma line_inv_cut (st : EncState) :
  line_inv 84 st ->
  line_inv 80 (cut st) /\
  writingHexEscapedCharacters (cut st) = writingHexEscapedCharacters st.
Proof.
  intros (cur & longest & Hscan & Hcur & Hb & Hl & Hnl). unfold cut.
  destruct (Z.ltb_spec 80 (QString_size (result st) - lastCutSize st)) as [Hc|Hc].
  - split; [|done]. exists 0%nat, (Nat.max longest (S cur)).
    cbn [result lastCutSize startOnNewLine].
    split; [|split; [lia|split; [lia|split; [lia|done]]]].
    rewrite scan_app, Hscan. cbn [fst snd]. unfold lineBreak.
    change (scan cur longest (String backslash (String newline EmptyString)))
      with (scan (S cur) longest (String newline EmptyString)).
    cbn [scan]. by rewrite Ascii.eqb_refl.
  - split; [|done]. exists cur, longest. repeat split; try done. lia.
Qed.

Lemma line_inv_put (bound : nat) (st : EncState) (hex : bool) (t : string) :
  line_inv bound st -> no_newline t ->
  line_inv (bound + String.length t) (put st hex t).
Proof.
  intros (cur & longest & Hscan & Hcur & Hb & Hl & Hnl) Ht.
  exists (cur + String.length t)%nat, longest.
  cbn [put result lastCutSize startOnNewLine].
  split; [|split; [|split; [lia|split; [done|]]]].
  - rewrite scan_app, Hscan. cbn [fst snd]. by apply scan_line.
  - unfold QString_size in *. rewrite StringFacts.length_append. lia.
  - intros Hs. apply no_newline_app; [by apply Hnl|done].
Qed.

Lemma line_inv_weaken (b1 b2 : nat) (st : EncState) :
  (b1 <= b2)%nat -> line_inv b1 st -> line_inv b2 st.
Proof.
  intros Hb (cur & longest & H1 & H2 & H3 & H4).
  exists cur, longest. repeat split; try tauto. lia.
Qed.

Lemma encode_step_lines (st : EncState) (ch : ascii) :
  line_inv 84 st -> line_inv 84 (encode_step st ch).
Proof.
  intros Hinv. destruct (line_inv_cut st Hinv) as [Hcut _].
  unfold encode_step. set (st1 := cut st) in *. clearbody st1.
  destruct (Z.eqb_spec (code ch) 10) as [E10|N10].
  { apply (line_inv_weaken (80 + 2)); [lia|]. apply (line_inv_put 80); [done|].
    apply (no_newline_chars [backslash; "n"%char]); [done|].
    repeat constructor; done. }
  destruct (Z.eqb_spec (code ch) 9) as [E9|N9].
  { apply (line_inv_weaken (80 + 2)); [lia|]. apply (line_inv_put 80); [done|].
    apply (no_newline_chars [backslash; "t"%char]); [done|].
    repeat constructor; done. }
  destruct ((code ch =? 34) || (code ch =? 92)) eqn:Eq.
  { apply (line_inv_weaken (80 + 2)); [lia|]. apply (line_inv_put 80); [done|].
    apply (no_newline_chars [backslash; ch]); [done|].
    repeat constructor; done. }
  destruct ((code ch <? 32) || (127 <? code ch)) eqn:Erange.
  { apply (line_inv_weaken (80 + 4)); [lia|]. apply (line_inv_put 80); [done|].
    intros c [<-|[<-|[<-|[<-|[]]]]]; [done|done|..].
    - eapply digit_not_newline, first_digit.
    - eapply digit_not_newline, second_digit. }
  assert (no_newline (String ch EmptyString)) as Hch.
  { apply (no_newline_chars [ch]); [done|]. repeat constructor; done. }
  destruct (writingHexEscapedCharacters st1).
  - apply (line_inv_weaken (80 + 2 + 1)); [lia|].
    apply (line_inv_put (80 + 2)); [|done]. apply (line_inv_put 80); [done|].
    apply (no_newline_chars [quote; quote]); [done|]. repeat constructor; done.
  - apply (line_inv_weaken (80 + 1)); [lia|]. by apply (line_inv_put 80).
Qed.

Lemma encode_loop_lines (l : list ascii) :
  line_inv 84 (fold_left encode_step l (mkEnc EmptyString false false 0)).
Proof.
  induction l as [|ch l IH] using rev_ind.
  - apply (line_inv_weaken 0); [lia|apply line_inv_init].
  - rewrite fold_left_app. by apply encode_step_lines.
Qed.

(** X16. No line of the text [stringToEncodedString] writes has more than 86
    characters, whatever the input. *)
Theorem encoded_string_lines (str : string) :
  (longest_line (stringToEncodedString str) <= 86)%nat.
Proof.
  unfold stringToEncodedString, encode_loop.
  destruct (encode_loop_lines (list_ascii_of_string str))
    as (cur & longest & Hscan & _ & Hb & Hl & Hnl).
  set (st := fold_left encode_step _ _) in *. clearbody st.
  unfold longest_line.
  change (scan 0 0 (String quote ((if startOnNewLine st then lineBreak else EmptyString)
                                  ++ result st ++ String quote EmptyString)))
    with (scan 1 0 ((if startOnNewLine st then lineBreak else EmptyString)
                    ++ result st ++ String quote EmptyString)).
  destruct (startOnNewLine st).
  - change (scan 1 0 (lineBreak ++ result st ++ String quote EmptyString))
      with (scan 0 2 (result st ++ String quote EmptyString)).
    rewrite scan_app.
    assert (forall s m, scan 0 m s = (fst (scan 0 0 s), Nat.max m (snd (scan 0 0 s)))) as Hmax.
    { assert (forall s c m k, scan c (Nat.max m k) s =
                (fst (scan c k s), Nat.max m (snd (scan c k s)))) as H.
      { induction s as [|x s IH]; intros c m k; [done|].
        cbn [scan]. destruct (Ascii.eqb x newline); [|apply IH].
        rewrite <- Nat.max_assoc. apply IH. }
      intros s m. rewrite <- (Nat.max_0_r m) at 1. apply H. }
    rewrite (Hmax (result st) 2%nat), Hscan. cbn [fst snd scan].
    change (Ascii.eqb quote newline) with false. cbn [fst snd]. lia.
  - cbn [String.append]. rewrite scan_app.
    rewrite (scan_line 1 0 (result st)) by (by apply Hnl).
    cbn [fst snd scan]. change (Ascii.eqb quote newline) with false. cbn [fst snd].
    rewrite (scan_line 0 0 (result st)) in Hscan by (by apply Hnl).
    injection Hscan as Hc _. lia.
Qed.

End LinesFacts.

(** ** A declared fallback always wins *)

Module FallbackMore.
Import Palette PaletteGenSpec.
Local Open Scope Z_scope.

(** X5. In the palette generated for colours with distinct names, a colour
    whose fallback (or alias) names a colour declared before it never
    keeps its own literal: after [finalize] on a freshly constructed
    palette its slot is [Loaded] and holds a copy of the value of the
    fallback's slot. *)
Theorem declared_fallback_wins (vars : list structure.Variable_) (i j : nat)
    (u v : structure.Variable_) :
  PaletteGen.all_colors vars = true -> List.NoDup (map var_name vars) ->
  vars !! i = Some u -> vars !! j = Some v -> (i < j)%nat ->
  var_name u = colorFallbackName (structure.value v) ->
  status_at (PaletteGen.finalize vars (fresh (PaletteGen.count vars))) j = Loaded /\
  data_at (PaletteGen.finalize vars (fresh (PaletteGen.count vars))) j =
  data_at (PaletteGen.finalize vars (fresh (PaletteGen.count vars))) i.
Proof.
  intros Hall Hnd Hi Hj Hlt Hname.
  destruct (PaletteGenMore.run_resolved vars Hall Hnd) as (_ & _ & _ & _ & _ & _ & Hcalls).
  destruct (Hcalls j v Hj) as (fb & Hcall & _ & Hfb & _).
  rewrite (Hfb i u Hi ltac:(lia) Hname) in Hcall.
  destruct (PaletteGenFacts.generated_calls_ok vars Hall) as [Hok _].
  unfold PaletteGen.finalize.
  rewrite <- (take_drop_middle _ _ _ Hcall) in Hok |- *.
  destruct (FinalizeFallback.finalize_fallback_always_copied (PaletteGen.count vars)
              _ _ _ Hok) as [Hs Hd]; [cbn; lia|].
  cbn [call_index call_fallbackIndex] in Hs, Hd. rewrite Nat2Z.id in Hd.
  by split.
Qed.

Lemma declared_fallback_wins_witness :
  status_at (PaletteGen.finalize Samples.two_colors
               (fresh (PaletteGen.count Samples.two_colors))) 1 = Loaded /\
  data_at (PaletteGen.finalize Samples.two_colors
             (fresh (PaletteGen.count Samples.two_colors))) 1 =
  data_at (PaletteGen.finalize Samples.two_colors
             (fresh (PaletteGen.count Samples.two_colors))) 0.
Proof.
  apply (declared_fallback_wins Samples.two_colors 0 1
           (Samples.color_variable "windowBg"%string Byte.xff Byte.xff Byte.xff
                                   Byte.xff EmptyString)
           (Samples.color_variable "windowBgOver"%string Byte.xf1 Byte.xf1 Byte.xf1
                                   Byte.xff "windowBg"%string)
           eq_refl ltac:(repeat constructor; simpl; intuition discriminate)
           eq_refl eq_refl ltac:(lia) eq_refl).
Defined.

End FallbackMore.

(** ** Assignment into a palette that is not finalised *)

Module AssignMore.
Import Palette PaletteSpec.
Local Open Scope nat_scope.

(** X4. [operator=] copies a [Loaded] value into a slot that is [Initial]
    without changing the status of the slot.  In a palette that is not yet
    finalised the copy therefore does not survive: the next [finalize]
    finds the slot [Initial] and, for a colour without fallback,
    constructs the colour's own literal over it. *)
Theorem assigned_value_lost (count : nat) (l1 l2 cs : list ComputeCall)
    (c : ComputeCall) (p other : palette) :
  cs = l1 ++ c :: l2 -> calls_ok count cs ->
  (call_fallbackIndex c < 0)%Z ->
  length (_data p) = count -> length (_status p) = count ->
  _ready p = false ->
  status_at p (call_index c) = Initial ->
  status_at other (call_index c) = Loaded ->
  data_at (operator_assign count cs p other) (call_index c) =
    data_at other (call_index c) /\
  status_at (operator_assign count cs p other) (call_index c) = Initial /\
  _ready (operator_assign count cs p other) = false /\
  status_at (finalize cs (operator_assign count cs p other)) (call_index c) = Created /\
  data_at (finalize cs (operator_assign count cs p other)) (call_index c) =
    Some (ColorData_of (call_value c)).
Proof.
  intros -> Hok Hfb Hd Hs Hr Hpi Hoi.
  pose proof Hok as Hsplit. unfold calls_ok in Hsplit.
  rewrite map_app in Hsplit. cbn [map] in Hsplit.
  apply FinalizeFallback.seq_split_at in Hsplit as (H1 & Hx & Hlt).
  rewrite length_map in *.
  set (i := call_index c) in *.
  rewrite PaletteFacts.operator_assign_unfold, Hr. cbn [andb].
  unfold assign_loop.
  destruct (PaletteFacts.steps_at other (seq 0 count) p i) as [Hat _];
    [apply NoDup_ListNoDup, List.seq_NoDup|apply in_seq; lia|lia|lia|].
  destruct (Hat Hoi) as [Hst Hdt]. rewrite Hpi in Hst.
  pose proof (PaletteFacts.steps_ready_false other (seq 0 count) p Hr) as Hrq.
  destruct (PaletteFacts.steps_shape other (seq 0 count) p) as (Ld & Ls & _).
  set (q := steps other (seq 0 count) p) in *.
  split; [exact Hdt|]. split; [exact Hst|]. split; [exact Hrq|].
  rewrite PaletteFacts.finalize_unfold, Hrq.
  rewrite PaletteFacts.run_calls_app, PaletteFacts.run_calls_cons. fold i.
  set (q1 := run_calls l1 (set_ready q true)).
  assert (status_at q1 i = Initial) as Hinit.
  { destruct (FinalizeFallback.run_calls_untouched l1 (set_ready q true) i) as [E _].
    - rewrite H1, Hx. intros Hin%in_seq. lia.
    - unfold q1. by rewrite E. }
  destruct (PaletteFacts.run_calls_lengths l1 (set_ready q true)) as [Ld1 Ls1].
  fold q1 in Ld1, Ls1. cbn [set_ready _data _status] in Ld1, Ls1.
  assert (status_at (compute q1 i (call_fallbackIndex c) (call_value c)) i = Created /\
          data_at (compute q1 i (call_fallbackIndex c) (call_value c)) i =
            Some (ColorData_of (call_value c))) as [Hcs Hcd].
  { unfold compute. apply PaletteFacts.Status_eqb_eq in Hinit. rewrite Hinit.
    assert ((0 <=? call_fallbackIndex c)%Z = false) as -> by lia. cbn [andb].
    unfold status_at, data_at, construct_at, set_status; cbn.
    rewrite !list_lookup_insert_eq by lia. done. }
  destruct (PaletteFacts.run_calls_keeps l2
              (compute q1 i (call_fallbackIndex c) (call_value c)) i) as [-> ->];
    [congruence|done].
Qed.

Lemma assigned_value_lost_witness :
  status_at
    (finalize [mkCall 0 (-1) (mkTemp Byte.xff Byte.xff Byte.xff Byte.xff)]
       (operator_assign 1 [mkCall 0 (-1) (mkTemp Byte.xff Byte.xff Byte.xff Byte.xff)]
          (fresh 1)
          (mkPalette [Some (mkColorData Byte.x01 Byte.x02 Byte.x03 Byte.x04)]
                     [Loaded] true))) 0 = Created /\
  data_at
    (finalize [mkCall 0 (-1) (mkTemp Byte.xff Byte.xff Byte.xff Byte.xff)]
       (operator_assign 1 [mkCall 0 (-1) (mkTemp Byte.xff Byte.xff Byte.xff Byte.xff)]
          (fresh 1)
          (mkPalette [Some (mkColorData Byte.x01 Byte.x02 Byte.x03 Byte.x04)]
                     [Loaded] true))) 0 =
  Some (mkColorData Byte.xff Byte.xff Byte.xff Byte.xff).
Proof.
  apply (proj2 (proj2 (proj2 (assigned_value_lost 1 [] []
           [mkCall 0 (-1) (mkTemp Byte.xff Byte.xff Byte.xff Byte.xff)]
           (mkCall 0 (-1) (mkTemp Byte.xff Byte.xff Byte.xff Byte.xff))
           (fresh 1)
           (mkPalette [Some (mkColorData Byte.x01 Byte.x02 Byte.x03 Byte.x04)]
                      [Loaded] true)
           eq_refl eq_refl ltac:(simpl; lia) eq_refl eq_refl eq_refl eq_refl eq_refl)))).
Defined.

End AssignMore.
